(** * Thinky3D: validation, sanitisation and budgeted correction of generated
      simulation code

    A shallow embedding of

    - [hoistConditionalHooks], [sanitizeSimulationCode],
      [consumeErrorCorrectionBudget], [applySimulationEdits] and
      [fixSimulationCodeWithPatch] (the generation service),
    - [validateSimulationCode] and [extractParamNames] (the code validator),
    - the event-handler wrapper of [safeCreateElement] (the [ThreeSandbox] component),

    together with the properties the specification states about them, and of

    - [initErrorCorrectionBudget], [buildSimEditHistoryContext],
      [editSimulationCode], [sanitizeSchemaForGemini], the request bodies of
      [callGemini], [callGeminiChat] and [chatWithSlides], the tag stripping
      of [buildRichPreviousContext] and [stripHtml], [createAudioBlobUrl] and
      [writeString] (the generation service),
    - [sanitizeUnicodeMath] (the markup utilities),
    - [logAutoFixOnce], [resetAutoFixCounts], [safeUseFrame] and the render
      guard of the [ThreeSandbox] component,

    with further properties read off the code.

    JavaScript strings are sequences of UTF-16 code units; they are modelled
    as lists of [N].  Every built-in the code calls ([substring], [indexOf],
    [trim], [split], [replace], [replaceAll], regular expressions) is written
    out with the behaviour ECMAScript gives it. *)

From Stdlib Require Import NArith ZArith Ascii String DecimalString Lia.
From stdpp Require Import base list gmap.

Local Open Scope nat_scope.

(* ===================================================================== *)
(** * JavaScript strings                                                   *)
(* ===================================================================== *)

Module JS.

Abbreviation jsstring := (list N).

(** An ASCII literal as a sequence of code units. *)
Fixpoint js (x : string) : jsstring :=
  match x with
  | EmptyString => []
  | String a r => N_of_ascii a :: js r
  end.

Definition chQuote : N := 39%N.      (* ' *)
Definition chDQuote : N := 34%N.     (* the double quote *)
Definition chBacktick : N := 96%N.   (* ` *)
Definition chBackslash : N := 92%N.
Definition chNewline : N := 10%N.
Definition chDollar : N := 36%N.

Definition streq (a b : jsstring) : bool := bool_decide (a = b).

(** [s.substring(a, b)]: both indices are clamped to the length and swapped
    when they come in the wrong order. *)
Definition substring (s : jsstring) (a b : nat) : jsstring :=
  let a' := Nat.min a (length s) in
  let b' := Nat.min b (length s) in
  let from := Nat.min a' b' in
  let to := Nat.max a' b' in
  take (to - from) (drop from s).

(** [s.substring(a)] and [s.slice(a)] for a non-negative [a]. *)
Definition substringFrom (s : jsstring) (a : nat) : jsstring := drop a s.

Fixpoint isPrefix (p s : jsstring) : bool :=
  match p, s with
  | [], _ => true
  | _ :: _, [] => false
  | a :: p', b :: s' => N.eqb a b && isPrefix p' s'
  end.

Definition startsWith (s p : jsstring) : bool := isPrefix p s.

(** Does [p] occur in [s] at index [i]? *)
Definition occursAt (s p : jsstring) (i : nat) : bool := isPrefix p (drop i s).

Fixpoint indexOfAux (p s : jsstring) (pos : nat) : option nat :=
  if isPrefix p s then Some pos
  else match s with
       | [] => None
       | _ :: s' => indexOfAux p s' (S pos)
       end.

(** [s.indexOf(p, from)]; [None] stands for [-1]. *)
Definition indexOf (s p : jsstring) (from : nat) : option nat :=
  let from' := Nat.min from (length s) in
  indexOfAux p (drop from' s) from'.

(** [s.includes(p)]. *)
Definition includes (s p : jsstring) : bool :=
  match indexOf s p 0 with Some _ => true | None => false end.

(** White space and line terminators, as [trim] and the class [\s] see them. *)
Definition isWhiteSpace (c : N) : bool :=
  ((9 <=? c) && (c <=? 13) || (c =? 32) || (c =? 160) || (c =? 5760)
   || (8192 <=? c) && (c <=? 8202) || (c =? 8232) || (c =? 8233)
   || (c =? 8239) || (c =? 8287) || (c =? 12288) || (c =? 65279))%N.

Definition isLineTerminator (c : N) : bool :=
  ((c =? 10) || (c =? 13) || (c =? 8232) || (c =? 8233))%N.

(** The class [\w]. *)
Definition isWordChar (c : N) : bool :=
  ((48 <=? c) && (c <=? 57) || (65 <=? c) && (c <=? 90)
   || (97 <=? c) && (c <=? 122) || (c =? 95))%N.

Fixpoint trimStart (s : jsstring) : jsstring :=
  match s with
  | c :: s' => if isWhiteSpace c then trimStart s' else s
  | [] => []
  end.

Definition trimEnd (s : jsstring) : jsstring := rev (trimStart (rev s)).

Definition trim (s : jsstring) : jsstring := trimEnd (trimStart s).

(** [s.split(sep)] for a separator of one code unit. *)
Fixpoint split (sep : N) (s : jsstring) : list jsstring :=
  match s with
  | [] => [[]]
  | c :: s' =>
      if N.eqb c sep then [] :: split sep s'
      else match split sep s' with
           | l :: ls => (c :: l) :: ls
           | [] => [[c]]
           end
  end.

(** [ls.join(sep)]. *)
Fixpoint join (sep : jsstring) (ls : list jsstring) : jsstring :=
  match ls with
  | [] => []
  | [l] => l
  | l :: ls' => l ++ sep ++ join sep ls'
  end.

(** GetSubstitution for a string pattern (no capture groups): in the
    replacement text [$$] is a dollar sign, [$&] the matched text, [$`] the
    text before the match and [$'] the text after it; a dollar sign before
    anything else stands for itself. *)
Fixpoint getSubstitution (matched str : jsstring) (position : nat)
    (replacement : jsstring) : jsstring :=
  match replacement with
  | [] => []
  | c :: r =>
      if N.eqb c chDollar then
        match r with
        | d :: r' =>
            if N.eqb d chDollar then chDollar :: getSubstitution matched str position r'
            else if N.eqb d 38 then matched ++ getSubstitution matched str position r'
            else if N.eqb d chBacktick then
              take position str ++ getSubstitution matched str position r'
            else if N.eqb d chQuote then
              drop (position + length matched) str
                ++ getSubstitution matched str position r'
            else c :: getSubstitution matched str position r
        | [] => [c]
        end
      else c :: getSubstitution matched str position r
  end.

(** [s.replace(search, replacement)] with a string pattern: the first
    occurrence only. *)
Definition replaceStr (s search replacement : jsstring) : jsstring :=
  match indexOf s search 0 with
  | None => s
  | Some pos =>
      take pos s ++ getSubstitution search s pos replacement
        ++ drop (pos + length search) s
  end.

(** The match positions [s.replaceAll(search, _)] collects: the first
    occurrence, then the first occurrence at or after the end of the previous
    one (one code unit further for an empty pattern). *)
Fixpoint matchPositionsFrom (fuel : nat) (s search : jsstring) (from : nat)
    : list nat :=
  match fuel with
  | 0 => []
  | S fuel' =>
      if length s <? from then []
      else match indexOf s search from with
           | None => []
           | Some pos =>
               pos :: matchPositionsFrom fuel' s search
                        (pos + Nat.max 1 (length search))
           end
  end.

Definition matchPositions (s search : jsstring) : list nat :=
  matchPositionsFrom (S (length s)) s search 0.

Fixpoint assembleReplacements (s search replacement : jsstring)
    (positions : list nat) (endOfLastMatch : nat) : jsstring :=
  match positions with
  | [] => drop endOfLastMatch s
  | p :: ps =>
      substring s endOfLastMatch p
        ++ getSubstitution search s p replacement
        ++ assembleReplacements s search replacement ps (p + length search)
  end.

(** [s.replaceAll(search, replacement)] with a string pattern. *)
Definition replaceAll (s search replacement : jsstring) : jsstring :=
  assembleReplacements s search replacement (matchPositions s search) 0.

(** A number in a template literal, for the non-negative integers the code
    prints. *)
Definition natToString (n : nat) : jsstring :=
  js (NilZero.string_of_uint (Nat.to_uint n)).

Definition zToString (z : Z) : jsstring :=
  if (z <? 0)%Z then js "-" ++ natToString (Z.abs_nat z) else natToString (Z.to_nat z).

Definition hexDigit (n : N) : N :=
  (if n <? 10 then 48 + n else 87 + n)%N.

(** The six characters of a [\u] escape. *)
Definition unicodeEscape (c : N) : jsstring :=
  [chBackslash; 117%N; hexDigit (c / 4096 mod 16); hexDigit (c / 256 mod 16);
   hexDigit (c / 16 mod 16); hexDigit (c mod 16)]%N.

Definition isHighSurrogate (c : N) : bool := ((0xD800 <=? c) && (c <=? 0xDBFF))%N.
Definition isLowSurrogate (c : N) : bool := ((0xDC00 <=? c) && (c <=? 0xDFFF))%N.

Definition quoteChar (c : N) : jsstring :=
  (if c =? 8 then [chBackslash; 98]
   else if c =? 9 then [chBackslash; 116]
   else if c =? 10 then [chBackslash; 110]
   else if c =? 12 then [chBackslash; 102]
   else if c =? 13 then [chBackslash; 114]
   else if c =? chDQuote then [chBackslash; chDQuote]
   else if c =? chBackslash then [chBackslash; chBackslash]
   else if (c <? 32) || isHighSurrogate c || isLowSurrogate c then unicodeEscape c
   else [c])%N.

Fixpoint quoteBody (s : jsstring) : jsstring :=
  match s with
  | [] => []
  | c :: s' =>
      match s' with
      | d :: s'' =>
          if isHighSurrogate c && isLowSurrogate d then c :: d :: quoteBody s''
          else quoteChar c ++ quoteBody s'
      | [] => quoteChar c
      end
  end.

(** [JSON.stringify(s)] for a string: the text between double quotes, with
    quotes, backslashes, control characters and lone surrogates escaped. *)
Definition jsonStringify (s : jsstring) : jsstring :=
  [chDQuote] ++ quoteBody s ++ [chDQuote].

(** [s.toLowerCase()] on the ASCII letters. *)
Definition toLowerCase (s : jsstring) : jsstring :=
  (λ c, if (65 <=? c) && (c <=? 90) then c + 32 else c)%N <$> s.

(** A [Map] with string keys keeps its entries in insertion order; setting
    an existing key keeps the entry where it is. *)
Fixpoint mapGet {V : Type} (m : list (jsstring * V)) (k : jsstring) : option V :=
  match m with
  | [] => None
  | (k', v) :: m' => if streq k k' then Some v else mapGet m' k
  end.

Fixpoint mapSet {V : Type} (m : list (jsstring * V)) (k : jsstring) (v : V)
    : list (jsstring * V) :=
  match m with
  | [] => [(k, v)]
  | (k', v') :: m' =>
      if streq k k' then (k', v) :: m' else (k', v') :: mapSet m' k v
  end.

Definition mapHas {V : Type} (m : list (jsstring * V)) (k : jsstring) : bool :=
  bool_decide (is_Some (mapGet m k)).

(** A [Set] of strings. *)
Definition setHas (xs : list jsstring) (x : jsstring) : bool :=
  bool_decide (x ∈ xs).
Definition setAdd (xs : list jsstring) (x : jsstring) : list jsstring :=
  if setHas xs x then xs else xs ++ [x].

End JS.

(* ===================================================================== *)
(** * Regular expressions                                                  *)
(* ===================================================================== *)

(** The regular expressions of the source are transcribed as terms of [re]
    and run by a backtracking matcher that follows the ECMAScript pattern
    semantics: alternatives are tried in order, quantifiers are greedy, a
    quantified group may not match the empty string twice at one index, and a
    search tries the start indices from left to right. *)
Module Regex.
Import JS.

Inductive re : Type :=
| Eps
| Chr (p : N → bool)          (* a character class *)
| Lit (l : jsstring)          (* a literal run of characters *)
| Seq (a b : re)
| Alt (a b : re)
| Star (a : re)               (* a* *)
| Grp (n : nat) (a : re)      (* the n-th capture group *)
| Bol                         (* ^ *)
| Eol                         (* $ *)
| WordB.                      (* \b *)

Definition Plus (a : re) : re := Seq a (Star a).
Definition Opt (a : re) : re := Alt a Eps.
Definition seqs (l : list re) : re := foldr Seq Eps l.

(** The least number of characters a match of the expression spans. *)
Fixpoint minLen (r : re) : nat :=
  match r with
  | Chr _ => 1
  | Lit l => length l
  | Seq a b => minLen a + minLen b
  | Alt a b => Nat.min (minLen a) (minLen b)
  | Grp _ a => minLen a
  | Eps | Star _ | Bol | Eol | WordB => 0
  end.

(** Captures: group number, start and end index. *)
Definition caps := list (nat * (nat * nat)).

Definition cont := nat → caps → option (nat * caps).

Section Matcher.
Variable s : jsstring.

Definition isWordAt (i : nat) : bool :=
match s !! i with Some c => isWordChar c | None => false end.

Definition atWordBoundary (i : nat) : bool :=
xorb ((0 <? i) && isWordAt (i - 1)) (isWordAt i).

(** The loop of a greedy star: one more round of the body, which has to
  move on, and the rest; or, failing that, the rest at once. *)
Fixpoint starLoop (body : nat → caps → cont → option (nat * caps)) (k : cont)
  (n : nat) (i : nat) (c : caps) {struct n} : option (nat * caps) :=
match n with
| 0 => k i c
| S n' =>
    match body i c (λ i' c', if i <? i' then starLoop body k n' i' c' else None) with
    | Some x => Some x
    | None => k i c
    end
end.

Fixpoint m (r : re) (i : nat) (c : caps) (k : cont) {struct r}
  : option (nat * caps) :=
match r with
| Eps => k i c
| Chr p =>
    match s !! i with
    | Some x => if p x then k (S i) c else None
    | None => None
    end
| Lit l => if occursAt s l i then k (i + length l) c else None
| Seq a b => m a i c (λ i' c', m b i' c' k)
| Alt a b =>
    match m a i c k with
    | Some x => Some x
    | None => m b i c k
    end
| Star a => starLoop (m a) k (S (length s)) i c
| Grp n a => m a i c (λ i' c', k i' ((n, (i, i')) :: c'))
| Bol => if i =? 0 then k i c else None
| Eol => if i =? length s then k i c else None
| WordB => if atWordBoundary i then k i c else None
end.

Definition accept : cont := λ i c, Some (i, c).

(** One match attempt per start index, from [start] up to the end. *)
Fixpoint execFrom (fuel : nat) (r : re) (start : nat)
  : option (nat * nat * caps) :=
match m r start [] accept with
| Some (e, c) => Some (start, e, c)
| None =>
    match fuel with
    | 0 => None
    | S fuel' => execFrom fuel' r (S start)
    end
end.

(** [re.exec(s)] with [lastIndex = from]: start, end and captures of the
  leftmost match. *)
Definition exec (r : re) (from : nat) : option (nat * nat * caps) :=
if length s <? from then None else execFrom (length s - from) r from.

Definition test (r : re) : bool :=
match exec r 0 with Some _ => true | None => false end.

Fixpoint capture (c : caps) (n : nat) : option jsstring :=
match c with
| [] => None
| (n', (a, b)) :: c' =>
    if n =? n' then Some (substring s a b) else capture c' n
end.

(** The text of group [n] of a successful match. *)
Definition group (c : caps) (n : nat) : jsstring :=
default [] (capture c n).

(** The matches a global replace walks through: after an empty match the
  search moves on by one code unit. *)
Fixpoint matchesFrom (fuel : nat) (r : re) (from : nat)
  : list (nat * nat * caps) :=
match fuel with
| 0 => []
| S fuel' =>
    match exec r from with
    | None => []
    | Some (p, e, c) =>
        (p, e, c) :: matchesFrom fuel' r (if e =? p then S e else e)
    end
end.

Fixpoint assemble (f : jsstring → caps → jsstring)
  (ms : list (nat * nat * caps)) (next : nat) : jsstring :=
match ms with
| [] => drop next s
| (p, e, c) :: ms' =>
    substring s next p ++ f (substring s p e) c ++ assemble f ms' e
end.

(** [s.replace(/r/g, f)]: every match is replaced by what [f] makes of the
  matched text and its captures. *)
Definition replaceGlobal (r : re) (f : jsstring → caps → jsstring) : jsstring :=
assemble f (matchesFrom (S (length s)) r 0) 0.

(** [s.replace(/r/, '')]: the leftmost match is deleted. *)
Definition deleteFirst (r : re) : jsstring :=
match exec r 0 with
| None => s
| Some (p, e, _) => take p s ++ drop e s
end.
End Matcher.

Definition ws : re := Chr isWhiteSpace.
Definition word : re := Chr isWordChar.
Definition dot : re := Chr (λ c, negb (isLineTerminator c)).
Definition notChr (x : N) : re := Chr (λ c, negb (N.eqb c x)).
Definition declKeyword : re :=
  Alt (Lit (js "const")) (Alt (Lit (js "let")) (Lit (js "var"))).

End Regex.

(* ===================================================================== *)
(** * The sanitizer                                                        *)
(* ===================================================================== *)

Module Sanitizer.
Import JS Regex.

(** ** Hoisting hooks out of blocks: [hoistConditionalHooks] *)

Definition hookNames : list jsstring :=
  [js "useMemo"; js "useRef"; js "useEffect"; js "useState"; js "useCallback"].

Definition isQuoteChar (ch : N) : bool :=
  N.eqb ch chQuote || N.eqb ch chDQuote || N.eqb ch chBacktick.

(** The brace-depth map [depthAt] of one pass; braces inside string literals
    do not count. *)
Fixpoint depthMap (s : jsstring) (depth : Z) (inStr : option N)
    (escaped : bool) : list Z :=
  match s with
  | [] => []
  | ch :: s' =>
      if escaped then depth :: depthMap s' depth inStr false
      else if N.eqb ch chBackslash && bool_decide (is_Some inStr) then
        depth :: depthMap s' depth inStr true
      else
        match inStr with
        | Some q =>
            depth :: depthMap s' depth (if N.eqb ch q then None else inStr) false
        | None =>
            if isQuoteChar ch then depth :: depthMap s' depth (Some ch) false
            else if N.eqb ch 123 then (depth + 1)%Z :: depthMap s' (depth + 1)%Z None false
            else if N.eqb ch 125 then (depth - 1)%Z :: depthMap s' (depth - 1)%Z None false
            else depth :: depthMap s' depth None false
        end
  end.

Definition depthAt (result : jsstring) : list Z := depthMap result 0%Z None false.

(** The declaration prefix looked for at the end of the 120 characters before
    the call: [const], [let] or [var], white space, a name, an equals sign
    with optional white space around it, captured as group 1. *)
Definition reDeclPrefix : re :=
  seqs [Grp 1 (seqs [declKeyword; Plus ws; Plus word; Star ws; Lit (js "=");
                     Star ws]); Eol].

(** The walk to the parenthesis that closes the hook call; [endPos] is the
    index after it (or the end of the text when the call is left open). *)
Fixpoint parenWalk (fuel : nat) (result : jsstring) (endPos parenDepth : nat)
    (pInStr : option N) (pEscaped : bool) : nat :=
  match fuel with
  | 0 => endPos
  | S fuel' =>
      if (endPos <? length result) && (0 <? parenDepth) then
        match result !! endPos with
        | None => endPos
        | Some c =>
            if pEscaped then parenWalk fuel' result (S endPos) parenDepth pInStr false
            else if N.eqb c chBackslash && bool_decide (is_Some pInStr) then
              parenWalk fuel' result (S endPos) parenDepth pInStr true
            else
              match pInStr with
              | Some q =>
                  parenWalk fuel' result (S endPos) parenDepth
                    (if N.eqb c q then None else pInStr) false
              | None =>
                  if isQuoteChar c then
                    parenWalk fuel' result (S endPos) parenDepth (Some c) false
                  else
                    let parenDepth1 :=
                      if N.eqb c 40 then S parenDepth else parenDepth in
                    if N.eqb c 41 then
                      if parenDepth1 - 1 =? 0 then S endPos
                      else parenWalk fuel' result (S endPos) (parenDepth1 - 1) None false
                    else parenWalk fuel' result (S endPos) parenDepth1 None false
              end
        end
      else endPos
  end.

(** Trailing semicolons and spaces. *)
Fixpoint skipSemicolons (fuel : nat) (result : jsstring) (endPos : nat) : nat :=
  match fuel with
  | 0 => endPos
  | S fuel' =>
      match result !! endPos with
      | Some c =>
          if N.eqb c 59 || N.eqb c 32 then skipSemicolons fuel' result (S endPos)
          else endPos
      | None => endPos
      end
  end.

Definition skipNewline (result : jsstring) (endPos : nat) : nat :=
  match result !! endPos with
  | Some c => if N.eqb c chNewline then S endPos else endPos
  | None => endPos
  end.

(** The extent [stmtStart, endPos) of the statement around the hook call
    found at [idx]. *)
Definition hookStatement (result search : jsstring) (idx : nat) : nat * nat :=
  let lookBack := substring result (Nat.max 0 (idx - 120)) idx in
  let stmtStart :=
    match exec lookBack reDeclPrefix 0 with
    | Some (_, _, c) => idx - length (group lookBack c 1)
    | None => idx
    end in
  let parenStart := idx + length search - 1 in
  let endPos := parenWalk (length result) result (parenStart + 1) 1 None false in
  let endPos := skipSemicolons (length result) result endPos in
  (stmtStart, skipNewline result endPos).

Definition nestedAt (depths : list Z) (idx : nat) : bool :=
  match depths !! idx with
  | Some d => (0 <? d)%Z
  | None => false
  end.

(** The inner [while (pos < result.length)] loop for one hook name. *)
Fixpoint scanHook (fuel : nat) (result : jsstring) (depths : list Z)
    (search : jsstring) (pos : nat) : option (nat * nat) :=
  match fuel with
  | 0 => None
  | S fuel' =>
      if pos <? length result then
        match indexOf result search pos with
        | None => None
        | Some idx =>
            if nestedAt depths idx then Some (hookStatement result search idx)
            else scanHook fuel' result depths search (idx + length search)
        end
      else None
  end.

Definition hookSearch (hookName : jsstring) : jsstring :=
  js "React." ++ hookName ++ js "(".

(** The [for (const hookName of hookNames)] loop of one pass: the first hook
    call found inside a block, if any. *)
Fixpoint scanHooks (result : jsstring) (depths : list Z)
    (names : list jsstring) : option (nat * nat) :=
  match names with
  | [] => None
  | hookName :: names' =>
      match scanHook (S (length result)) result depths (hookSearch hookName) 0 with
      | Some r => Some r
      | None => scanHooks result depths names'
      end
  end.

(** The outer [while (madeChange && iterations < 30)] loop. *)
Fixpoint hoistLoop (iterations : nat) (result : jsstring)
    (hoistedStatements : list jsstring) : jsstring * list jsstring :=
  match iterations with
  | 0 => (result, hoistedStatements)
  | S iterations' =>
      match scanHooks result (depthAt result) hookNames with
      | None => (result, hoistedStatements)
      | Some (stmtStart, endPos) =>
          let stmt := trim (substring result stmtStart endPos) in
          hoistLoop iterations'
            (substring result 0 stmtStart ++ substringFrom result endPos)
            (hoistedStatements ++ [stmt])
      end
  end.

Definition hoistConditionalHooks (code : jsstring) : jsstring :=
  let '(result, hoistedStatements) := hoistLoop 30 code [] in
  if 0 <? length hoistedStatements then
    join [chNewline] hoistedStatements ++ [chNewline; chNewline] ++ result
  else result.

(** ** The rewrite pipeline: [sanitizeSimulationCode] *)

Definition R3F_GEOMETRY_TYPES : list jsstring :=
  [js "BoxGeometry"; js "SphereGeometry"; js "CylinderGeometry";
   js "ConeGeometry"; js "PlaneGeometry"; js "TorusGeometry";
   js "CircleGeometry"; js "RingGeometry"; js "TorusKnotGeometry";
   js "TubeGeometry"].

Definition R3F_MATERIAL_TYPES : list jsstring :=
  [js "MeshBasicMaterial"; js "MeshStandardMaterial"; js "MeshPhongMaterial";
   js "MeshLambertMaterial"; js "MeshNormalMaterial"; js "LineBasicMaterial";
   js "LineDashedMaterial"; js "PointsMaterial"].

(** Superscripts, subscripts and mathematical signs with their ASCII
    replacements. *)
Definition UNICODE_TO_ASCII : list (N * jsstring) :=
  [ (0x2070, js "0"); (0x00B9, js "1"); (0x00B2, js "2"); (0x00B3, js "3");
    (0x2074, js "4"); (0x2075, js "5"); (0x2076, js "6"); (0x2077, js "7");
    (0x2078, js "8"); (0x2079, js "9"); (0x207A, js "+"); (0x207B, js "-");
    (0x207C, js "="); (0x207D, js "("); (0x207E, js ")"); (0x207F, js "n");
    (0x2080, js "0"); (0x2081, js "1"); (0x2082, js "2"); (0x2083, js "3");
    (0x2084, js "4"); (0x2085, js "5"); (0x2086, js "6"); (0x2087, js "7");
    (0x2088, js "8"); (0x2089, js "9"); (0x208A, js "+"); (0x208B, js "-");
    (0x208C, js "="); (0x208D, js "("); (0x208E, js ")");
    (0x00D7, js "x"); (0x00F7, js "/"); (0x00B1, js "+/-"); (0x00B7, js ".");
    (0x2013, js "-"); (0x2014, js "--"); (0x2212, js "-") ]%N.

Fixpoint lookupUnicode (t : list (N * jsstring)) (ch : N) : option jsstring :=
  match t with
  | [] => None
  | (k, v) :: t' => if N.eqb ch k then Some v else lookupUnicode t' ch
  end.

(** The character class [UNICODE_REPLACE_RE] is built from: the keys of the
    table. *)
Definition inUnicodeTable (ch : N) : bool :=
  bool_decide (is_Some (lookupUnicode UNICODE_TO_ASCII ch)).

Definition UNICODE_REPLACE_RE : re := Chr inUnicodeTable.

Definition PROVIDED_VARS : list jsstring :=
  [js "React"; js "THREE"; js "useFrame"; js "useThree"; js "Text"; js "params"].

Definition isProvided (name : jsstring) : bool :=
  bool_decide (name ∈ PROVIDED_VARS).

(** [^export\s+default\s+] and [^export\s+] *)
Definition reExportDefault : re :=
  seqs [Bol; Lit (js "export"); Plus ws; Lit (js "default"); Plus ws].
Definition reExport : re := seqs [Bol; Lit (js "export"); Plus ws].

(** [^function\s+(\w+)\s*\(] *)
Definition reFuncDecl : re :=
  seqs [Bol; Lit (js "function"); Plus ws; Grp 1 (Plus word); Star ws;
        Lit (js "(")].

(** A destructuring declaration on one line: the keyword with its white
    space (group 1), the names between the braces (group 2), the equals sign
    and the right-hand side up to the end (group 3). *)
Definition reDestructure : re :=
  seqs [Bol; Grp 1 (Seq declKeyword (Plus ws)); Lit (js "{");
        Grp 2 (Plus (notChr 125)); Lit (js "}");
        Grp 3 (seqs [Star ws; Lit (js "="); Star ws; Plus dot]); Eol].

(** [^(?:const|let|var)\s+(\w+)\s*=] *)
Definition reDirectDecl : re :=
  seqs [Bol; declKeyword; Plus ws; Grp 1 (Plus word); Star ws; Lit (js "=")].

(** [n.split(/[\s:]/)[0].trim()]: the bound name of one destructuring entry. *)
Definition entryName (n : jsstring) : jsstring :=
  let first :=
    match exec n (Chr (λ c, isWhiteSpace c || N.eqb c 58)) 0 with
    | Some (p, _, _) => take p n
    | None => n
    end in
  trim first.

Definition nonEmpty (x : jsstring) : bool := 0 <? length x.

(** The callback of the first [map] over the lines: imports, exports and
    redeclarations of what the wrapper around the code provides. *)
Definition stripShadowLine (line : jsstring) : jsstring :=
  let trimmed := trim line in
  if startsWith trimmed (js "import ") then []
  else if startsWith trimmed (js "export default ")
          || startsWith trimmed (js "export ") then
    let stripped := deleteFirst (deleteFirst trimmed reExportDefault) reExport in
    replaceStr line trimmed stripped
  else
    let renamed :=
      match exec trimmed reFuncDecl 0 with
      | Some (_, _, c) =>
          let name := group trimmed c 1 in
          if isProvided name then
            Some (replaceStr line (js "function " ++ name)
                    (js "function _shadow_" ++ name))
          else None
      | None => None
      end in
    match renamed with
    | Some l => l
    | None =>
        let destructured :=
          match exec trimmed reDestructure 0 with
          | Some (_, _, c) =>
              let keyword := group trimmed c 1 in
              let namesStr := group trimmed c 2 in
              let rhs := group trimmed c 3 in
              let names := filter (λ x, nonEmpty x = true) (trim <$> split 44 namesStr) in
              let conflicting := filter (λ n, isProvided (entryName n) = true) names in
              if 0 <? length conflicting then
                let remaining := filter (λ n, isProvided (entryName n) ≠ true) names in
                if length remaining =? 0 then Some []
                else Some (keyword ++ js "{ " ++ join (js ", ") remaining
                             ++ js " }" ++ rhs)
              else None
          | None => None
          end in
        match destructured with
        | Some l => l
        | None =>
            match exec trimmed reDirectDecl 0 with
            | Some (_, _, c) =>
                if isProvided (group trimmed c 1) then [] else line
            | None => line
            end
        end
    end.

Definition stripShadows (code : jsstring) : jsstring :=
  join [chNewline] (stripShadowLine <$> split chNewline code).

(** [lcFirst]: the type names it is applied to are ASCII. *)
Definition lcFirst (x : jsstring) : jsstring :=
  match x with
  | [] => []
  | c :: r => (if (65 <=? c) && (c <=? 90) then c + 32 else c)%N :: r
  end.

(** The balanced-parenthesis counter shared by the constructor rewrites:
    the index reached when the loop stops. *)
Fixpoint balancedEnd (fuel : nat) (s : jsstring) (i depth : nat) : nat :=
  match fuel with
  | 0 => i
  | S fuel' =>
      if (i <? length s) && (0 <? depth) then
        match s !! i with
        | Some c =>
            if N.eqb c 40 then balancedEnd fuel' s (S i) (S depth)
            else if N.eqb c 41 then balancedEnd fuel' s (S i) (depth - 1)
            else balancedEnd fuel' s (S i) depth
        | None => i
        end
      else i
  end.

(** [=\s*$], [=>\s*$] and [return\s+$] on the 80 characters before a
    constructor. *)
Definition reAssignment : re := seqs [Lit (js "="); Star ws; Eol].
Definition reArrowReturn : re := seqs [Lit (js "=>"); Star ws; Eol].
Definition reExplicitReturn : re := seqs [Lit (js "return"); Plus ws; Eol].

Definition createElementOf (elementName : jsstring) : jsstring :=
  js "React.createElement('" ++ elementName ++ js "'".

(** The [while (true)] loop of the geometry-constructor rewrite for one type. *)
Fixpoint geometryLoop (fuel : nat) (geo sanitized : jsstring) (startIdx : nat)
    : jsstring :=
  match fuel with
  | 0 => sanitized
  | S fuel' =>
      let elementName := lcFirst geo in
      let prefix := js "new THREE." ++ geo ++ js "(" in
      match indexOf sanitized prefix startIdx with
      | None => sanitized
      | Some idx =>
          let argsStart := idx + length prefix in
          let i := balancedEnd (length sanitized) sanitized argsStart 1 in
          let argsEnd := i - 1 in
          let argsStr := trim (substring sanitized argsStart argsEnd) in
          let lookBack := substring sanitized (Nat.max 0 (idx - 80)) idx in
          if test lookBack reAssignment || test lookBack reArrowReturn
             || test lookBack reExplicitReturn then
            geometryLoop fuel' geo sanitized (argsEnd + 1)
          else
            let replacement :=
              if length argsStr =? 0 then createElementOf elementName ++ js ")"
              else createElementOf elementName ++ js ", { args: [" ++ argsStr
                     ++ js "] })" in
            geometryLoop fuel' geo
              (substring sanitized 0 idx ++ replacement
                 ++ substringFrom sanitized (argsEnd + 1))
              (idx + length replacement)
      end
  end.

Definition fixGeometryConstructors (sanitized : jsstring) : jsstring :=
  foldl (λ acc geo, geometryLoop (S (length acc)) geo acc 0) sanitized
    R3F_GEOMETRY_TYPES.

Definition GEOMETRY_INSTANCE_METHODS : list jsstring :=
  [js "rotateX"; js "rotateY"; js "rotateZ"; js "translate"; js "scale";
   js "lookAt"; js "setAttribute"; js "setIndex"; js "setFromPoints";
   js "computeVertexNormals"; js "computeBoundingSphere";
   js "computeBoundingBox"; js "center"; js "normalize"; js "applyMatrix4";
   js "merge"; js "dispose"; js "clone"; js "copy"; js "attributes";
   js "index"].

(** The variable a declarative element is bound to, looked for at the end of
    the 80 characters before it (the name is group 1). *)
Definition reVarBinding : re :=
  seqs [declKeyword; Plus ws; Grp 1 (Plus word); Star ws; Lit (js "=");
        Star ws; Eol].

(** An object literal [{ args: [...] }]; group 1 is what stands between the
    brackets. *)
Definition reArgsProp : re :=
  seqs [Lit (js "{"); Star ws; Lit (js "args:"); Star ws; Lit (js "[");
        Grp 1 (Star (notChr 93)); Lit (js "]"); Star ws; Lit (js "}")].

(** The [while (true)] loop that turns a declarative geometry bound to a
    variable back into a constructor call when geometry methods are called on
    the variable. *)
Fixpoint reversalLoop (fuel : nat) (geo sanitized : jsstring)
    (searchStart : nat) : jsstring :=
  match fuel with
  | 0 => sanitized
  | S fuel' =>
      let elementName := lcFirst geo in
      let cePattern := createElementOf elementName in
      match indexOf sanitized cePattern searchStart with
      | None => sanitized
      | Some ceIdx =>
          let lookBack := substring sanitized (Nat.max 0 (ceIdx - 80)) ceIdx in
          match exec lookBack reVarBinding 0 with
          | None => reversalLoop fuel' geo sanitized (ceIdx + length cePattern)
          | Some (_, _, c) =>
              let varName := group lookBack c 1 in
              let codeAfter := substringFrom sanitized ceIdx in
              let needsFix :=
                existsb (λ method, includes codeAfter (varName ++ js "." ++ method))
                  GEOMETRY_INSTANCE_METHODS in
              if negb needsFix then
                reversalLoop fuel' geo sanitized (ceIdx + length cePattern)
              else
                match indexOf sanitized (js "(") ceIdx with
                | None => reversalLoop fuel' geo sanitized (ceIdx + length cePattern)
                | Some openParen =>
                    let pIdx :=
                      balancedEnd (length sanitized) sanitized (openParen + 1) 1 in
                    let fullCall := substring sanitized ceIdx pIdx in
                    let replacement :=
                      match exec fullCall reArgsProp 0 with
                      | Some (_, _, c') =>
                          js "new THREE." ++ geo ++ js "(" ++ group fullCall c' 1
                            ++ js ")"
                      | None => js "new THREE." ++ geo ++ js "()"
                      end in
                    reversalLoop fuel' geo
                      (substring sanitized 0 ceIdx ++ replacement
                         ++ substringFrom sanitized pIdx)
                      (ceIdx + length replacement)
                end
          end
      end
  end.

Definition fixElementGeometries (sanitized : jsstring) : jsstring :=
  foldl (λ acc geo, reversalLoop (S (length acc)) geo acc 0) sanitized
    R3F_GEOMETRY_TYPES.

(** A dotted chain of names ending in [.current] (group 1), followed by
    [.setFromPoints(]. *)
Definition reSetFromPoints : re :=
  seqs [Grp 1 (seqs [Plus word; Star (Seq (Lit (js ".")) (Plus word));
                     Lit (js ".current")]);
        Lit (js ".setFromPoints(")].

(** The replacement text [($1.geometry || $1).setFromPoints(]. *)
Definition fixSetFromPoints (sanitized : jsstring) : jsstring :=
  replaceGlobal sanitized reSetFromPoints
    (λ _ c, let g := group sanitized c 1 in
            js "(" ++ g ++ js ".geometry || " ++ g ++ js ").setFromPoints(").

(** A call [x.y.computeBoundingSphere()] with its trailing semicolon. *)
Definition reComputeBoundingSphere : re :=
  seqs [WordB; Plus word; Star (Seq (Lit (js ".")) (Plus word));
        Lit (js ".computeBoundingSphere("); Star ws; Lit (js ")"); Star ws;
        Opt (Lit (js ";"))].

Definition cbsMarker : jsstring :=
  js "/* computeBoundingSphere removed - frustumCulled:false handles this */".

Definition stripComputeBoundingSphere (sanitized : jsstring) : jsstring :=
  replaceGlobal sanitized reComputeBoundingSphere (λ _ _, cbsMarker).

(** The [while (true)] loop of the material-constructor rewrite for one type. *)
Fixpoint materialLoop (fuel : nat) (mat sanitized : jsstring) (startIdx : nat)
    : jsstring :=
  match fuel with
  | 0 => sanitized
  | S fuel' =>
      let elementName := lcFirst mat in
      let prefix := js "new THREE." ++ mat ++ js "(" in
      match indexOf sanitized prefix startIdx with
      | None => sanitized
      | Some idx =>
          let argsStart := idx + length prefix in
          let i := balancedEnd (length sanitized) sanitized argsStart 1 in
          let argsEnd := i - 1 in
          let argsStr := trim (substring sanitized argsStart argsEnd) in
          let replacement :=
            if length argsStr =? 0 then createElementOf elementName ++ js ")"
            else
              let unwrapped :=
                trim (deleteFirst
                        (deleteFirst argsStr (Seq Bol (Lit (js "{"))))
                        (Seq (Lit (js "}")) Eol)) in
              if 0 <? length unwrapped then
                createElementOf elementName ++ js ", { " ++ unwrapped ++ js " })"
              else createElementOf elementName ++ js ")" in
          materialLoop fuel' mat
            (substring sanitized 0 idx ++ replacement
               ++ substringFrom sanitized (argsEnd + 1))
            (idx + length replacement)
      end
  end.

Definition fixMaterialConstructors (sanitized : jsstring) : jsstring :=
  foldl (λ acc mat, materialLoop (S (length acc)) mat acc 0) sanitized
    R3F_MATERIAL_TYPES.

Definition normalizeUnicode (sanitized : jsstring) : jsstring :=
  replaceGlobal sanitized UNICODE_REPLACE_RE
    (λ ch _, match ch with
             | [x] => default ch (lookupUnicode UNICODE_TO_ASCII x)
             | _ => ch
             end).

(** The whole pipeline, in the order of the source.  The animation
    anti-pattern check between the two last rewrites only logs, and the audit
    log is no part of the returned text. *)
Definition sanitizeSimulationCode (code : jsstring) : jsstring :=
  let sanitized := stripShadows code in
  let sanitized := hoistConditionalHooks sanitized in
  let sanitized := normalizeUnicode sanitized in
  let sanitized := fixGeometryConstructors sanitized in
  let sanitized := fixElementGeometries sanitized in
  let sanitized := fixSetFromPoints sanitized in
  let sanitized := stripComputeBoundingSphere sanitized in
  fixMaterialConstructors sanitized.

(** ** Text on which no rewrite rule has anything to do *)

(** One of the shadow-stripping patterns applies to the line. *)
Definition lineShadows (line : jsstring) : bool :=
  let trimmed := trim line in
  startsWith trimmed (js "import ")
  || startsWith trimmed (js "export default ") || startsWith trimmed (js "export ")
  || match exec trimmed reFuncDecl 0 with
     | Some (_, _, c) => isProvided (group trimmed c 1)
     | None => false
     end
  || match exec trimmed reDestructure 0 with
     | Some (_, _, c) =>
         let names :=
           filter (λ x, nonEmpty x = true) (trim <$> split 44 (group trimmed c 2)) in
         0 <? length (filter (λ n, isProvided (entryName n) = true) names)
     | None => false
     end
  || match exec trimmed reDirectDecl 0 with
     | Some (_, _, c) => isProvided (group trimmed c 1)
     | None => false
     end.

(** [ok] holds at every index where [p] occurs in [s]. *)
Definition allOccurrences (s p : jsstring) (ok : nat → bool) : bool :=
  forallb (λ i, implb (occursAt s p i) (ok i)) (seq 0 (S (length s))).

(** Every hook call stands outside all braces. *)
Definition hooksAtTopLevel (s : jsstring) : bool :=
  forallb (λ hookName,
             allOccurrences s (hookSearch hookName)
               (λ idx, negb (nestedAt (depthAt s) idx))) hookNames.

Definition noUnicode (s : jsstring) : bool :=
  forallb (λ c, negb (inUnicodeTable c)) s.

(** The constructor at [idx] is assigned, returned by an arrow or returned. *)
Definition storedOrReturned (s : jsstring) (idx : nat) : bool :=
  let lookBack := substring s (Nat.max 0 (idx - 80)) idx in
  test lookBack reAssignment || test lookBack reArrowReturn
  || test lookBack reExplicitReturn.

Definition geometriesStored (s : jsstring) : bool :=
  forallb (λ geo,
             allOccurrences s (js "new THREE." ++ geo ++ js "(") (storedOrReturned s))
    R3F_GEOMETRY_TYPES.

(** The declarative element at [ceIdx] is not bound to a variable on which a
    geometry method is called. *)
Definition elementLeftAlone (s : jsstring) (ceIdx : nat) : bool :=
  let lookBack := substring s (Nat.max 0 (ceIdx - 80)) ceIdx in
  match exec lookBack reVarBinding 0 with
  | None => true
  | Some (_, _, c) =>
      negb (existsb (λ method,
                       includes (substringFrom s ceIdx)
                         (group lookBack c 1 ++ js "." ++ method))
              GEOMETRY_INSTANCE_METHODS)
  end.

Definition elementsLeftAlone (s : jsstring) : bool :=
  forallb (λ geo,
             allOccurrences s (createElementOf (lcFirst geo)) (elementLeftAlone s))
    R3F_GEOMETRY_TYPES.

Definition noSetFromPoints (s : jsstring) : bool :=
  negb (includes s (js ".current.setFromPoints(")).

Definition noComputeBoundingSphere (s : jsstring) : bool :=
  negb (includes s (js ".computeBoundingSphere(")).

Definition noMaterialConstructors (s : jsstring) : bool :=
  forallb (λ mat, negb (includes s (js "new THREE." ++ mat ++ js "(")))
    R3F_MATERIAL_TYPES.

(** No rule of the pipeline finds its pattern in the text: no line to strip,
    no hook call inside braces, no character of the table, no geometry
    constructor used inline, no declarative geometry to turn back, no call of
    [setFromPoints] on a [.current], no call of [computeBoundingSphere], no
    material constructor. *)
Definition settled (s : jsstring) : bool :=
  forallb (λ line, negb (lineShadows line)) (split chNewline s)
  && hooksAtTopLevel s && noUnicode s && geometriesStored s
  && elementsLeftAlone s && noSetFromPoints s && noComputeBoundingSphere s
  && noMaterialConstructors s.

End Sanitizer.

(* ===================================================================== *)
(** * The static validator                                                 *)
(* ===================================================================== *)

Module Validator.
Import JS Regex.

(** Names that are never reported as undefined. *)
Definition KNOWN_GLOBALS : list jsstring :=
  [ js "React"; js "useFrame"; js "useRef"; js "useMemo"; js "useEffect";
    js "useState"; js "useCallback"; js "useLayoutEffect"; js "useReducer";
    js "useContext"; js "useImperativeHandle"; js "useMemo";
    js "THREE";
    js "params"; js "Text"; js "useThree";
    js "Math"; js "Date"; js "console"; js "Array"; js "Object"; js "String";
    js "Number"; js "Boolean"; js "parseInt"; js "parseFloat"; js "isNaN";
    js "isFinite"; js "undefined"; js "null"; js "Infinity"; js "NaN";
    js "JSON"; js "Promise"; js "Set"; js "Map"; js "WeakMap"; js "WeakSet";
    js "Symbol"; js "Error"; js "TypeError"; js "ReferenceError";
    js "SyntaxError"; js "RangeError"; js "setTimeout"; js "setInterval";
    js "clearTimeout"; js "clearInterval"; js "requestAnimationFrame";
    js "cancelAnimationFrame"; js "Float32Array"; js "Float64Array";
    js "Int8Array"; js "Int16Array"; js "Int32Array"; js "Uint8Array";
    js "Uint16Array"; js "Uint32Array"; js "Uint8ClampedArray";
    js "ArrayBuffer"; js "DataView";
    js "args"; js "state"; js "delta"; js "clock"; js "camera"; js "scene";
    js "gl"; js "raycaster"; js "pointer"; js "size"; js "viewport";
    js "mouse"; js "performance"; js "events";
    js "window"; js "document"; js "navigator"; js "location"; js "history";
    js "length"; js "push"; js "pop"; js "shift"; js "unshift"; js "slice";
    js "splice"; js "map"; js "filter"; js "reduce"; js "forEach"; js "find";
    js "findIndex"; js "some"; js "every"; js "keys"; js "values";
    js "entries"; js "hasOwnProperty"; js "toString"; js "valueOf" ].

Definition isKnownGlobal (name : jsstring) : bool :=
  bool_decide (name ∈ KNOWN_GLOBALS).

(** ** Syntax trees

    The parser and the tree walker are libraries; what the validator sees of
    a tree is the type of a node, the line it starts on, and its children
    under their field names, in the order the walker visits them.  A field
    that holds a list contributes one child per element. *)

Inductive fieldKey : Type :=
| Kid | Kparams | Kbody | Kkey | Kvalue | Kobject | Kproperty | Klabel
| Kinit | Kleft | Kargument | Kproperties | Kelements | Kparam | Kcallee
| Karguments | Kother.

#[global] Instance fieldKey_eq_dec : EqDecision fieldKey.
Proof. solve_decision. Defined.

Inductive nodeType : Type :=
| Identifier (name : jsstring)
| StringLiteral (value : jsstring)
| FunctionDeclaration
| FunctionExpression
| ArrowFunctionExpression
| ObjectMethod (computed : bool)
| ClassMethod (computed : bool)
| ClassPrivateMethod
| BlockStatement
| CatchClause
| VariableDeclarator
| MemberExpression (computed : bool)
| OptionalMemberExpression (computed : bool)
| ObjectProperty (computed : bool)
| ClassProperty (computed : bool)
| ClassDeclaration
| ImportSpecifier
| ExportSpecifier
| LabeledStatement
| CallExpression
| AssignmentPattern
| ObjectPattern
| ArrayPattern
| RestElement
| OtherNode.      (* every node type the visitors do not look at *)

#[local] Unset Elimination Schemes.
Inductive node : Type :=
| Node (ty : nodeType) (line : nat) (children : list (fieldKey * node)).
#[local] Set Elimination Schemes.

Definition nodeTy (n : node) : nodeType := let 'Node ty _ _ := n in ty.
Definition nodeLine (n : node) : nat := let 'Node _ l _ := n in l.
Definition nodeChildren (n : node) : list (fieldKey * node) :=
  let 'Node _ _ cs := n in cs.

Definition hasKey (k : fieldKey) (kc : fieldKey * node) : bool :=
  bool_decide (kc.1 = k).

(** The elements of a list field, and the node of a single field. *)
Definition nodeFields (n : node) (k : fieldKey) : list node :=
  snd <$> List.filter (hasKey k) (nodeChildren n).
Definition nodeField (n : node) (k : fieldKey) : option node :=
  head (nodeFields n k).

Definition isFunction (ty : nodeType) : bool :=
  match ty with
  | FunctionDeclaration | FunctionExpression | ArrowFunctionExpression
  | ObjectMethod _ | ClassMethod _ | ClassPrivateMethod => true
  | _ => false
  end.

Definition isCatchClause (ty : nodeType) : bool :=
  match ty with CatchClause => true | _ => false end.

Definition isIdentifierNamed (n : node) (name : jsstring) : bool :=
  match nodeTy n with
  | Identifier x => streq x name
  | _ => false
  end.

(** The first child under field [k], handed to [f]; [d] when there is none. *)
Fixpoint withField {A : Type} (k : fieldKey) (f : node → A) (d : A)
    (cs : list (fieldKey * node)) : A :=
  match cs with
  | [] => d
  | (k', c) :: cs' => if bool_decide (k' = k) then f c else withField k f d cs'
  end.

(** [extractParamNames]: the names a parameter binds, through defaults,
    destructuring and rest elements. *)
Fixpoint extractParamNames (param : node) : list jsstring :=
  match param with
  | Node ty _ children =>
      match ty with
      | Identifier name => [name]
      | AssignmentPattern => withField Kleft extractParamNames [] children
      | ObjectPattern =>
          flat_map
            (λ kc,
               match kc with
               | (Kproperties, Node (ObjectProperty _) _ pcs) =>
                   withField Kvalue extractParamNames [] pcs
               | (Kproperties, Node RestElement _ pcs) =>
                   withField Kargument extractParamNames [] pcs
               | _ => []
               end) children
      | ArrayPattern =>
          flat_map
            (λ kc,
               match kc with
               | (Kelements, el) => extractParamNames el
               | _ => []
               end) children
      | RestElement => withField Kargument extractParamNames [] children
      | _ => []
      end
  end.

(** ** Scopes *)

(** [parentScope] is a reference to a scope that is still being filled in
    while its children exist; scopes therefore live in one store, [allScopes],
    in the order of their creation, and refer to each other by index. *)
Record ScopeInfo : Type := mkScope {
  declarations : list (jsstring * nat);
  usages : list (jsstring * list nat);
  functionParams : list jsstring;
  parentScope : option nat;
}.

Definition emptyScope (parent : option nat) : ScopeInfo :=
  mkScope [] [] [] parent.

(** The state of the walk.  [scopeStack] has its top first; [currentScope]
    is always the top of the stack. *)
Record WalkState : Type := mkWalk {
  allScopes : list ScopeInfo;
  scopeStack : list nat;
  reactElementVars : list jsstring;
  walkWarnings : list jsstring;
}.

Definition currentScope (st : WalkState) : nat := default 0 (head (scopeStack st)).

Definition initialWalk : WalkState := mkWalk [emptyScope None] [0] [] [].

Definition updateCurrent (f : ScopeInfo → ScopeInfo) (st : WalkState) : WalkState :=
  mkWalk (alter f (currentScope st) (allScopes st)) (scopeStack st)
    (reactElementVars st) (walkWarnings st).

(** [currentScope.declarations.set(name, line)] *)
Definition declare (name : jsstring) (line : nat) (st : WalkState) : WalkState :=
  updateCurrent
    (λ sc, mkScope (mapSet (declarations sc) name line) (usages sc)
             (functionParams sc) (parentScope sc)) st.

(** The usage list of [name] gets [line] appended, and is created first when
    the name had none. *)
Definition recordUsage (name : jsstring) (line : nat) (st : WalkState) : WalkState :=
  updateCurrent
    (λ sc, mkScope (declarations sc)
             (mapSet (usages sc) name (default [] (mapGet (usages sc) name) ++ [line]))
             (functionParams sc) (parentScope sc)) st.

(** A new scope below the current one, seeded with parameter names, becomes
    the current scope. *)
Definition pushScope (paramNames : list jsstring) (st : WalkState) : WalkState :=
  let newScope :=
    mkScope [] [] (foldl setAdd [] paramNames) (Some (currentScope st)) in
  mkWalk (allScopes st ++ [newScope]) (length (allScopes st) :: scopeStack st)
    (reactElementVars st) (walkWarnings st).

Definition popScope (st : WalkState) : WalkState :=
  mkWalk (allScopes st) (tail (scopeStack st)) (reactElementVars st)
    (walkWarnings st).

Definition addReactElementVar (name : jsstring) (st : WalkState) : WalkState :=
  mkWalk (allScopes st) (scopeStack st) (setAdd (reactElementVars st) name)
    (walkWarnings st).

Definition pushWarning (w : jsstring) (st : WalkState) : WalkState :=
  mkWalk (allScopes st) (scopeStack st) (reactElementVars st)
    (walkWarnings st ++ [w]).

(** ** The visitors *)

(** A call [React.createElement('type', ...)]: the type it names. *)
Definition createElementType (call : node) : option jsstring :=
  match nodeTy call, nodeField call Kcallee with
  | CallExpression, Some callee =>
      match nodeTy callee, nodeField callee Kobject, nodeField callee Kproperty with
      | MemberExpression _, Some object, Some property =>
          if isIdentifierNamed object (js "React")
             && isIdentifierNamed property (js "createElement") then
            match nodeFields call Karguments with
            | arg0 :: _ =>
                match nodeTy arg0 with
                | StringLiteral value => Some value
                | _ => None
                end
            | [] => None
            end
          else None
      | _, _, _ => None
      end
  | _, _ => None
  end.

Definition namesGeometry (elementType : jsstring) : bool :=
  includes (toLowerCase elementType) (js "geometry").

(** Is the initialiser of a declarator a declarative geometry element, either
    directly or as the expression body of a [useMemo] callback? *)
Definition bindsGeometryElement (init : node) : bool :=
  match nodeTy init with
  | CallExpression =>
      match createElementType init with
      | Some elementType => namesGeometry elementType
      | None =>
          match nodeField init Kcallee, nodeFields init Karguments with
          | Some callee, callback :: _ =>
              if isIdentifierNamed callee (js "useMemo") then
                match nodeTy callback with
                | ArrowFunctionExpression | FunctionExpression =>
                    match nodeField callback Kbody with
                    | Some body =>
                        match createElementType body with
                        | Some elementType => namesGeometry elementType
                        | None => false
                        end
                    | None => false
                    end
                | _ => false
                end
              else false
          | _, _ => false
          end
      end
  | _ => false
  end.

Definition onVariableDeclarator (n : node) (st : WalkState) : WalkState :=
  let line := nodeLine n in
  match nodeField n Kid with
  | None => st
  | Some id =>
      match nodeTy id with
      | Identifier name =>
          let st := declare name line st in
          match nodeField n Kinit with
          | Some init =>
              if bindsGeometryElement init then addReactElementVar name st else st
          | None => st
          end
      | ObjectPattern =>
          foldl
            (λ st prop,
               match nodeTy prop with
               | ObjectProperty _ =>
                   match nodeTy <$> nodeField prop Kvalue with
                   | Some (Identifier name) => declare name line st
                   | _ => st
                   end
               | RestElement =>
                   match nodeTy <$> nodeField prop Kargument with
                   | Some (Identifier name) => declare name line st
                   | _ => st
                   end
               | _ => st
               end) st (nodeFields id Kproperties)
      | ArrayPattern =>
          foldl
            (λ st el,
               match nodeTy el with
               | Identifier name => declare name line st
               | _ => st
               end) st (nodeFields id Kelements)
      | _ => st
      end
  end.

Definition onFunctionDeclaration (n : node) (st : WalkState) : WalkState :=
  match nodeTy <$> nodeField n Kid with
  | Some (Identifier name) => declare name (nodeLine n) st
  | _ => st
  end.

Definition threeJSMembers : list jsstring :=
  [js "clone"; js "attributes"; js "dispose"; js "copy";
   js "computeBoundingSphere"; js "computeVertexNormals"].

Definition onMemberExpression (n : node) (st : WalkState) : WalkState :=
  match nodeTy <$> nodeField n Kobject, nodeTy <$> nodeField n Kproperty with
  | Some (Identifier objName), Some (Identifier propName) =>
      if setHas (reactElementVars st) objName && setHas threeJSMembers propName then
        pushWarning
          (js "Line " ++ natToString (nodeLine n) ++ js ": Variable '" ++ objName
             ++ js "' is a React element (created with React.createElement) "
             ++ js "but is being used as a THREE.js object (." ++ propName
             ++ js "). "
             ++ js "React elements should be used in JSX, not as THREE.js objects.")
          st
      else st
  | _, _ => st
  end.

(** The positions in which an identifier is no read: a declared name, a
    property key, a member name, an import or export specifier, a label. *)
Definition notAUsage (parent : option node) (key : fieldKey) : bool :=
  match parent with
  | None => false
  | Some p =>
      match nodeTy p with
      | VariableDeclarator | FunctionDeclaration | FunctionExpression
      | ClassDeclaration => bool_decide (key = Kid)
      | ObjectProperty computed | ObjectMethod computed | ClassMethod computed
      | ClassProperty computed => bool_decide (key = Kkey) && negb computed
      | MemberExpression computed | OptionalMemberExpression computed =>
          bool_decide (key = Kproperty) && negb computed
      | ImportSpecifier | ExportSpecifier => true
      | LabeledStatement => bool_decide (key = Klabel)
      | _ => false
      end
  end.

Definition onIdentifier (parent : option node) (key : fieldKey) (n : node)
    (st : WalkState) : WalkState :=
  match nodeTy n with
  | Identifier name =>
      if notAUsage parent key then st else recordUsage name (nodeLine n) st
  | _ => st
  end.

(** A block opens a scope unless it is the body of a function, which has
    opened one already; the block of a catch clause brings the catch
    parameter with it. *)
Definition blockNeedsScope (parent : option node) : bool :=
  match parent with
  | Some p => negb (isFunction (nodeTy p)) || isCatchClause (nodeTy p)
  | None => true
  end.

Definition catchParamNames (parent : option node) : list jsstring :=
  match parent with
  | Some p =>
      match nodeTy p, nodeField p Kparam with
      | CatchClause, Some param => extractParamNames param
      | _, _ => []
      end
  | None => []
  end.

(** What happens on entering a node.  On a function declaration the visitor
    for declarations runs before the one that opens the function scope, so the
    name lands in the enclosing scope. *)
Definition enterNode (parent : option node) (key : fieldKey) (n : node)
    (st : WalkState) : WalkState :=
  match nodeTy n with
  | FunctionDeclaration =>
      pushScope (flat_map extractParamNames (nodeFields n Kparams))
        (onFunctionDeclaration n st)
  | FunctionExpression | ArrowFunctionExpression | ObjectMethod _
  | ClassMethod _ | ClassPrivateMethod =>
      pushScope (flat_map extractParamNames (nodeFields n Kparams)) st
  | BlockStatement =>
      if blockNeedsScope parent then pushScope (catchParamNames parent) st else st
  | VariableDeclarator => onVariableDeclarator n st
  | MemberExpression _ => onMemberExpression n st
  | Identifier _ => onIdentifier parent key n st
  | _ => st
  end.

(** What happens on leaving a node. *)
Definition exitNode (parent : option node) (n : node) (st : WalkState) : WalkState :=
  match nodeTy n with
  | FunctionDeclaration | FunctionExpression | ArrowFunctionExpression
  | ObjectMethod _ | ClassMethod _ | ClassPrivateMethod => popScope st
  | BlockStatement => if blockNeedsScope parent then popScope st else st
  | _ => st
  end.

(** The walk: enter, the children in order, leave. *)
Fixpoint traverse (parent : option node) (key : fieldKey) (n : node)
    (st : WalkState) {struct n} : WalkState :=
  match n with
  | Node ty line children =>
      let st := enterNode parent key (Node ty line children) st in
      let st :=
        foldl (λ st kc, let '(k, c) := kc in
                        traverse (Some (Node ty line children)) k c st)
          st children in
      exitNode parent (Node ty line children) st
  end.

Definition walkProgram (ast : node) : WalkState :=
  traverse None Kother ast initialWalk.

(** ** The analysis after the walk *)

Inductive errorType : Type := ErrUndefined | ErrTdz | ErrSyntax.

Record ValidationError : Type := mkError {
  type : errorType;
  variable : jsstring;
  line : nat;
  column : nat;
  message : jsstring;
}.

Record ValidationResult : Type := mkResult {
  valid : bool;
  errors : list ValidationError;
  warnings : option (list jsstring);   (* [None] is [undefined] *)
}.

#[global] Instance errorType_eq_dec : EqDecision errorType.
Proof. solve_decision. Defined.
#[global] Instance ValidationError_eq_dec : EqDecision ValidationError.
Proof. solve_decision. Defined.

(** What the climb through the scope chain finds for a name. *)
Inductive resolution : Type :=
| NotDeclared
| DeclaredAt (declarationLine : nat) (declarationScope : nat)
| IsParam.

(** The [while (searchScope)] loop.  A parent was created before its child,
    so the chain from a scope is no longer than the store. *)
Fixpoint resolveFrom (fuel : nat) (scopes : list ScopeInfo)
    (searchScope : option nat) (varName : jsstring) : resolution :=
  match fuel, searchScope with
  | S fuel', Some i =>
      match scopes !! i with
      | Some sc =>
          match mapGet (declarations sc) varName with
          | Some declarationLine => DeclaredAt declarationLine i
          | None =>
              if setHas (functionParams sc) varName then IsParam
              else resolveFrom fuel' scopes (parentScope sc) varName
          end
      | None => NotDeclared
      end
  | _, _ => NotDeclared
  end.

Definition resolve (scopes : list ScopeInfo) (scope : nat) (varName : jsstring)
    : resolution :=
  resolveFrom (length scopes) scopes (Some scope) varName.

Definition undefinedError (varName : jsstring) (firstUsageLine : nat)
    : ValidationError :=
  mkError ErrUndefined varName firstUsageLine 0
    (js "'" ++ varName ++ js "' is not defined").

Definition tdzWarning (varName : jsstring) (firstEarlyUsage declarationLine : nat)
    : jsstring :=
  js "Line " ++ natToString firstEarlyUsage ++ js ": Possible TDZ - '" ++ varName
    ++ js "' may be used before initialization (declared at line "
    ++ natToString declarationLine ++ js ")".

(** The body of [scope.usages.forEach]: what one used name of one scope adds
    to the errors and to the warnings. *)
Definition checkUsage (scopes : list ScopeInfo) (scope : nat)
    (acc : list ValidationError * list jsstring) (usage : jsstring * list nat)
    : list ValidationError * list jsstring :=
  let '(varName, lines) := usage in
  if isKnownGlobal varName then acc
  else
    match resolve scopes scope varName with
    | NotDeclared =>
        let firstUsageLine := default 0 (head lines) in
        (acc.1 ++ [undefinedError varName firstUsageLine], acc.2)
    | DeclaredAt declarationLine declarationScope =>
        if (0 <? declarationLine) && (declarationScope =? scope) then
          let earlyUsages := List.filter (λ usageLine, usageLine <? declarationLine) lines in
          match earlyUsages with
          | firstEarlyUsage :: _ =>
              (acc.1, acc.2 ++ [tdzWarning varName firstEarlyUsage declarationLine])
          | [] => acc
          end
        else acc
    | IsParam => acc
    end.

Definition checkScope (scopes : list ScopeInfo)
    (acc : list ValidationError * list jsstring) (scope : nat * ScopeInfo)
    : list ValidationError * list jsstring :=
  foldl (checkUsage scopes scope.1) acc (usages scope.2).

(** The loop over [allScopes]. *)
Definition analyzeScopes (scopes : list ScopeInfo) (warnings0 : list jsstring)
    : list ValidationError * list jsstring :=
  foldl (checkScope scopes) ([], warnings0) (imap pair scopes).

Definition finish (errs : list ValidationError) (warns : list jsstring)
    : ValidationResult :=
  mkResult (length errs =? 0) errs (if 0 <? length warns then Some warns else None).

(** ** [validateSimulationCode] *)

(** What [parse] can end with: the tree, or an exception, which is an [Error]
    with a message or something else. *)
Inductive parseOutcome : Type :=
| Parsed (ast : node)
| ThrownError (errMessage : jsstring)
| ThrownOther.

(** What [traverse] can end with.  The walker is a library with a record of
    bindings of its own, and it throws on a tree it does not accept: a name
    declared twice by [let] in one block, for instance, which the parser lets
    through under [errorRecovery].  The call stands inside the [try], so the
    exception reaches the [catch]; the warnings the visitors have pushed by
    then, [pushed] of them, stay in [warnings]. *)
Inductive traverseOutcome : Type :=
| Walked
| WalkThrownError (pushed : nat) (errMessage : jsstring)
| WalkThrownOther (pushed : nat).

Definition digit : re := Chr (λ c, (48 <=? c) && (c <=? 57))%N.

(** A position [(line:column)] in a parser message. *)
Definition reLineColumn : re :=
  seqs [Lit (js "("); Grp 1 (Plus digit); Lit (js ":"); Grp 2 (Plus digit);
        Lit (js ")")].

(** [parseInt(s, 10)] on a run of digits. *)
Definition parseInt (s : jsstring) : nat :=
  foldl (λ acc c, 10 * acc + (N.to_nat c - 48)) 0 s.

Definition syntaxError (errMessage : jsstring) : ValidationError :=
  match exec errMessage reLineColumn 0 with
  | Some (_, _, c) =>
      mkError ErrSyntax [] (parseInt (group errMessage c 1))
        (parseInt (group errMessage c 2)) (js "Syntax error: " ++ errMessage)
  | None => mkError ErrSyntax [] 0 0 (js "Syntax error: " ++ errMessage)
  end.

Definition unknownSyntaxError : ValidationError :=
  mkError ErrSyntax [] 0 0 (js "Unknown syntax error").

Section Validate.
(** The parser and the walker are libraries; what they accept is a parameter
  of the validator. *)
Variable parse : jsstring → parseOutcome.
Variable walkOutcome : node → traverseOutcome.

(** The warnings in place when [traverse] throws. *)
Definition warningsPushed (ast : node) (pushed : nat) : list jsstring :=
take pushed (walkWarnings (walkProgram ast)).

(** The whole function: [parse], [traverse] and the analysis of the scopes
  stand in one [try]; an exception of either library ends in the [catch],
  which pushes the one syntax error, and the [return] after it is shared. *)
Definition validateSimulationCode (code : jsstring) : ValidationResult :=
match parse code with
| Parsed ast =>
    match walkOutcome ast with
    | Walked =>
        let st := walkProgram ast in
        let '(errs, warns) := analyzeScopes (allScopes st) (walkWarnings st) in
        finish errs warns
    | WalkThrownError pushed errMessage =>
        finish [syntaxError errMessage] (warningsPushed ast pushed)
    | WalkThrownOther pushed =>
        finish [unknownSyntaxError] (warningsPushed ast pushed)
    end
| ThrownError errMessage => finish [syntaxError errMessage] []
| ThrownOther => finish [unknownSyntaxError] []
end.
End Validate.

(** ** Notions the properties are stated with *)

(** The scopes in which [X] is read, each with the lines of its reads in the
    order they were recorded. *)
Definition readersOf (scopes : list ScopeInfo) (X : jsstring)
    : list (nat * list nat) :=
  omap (λ isc : nat * ScopeInfo,
          (λ lines, (isc.1, lines)) <$> mapGet (usages isc.2) X)
    (imap pair scopes).

Definition errorsFor (X : jsstring) (errs : list ValidationError)
    : list ValidationError :=
  List.filter (λ e, streq (variable e) X) errs.

(** What one used name of one scope contributes. *)
Definition usageErrors (scopes : list ScopeInfo) (scope : nat)
    (usage : jsstring * list nat) : list ValidationError :=
  (checkUsage scopes scope ([], []) usage).1.
Definition usageWarnings (scopes : list ScopeInfo) (scope : nat)
    (usage : jsstring * list nat) : list jsstring :=
  (checkUsage scopes scope ([], []) usage).2.

Definition scopeErrors (scopes : list ScopeInfo) (isc : nat * ScopeInfo)
    : list ValidationError :=
  flat_map (usageErrors scopes isc.1) (usages isc.2).
Definition scopeWarnings (scopes : list ScopeInfo) (isc : nat * ScopeInfo)
    : list jsstring :=
  flat_map (usageWarnings scopes isc.1) (usages isc.2).

(** In a [Map] every key has one entry. *)
Definition wellFormedScopes (scopes : list ScopeInfo) : Prop :=
  Forall (λ sc, NoDup (usages sc).*1) scopes.

Definition wfWalk (st : WalkState) : Prop := wellFormedScopes (allScopes st).





(** ** Building trees by hand *)

Definition ident (name : string) (line : nat) : node :=
  Node (Identifier (js name)) line [].
Definition exprStmt (line : nat) (e : node) : node :=
  Node OtherNode line [(Kother, e)].
Definition program (body : list node) : node :=
  Node OtherNode 1 [(Kother, Node OtherNode 1 (pair Kbody <$> body))].

End Validator.

(* ===================================================================== *)
(** * The correction budget and patch-based correction                     *)
(* ===================================================================== *)

Module Corrector.
Import JS.

(** ** [ERROR_CORRECTION_BUDGET] *)

Record Budget : Type := mkBudget {
  maxCalls : Z;
  callsUsed : Z;
  perSection : gmap Z Z;      (* sectionId ↦ calls used *)
  maxPerSection : Z;
}.

Definition ERROR_CORRECTION_BUDGET : Budget := mkBudget 5 0 ∅ 1.

Definition initErrorCorrectionBudget (sectionCount : Z) (b : Budget) : Budget :=
  mkBudget sectionCount 0 ∅ (maxPerSection b).

(** A call either returns or throws an [Error] with a message; the state it
    leaves behind is kept in both cases. *)
Inductive outcome (A : Type) : Type :=
| Returned (a : A)
| Thrown (msg : jsstring).
Arguments Returned {A} a.
Arguments Thrown {A} msg.

Definition sectionLimitMessage (sectionId prev max : Z) : jsstring :=
  js "[BUDGET] Section " ++ zToString sectionId ++ js ": already used "
    ++ zToString prev ++ js "/" ++ zToString max
    ++ js " error-correction call(s). Giving up on this section.".

Definition sessionLimitMessage (used max : Z) : jsstring :=
  js "[BUDGET] Session limit reached (" ++ zToString used ++ js "/"
    ++ zToString max ++ js "). No more retries this session.".

(** The session counter goes up and is checked against the session limit. *)
Definition consumeSession (b : Budget) : outcome () * Budget :=
  let b := mkBudget (maxCalls b) (callsUsed b + 1) (perSection b) (maxPerSection b) in
  if (maxCalls b <? callsUsed b)%Z then
    (Thrown (sessionLimitMessage (callsUsed b) (maxCalls b)), b)
  else (Returned (), b).

Definition consumeErrorCorrectionBudget (sectionId : option Z) (b : Budget)
    : outcome () * Budget :=
  match sectionId with
  | Some id =>
      let prev := default 0%Z (perSection b !! id) in
      if (maxPerSection b <=? prev)%Z then
        (Thrown (sectionLimitMessage id prev (maxPerSection b)), b)
      else
        consumeSession
          (mkBudget (maxCalls b) (callsUsed b) (<[id := (prev + 1)%Z]> (perSection b))
             (maxPerSection b))
  | None => consumeSession b
  end.

(** ** [applySimulationEdits] *)

Record SimulationEdit : Type := mkEdit {
  old_code : jsstring;
  new_code : jsstring;
}.

Record ApplyResult : Type := mkApply {
  newCode : jsstring;
  failedEdits : list SimulationEdit;
}.

(** The body of the [for] loop. *)
Definition applyEdit (acc : ApplyResult) (edit : SimulationEdit) : ApplyResult :=
  if negb (includes (newCode acc) (old_code edit)) then
    mkApply (newCode acc) (failedEdits acc ++ [edit])
  else
    mkApply (replaceAll (newCode acc) (old_code edit) (new_code edit))
      (failedEdits acc).

Definition applySimulationEdits (code : jsstring) (edits : list SimulationEdit)
    : ApplyResult :=
  foldl applyEdit (mkApply code []) edits.

(** The code as the edits before the [i]-th have rewritten it. *)
Definition codeBefore (code : jsstring) (edits : list SimulationEdit) (i : nat)
    : jsstring :=
  newCode (applySimulationEdits code (take i edits)).

(** The edits whose search text is absent from the code when their turn
    comes, in order. *)
Definition absentWhenReached (code : jsstring) (edits : list SimulationEdit)
    (ie : nat * SimulationEdit) : bool :=
  negb (includes (codeBefore code edits ie.1) (old_code ie.2)).

Definition editsAbsentWhenReached (code : jsstring) (edits : list SimulationEdit)
    : list SimulationEdit :=
  snd <$> List.filter (absentWhenReached code edits) (imap pair edits).

(** ** [fixSimulationCodeWithPatch] *)

Definition truncForEdit (s : jsstring) (maxLen : nat) : jsstring :=
  if maxLen <? length s then take maxLen s ++ js "..." else s.

Definition buildFailedEditsRetryPrompt (currentCode : jsstring)
    (failed : list SimulationEdit) (contextLine : jsstring) : jsstring :=
  let failedList :=
    join [chNewline]
      (imap (λ i e, js "[" ++ natToString (i + 1) ++ js "] old_code: " ++ [chDQuote]
                      ++ truncForEdit (old_code e) 80 ++ [chDQuote]) failed) in
  js "These edits failed because old_code was not found in the code:" ++ [chNewline]
    ++ failedList ++ [chNewline; chNewline]
    ++ js "Here is the current code again. Provide corrected edits with old_code that exactly matches substrings in this code:"
    ++ [chNewline] ++ js "```javascript" ++ [chNewline]
    ++ currentCode ++ [chNewline] ++ js "```" ++ [chNewline; chNewline]
    ++ contextLine.

(** One request to the generating collaborator. *)
Record Request : Type := mkRequest {
  messages : list (jsstring * jsstring);     (* role, content *)
  schemaName : jsstring;
}.

Section Fix.
(** Control parameters are passed through untouched. *)
Context {ControlParam : Type}.

Record SimulationEditResult : Type := mkEditResult {
explanation : jsstring;
edits : option (list SimulationEdit);    (* [None]: not an array *)
params : option (list ControlParam);     (* [None]: not an array *)
}.

Record FixedConfig : Type := mkConfig {
prompt : jsstring;
code : jsstring;
configParams : list ControlParam;
configExplanation : jsstring;
}.

(** The parser and the walker behind the validator. *)
Variable parse : jsstring → Validator.parseOutcome.
Variable walkOutcome : Validator.node → Validator.traverseOutcome.
(** The wording of the prompts. *)
Variable systemPrompt : jsstring.
Variable userPrompt :
jsstring → list ControlParam → jsstring → option jsstring
→ option (list jsstring) → jsstring.
(** The generating collaborator: what it answers to a request, given the
  requests made before; it may also fail. *)
Variable callLLM : list Request → Request → outcome SimulationEditResult.

(** The budget and the log of requests issued so far. *)
Record World : Type := mkWorld {
budget : Budget;
requests : list Request;
}.

Definition issue (r : Request) (w : World)
  : outcome SimulationEditResult * World :=
(callLLM (requests w) r, mkWorld (budget w) (requests w ++ [r])).

Definition retryFailureMessage (failed : list SimulationEdit) : jsstring :=
js "Could not apply error fixes. These old_code strings were not found: "
  ++ join (js ", ") ((λ e, jsonStringify (old_code e)) <$> failed).

Definition validationFailureMessage (errs : list Validator.ValidationError)
  (errorMessage : jsstring) : jsstring :=
js "Error correction failed validation: "
  ++ join (js "; ")
       ((λ e, js "Line " ++ natToString (Validator.line e) ++ js ": "
                ++ Validator.message e) <$> errs)
  ++ js ". " ++ js "Original error: " ++ errorMessage.

(** From the sanitiser on: the patched code is cleaned, validated, and
  returned only when the validator has no error. *)
Definition finishFix (currentParams : list ControlParam)
  (errorMessage newCode : jsstring) (result : SimulationEditResult)
  : outcome FixedConfig :=
let cleanCode := Sanitizer.sanitizeSimulationCode newCode in
let safeParams := default currentParams (params result) in
let validation := Validator.validateSimulationCode parse walkOutcome cleanCode in
if negb (Validator.valid validation) then
  Thrown (validationFailureMessage (Validator.errors validation) errorMessage)
else
  Returned (mkConfig (js "Error fix: " ++ errorMessage) cleanCode safeParams
              (explanation result)).

(** The two requests of one correction: the first, and the retry that
  echoes the edits that did not apply. *)
Definition fixMessages (currentCode : jsstring)
  (currentParams : list ControlParam) (errorMessage : jsstring)
  (errorStack : option jsstring) (validationWarnings : option (list jsstring))
  : list (jsstring * jsstring) :=
[(js "system", systemPrompt);
 (js "user", userPrompt currentCode currentParams errorMessage errorStack
               validationWarnings)].

Definition firstRequest (currentCode : jsstring)
  (currentParams : list ControlParam) (errorMessage : jsstring)
  (errorStack : option jsstring) (validationWarnings : option (list jsstring))
  : Request :=
mkRequest
  (fixMessages currentCode currentParams errorMessage errorStack
     validationWarnings)
  (js "simulation_error_fix_schema").

Definition retryRequest (currentCode : jsstring)
  (currentParams : list ControlParam) (errorMessage : jsstring)
  (errorStack : option jsstring) (validationWarnings : option (list jsstring))
  (failed : list SimulationEdit) : Request :=
mkRequest
  (fixMessages currentCode currentParams errorMessage errorStack
     validationWarnings
   ++ [(js "user",
        buildFailedEditsRetryPrompt currentCode failed
          (js "Original error: " ++ errorMessage))])
  (js "simulation_error_fix_retry_schema").

Definition fixSimulationCodeWithPatch (currentCode : jsstring)
  (currentParams : list ControlParam) (errorMessage : jsstring)
  (errorStack : option jsstring) (validationWarnings : option (list jsstring))
  (sectionId : option Z) (w : World) : outcome FixedConfig * World :=
match consumeErrorCorrectionBudget sectionId (budget w) with
| (Thrown msg, b) => (Thrown msg, mkWorld b (requests w))
| (Returned _, b) =>
    let w := mkWorld b (requests w) in
    match issue (firstRequest currentCode currentParams errorMessage
                   errorStack validationWarnings) w with
    | (Thrown msg, w) => (Thrown msg, w)
    | (Returned result, w) =>
        let applied :=
          applySimulationEdits currentCode (default [] (edits result)) in
        if 0 <? length (failedEdits applied) then
          match issue (retryRequest currentCode currentParams errorMessage
                         errorStack validationWarnings (failedEdits applied))
                  w with
          | (Thrown msg, w) => (Thrown msg, w)
          | (Returned retryResult, w) =>
              let retryApply :=
                applySimulationEdits currentCode
                  (default [] (edits retryResult)) in
              if 0 <? length (failedEdits retryApply) then
                (Thrown (retryFailureMessage (failedEdits retryApply)), w)
              else
                (finishFix currentParams errorMessage (newCode retryApply)
                   retryResult, w)
          end
        else (finishFix currentParams errorMessage (newCode applied) result, w)
    end
end.

(** The edits of a correction applied in full: at once, or on the retry.
  [patched] is the code they give, [result] the answer they came with and
  [w'] the state after the requests. *)
Definition patchApplied (currentCode : jsstring)
  (currentParams : list ControlParam) (errorMessage : jsstring)
  (errorStack : option jsstring) (validationWarnings : option (list jsstring))
  (sectionId : option Z) (w : World)
  (patched : jsstring) (result : SimulationEditResult) (w' : World) : Prop :=
let req1 := firstRequest currentCode currentParams errorMessage errorStack
              validationWarnings in
∃ b' r1,
  consumeErrorCorrectionBudget sectionId (budget w) = (Returned (), b')
  ∧ callLLM (requests w) req1 = Returned r1
  ∧ let applied := applySimulationEdits currentCode (default [] (edits r1)) in
    (failedEdits applied = [] ∧ patched = newCode applied ∧ result = r1
     ∧ w' = mkWorld b' (requests w ++ [req1]))
    ∨ (failedEdits applied ≠ []
       ∧ let req2 := retryRequest currentCode currentParams errorMessage
                       errorStack validationWarnings (failedEdits applied) in
         let retryApply :=
           applySimulationEdits currentCode (default [] (edits result)) in
         callLLM (requests w ++ [req1]) req2 = Returned result
         ∧ failedEdits retryApply = [] ∧ patched = newCode retryApply
         ∧ w' = mkWorld b' (requests w ++ [req1; req2])).
End Fix.

End Corrector.

(* ===================================================================== *)
(** * ThreeSandbox: guarded event handlers                                *)
(* ===================================================================== *)

Module ThreeSandbox.
Import JS Regex.

(** A property name that starts with [on] and an upper-case letter. *)
Definition reHandlerKey : re :=
  seqs [Bol; Lit (js "on"); Chr (λ c, (65 <=? c) && (c <=? 90))%N].

Definition isHandlerKey (k : jsstring) : bool := test k reHandlerKey.

(** An [Error] object, as far as the wrapper looks at it. *)
Record ErrorObj : Type := mkErrorObj { errMessage : jsstring }.

(** What a handler can throw: an [Error], or any other value, of which the
    wrapper takes the string form. *)
Inductive thrown : Type :=
| ThrownErrorObj (e : ErrorObj)
| ThrownValue (asString : jsstring).

(** [err instanceof Error ? err : new Error(String(err))] *)
Definition toError (t : thrown) : ErrorObj :=
  match t with
  | ThrownErrorObj e => e
  | ThrownValue x => mkErrorObj x
  end.

(** The module-level [simErrorHandlerRef], together with the reports that
    have reached an error handler; a handler is named by a number. *)
Record RefState : Type := mkRef {
  current : option nat;
  fired : bool;
  reported : list (nat * ErrorObj);
}.

Section Wrap.
Context {Value Args : Type}.

Inductive callResult : Type :=
| Returns (v : option Value)         (* [None] is [undefined] *)
| Throws (t : thrown).

(** A function value: it is called with arguments in a state of the
  reference and leaves a state behind. *)
Definition jsFunction : Type := Args → RefState → callResult * RefState.

(** A handler of the generated code cannot reach the reference. *)
Definition userFunction (g : Args → callResult) : jsFunction :=
λ args st, (g args, st).

Inductive propValue : Type :=
| Callable (f : jsFunction)
| Plain (v : Value).

Definition isCallable (p : option propValue) : bool :=
match p with Some (Callable _) => true | _ => false end.

(** The function that takes the place of the handler [original] under
  [key]: an exception of [original] is caught, and handed to the error
  handler when none has been handed over since [fired] was last cleared. *)
Definition guarded (key : jsstring) (original : jsFunction) : jsFunction :=
λ args st,
  match original args st with
  | (Returns v, st') => (Returns v, st')
  | (Throws err, st') =>
      match fired st', current st' with
      | false, Some handler =>
          (Returns None,
           mkRef (current st') true (reported st' ++ [(handler, toError err)]))
      | _, _ => (Returns None, st')
      end
  end.

(** A property value with the guard around it, when it is a function. *)
Definition guardedValue (p : option propValue) (k : jsstring) : option propValue :=
match p with
| Some (Callable f) => Some (Callable (guarded k f))
| _ => p
end.

Definition guardKey (fixedProps : list (jsstring * propValue)) (key : jsstring)
  : list (jsstring * propValue) :=
match mapGet fixedProps key with
| Some (Callable original) => mapSet fixedProps key (Callable (guarded key original))
| _ => fixedProps
end.

(** The handler step of [safeCreateElement]: nothing is wrapped when there
  are no properties or no error handler is registered. *)
Definition wrapHandlers (st : RefState)
  (fixedProps : option (list (jsstring * propValue)))
  : option (list (jsstring * propValue)) :=
match fixedProps, current st with
| Some props, Some _ =>
    let handlerKeys :=
      List.filter (λ k, isHandlerKey k && isCallable (mapGet props k)) props.*1 in
    if 0 <? length handlerKeys then Some (foldl guardKey props handlerKeys)
    else Some props
| _, _ => fixedProps
end.

(** A run of calls of guarded handlers of the generated code, one after the
  other. *)
Definition runGuarded (calls : list (jsstring * (Args → callResult) * Args))
  (st : RefState) : RefState :=
foldl (λ st call, let '(key, g, args) := call in
                  (guarded key (userFunction g) args st).2) st calls.

(** The first exception in a run of calls, if any call throws. *)
Fixpoint firstThrown (calls : list (jsstring * (Args → callResult) * Args))
  : option thrown :=
match calls with
| [] => None
| (_, g, args) :: rest =>
    match g args with
    | Throws t => Some t
    | Returns _ => firstThrown rest
    end
end.

(** What the component does with the reference at the start of a render. *)
Definition beginRender (onUseFrameError : nat) (useFrameErrorRef : bool)
  (st : RefState) : RefState :=
mkRef (Some onUseFrameError) useFrameErrorRef (reported st).
End Wrap.

End ThreeSandbox.

(* ===================================================================== *)
(** * Example programs and collaborators                                   *)
(* ===================================================================== *)

Module Examples.
Import JS Sanitizer Validator Corrector ThreeSandbox.

(** ** Texts for the sanitizer *)

Definition bareHookInput : jsstring :=
  js "if (x) { const g = useMemo(() => 1, []); }".
Definition qualifiedHookInput : jsstring :=
  js "if (x) { const g = React.useMemo(() => 1, []); }".
Definition qualifiedHookOutput : jsstring :=
  js "const g = React.useMemo(() => 1, []);" ++ [chNewline; chNewline]
    ++ js "if (x) { }".

Definition exportedShadow : jsstring := js "export const THREE = 1;".
Definition exportedConst : jsstring := js "export const x = 1;".

(** ** Programs for the validator, with the trees the parser gives *)

Definition callStmt (line : nat) (obj prop arg : string) : node :=
  exprStmt line
    (Node CallExpression line
       [(Kcallee, Node (MemberExpression false) line
                    [(Kobject, ident obj line); (Kproperty, ident prop line)]);
        (Karguments, ident arg line)]).

Definition constDecl (line : nat) (name : string) : node :=
  Node OtherNode line
    [(Kother, Node VariableDeclarator line
                [(Kid, ident name line); (Kinit, Node OtherNode line [])])].

(** [foo;] on line 1, [function f() {] on line 2, [foo;] on line 3. *)
Definition readInTwoScopesCode : jsstring :=
  js "foo;" ++ [chNewline] ++ js "function f() {" ++ [chNewline] ++ js "  foo;"
    ++ [chNewline] ++ js "}".
Definition readInTwoScopes : node :=
  program
    [exprStmt 1 (ident "foo" 1);
     Node FunctionDeclaration 2
       [(Kid, ident "f" 2);
        (Kbody, Node BlockStatement 2 [(Kbody, exprStmt 3 (ident "foo" 3))])]].

(** [console.log(size);] on line 1, [const size = 5;] on line 2. *)
Definition earlyGlobalCode : jsstring :=
  js "console.log(size);" ++ [chNewline] ++ js "const size = 5;".
Definition earlyGlobal : node :=
  program [callStmt 1 "console" "log" "size"; constDecl 2 "size"].

(** [console.log(total);] on line 1, [const total = 5;] on line 2. *)
Definition earlyReadCode : jsstring :=
  js "console.log(total);" ++ [chNewline] ++ js "const total = 5;".
Definition earlyRead : node :=
  program [callStmt 1 "console" "log" "total"; constDecl 2 "total"].

(** [return params;] *)
Definition returnParamsCode : jsstring := js "return params;".
Definition returnParams : node :=
  program [Node OtherNode 1 [(Kargument, ident "params" 1)]].

(** The parser on the example programs. *)
Definition parseExamples (code : jsstring) : parseOutcome :=
  if streq code readInTwoScopesCode then Parsed readInTwoScopes
  else if streq code earlyGlobalCode then Parsed earlyGlobal
  else if streq code earlyReadCode then Parsed earlyRead
  else if streq code returnParamsCode then Parsed returnParams
  else ThrownError (js "Unexpected token (1:0)").

(** The example programs declare no name twice: the walker comes to the
    end of each. *)
Definition walkExamples (ast : node) : traverseOutcome := Walked.

(** [let a = 1;] on line 1, [let a = 2;] on line 2, [foo;] on line 3: the
    parser returns the tree, and the walker throws at the second [a] before
    any visitor has pushed a warning. *)
Definition duplicateLetCode : jsstring :=
  js "let a = 1;" ++ [chNewline] ++ js "let a = 2;" ++ [chNewline] ++ js "foo;".
Definition duplicateLet : node :=
  program [constDecl 1 "a"; constDecl 2 "a"; exprStmt 3 (ident "foo" 3)].
Definition duplicateDeclaration : jsstring :=
  js "Duplicate declaration " ++ [chDQuote] ++ js "a" ++ [chDQuote].
Definition parseDuplicateLet (code : jsstring) : parseOutcome :=
  if streq code duplicateLetCode then Parsed duplicateLet
  else ThrownError (js "Unexpected token (1:0)").
Definition walkDuplicateLet (ast : node) : traverseOutcome :=
  WalkThrownError 0 duplicateDeclaration.

(** ** A correction session *)

Definition brokenCode : jsstring := js "return parms;".

Definition examplePrompt (currentCode : jsstring) (_ : list nat)
    (errorMessage : jsstring) (_ : option jsstring) (_ : option (list jsstring))
    : jsstring :=
  currentCode ++ [chNewline] ++ errorMessage.

(** A collaborator whose edit applies. *)
Definition helpfulLLM (_ : list Request) (_ : Request)
    : outcome (@SimulationEditResult nat) :=
  Returned (mkEditResult (js "fixed the name")
              (Some [mkEdit (js "parms") (js "params")]) None).

(** A collaborator whose edits never apply. *)
Definition haplessLLM (history : list Request) (_ : Request)
    : outcome (@SimulationEditResult nat) :=
  match history with
  | [] => Returned (mkEditResult (js "first try")
                      (Some [mkEdit (js "param") (js "params")]) None)
  | _ => Returned (mkEditResult (js "second try")
                     (Some [mkEdit (js "prams") (js "params");
                            mkEdit (js "return;") (js "return params;")]) None)
  end.

Definition freshWorld : World :=
  mkWorld (initErrorCorrectionBudget 3 ERROR_CORRECTION_BUDGET) [].

Definition exampleFix (llm : list Request → Request → outcome SimulationEditResult)
    (sectionId : option Z) (w : World) : outcome FixedConfig * World :=
  fixSimulationCodeWithPatch parseExamples walkExamples (js "You are a code editor.")
    examplePrompt llm brokenCode [] (js "parms is not defined") None None
    sectionId w.

(** The state after a first correction for section 7. *)
Definition worldAfterFirstFix : World := (exampleFix helpfulLLM (Some 7%Z) freshWorld).2.


(** ** Event handlers *)

Definition throwing (msg : string) : unit → @callResult nat :=
  λ _, Throws (ThrownErrorObj (mkErrorObj (js msg))).

Definition exampleProps : list (jsstring * @propValue nat unit) :=
  [(js "onClick", Callable (userFunction (throwing "click failed")));
   (js "position", Plain 3);
   (js "onPointerMove", Callable (userFunction (throwing "move failed")))].

Definition exampleCalls : list (jsstring * (unit → @callResult nat) * unit) :=
  [(js "onClick", throwing "click failed", ());
   (js "onPointerMove", throwing "move failed", ())].

Definition listening : RefState := mkRef (Some 1) false [].

End Examples.

(* ===================================================================== *)
(** * The budget over a session *)
(* ===================================================================== *)

Module BudgetRuns.
Import JS Corrector.

Definition granted {A : Type} (o : outcome A) : bool :=
  match o with Returned _ => true | Thrown _ => false end.

(** Requests for the budget made one after the other, each for a section or
    for none: the outcomes in order and the budget left. *)
Fixpoint consumeAll (ids : list (option Z)) (b : Budget)
    : list (outcome ()) * Budget :=
  match ids with
  | [] => ([], b)
  | id :: ids' =>
      let '(o, b') := consumeErrorCorrectionBudget id b in
      let '(os, b'') := consumeAll ids' b' in
      (o :: os, b'')
  end.

(** How many of the requests made for section [id] were granted. *)
Definition grantsFor (id : Z) (ids : list (option Z)) (os : list (outcome ()))
    : nat :=
  length (List.filter (λ io : option Z * outcome (),
                         bool_decide (io.1 = Some id) && granted io.2)
            (zip ids os)).

Section Fixes.
Context {ControlParam : Type}.
Variable parse : jsstring → Validator.parseOutcome.
Variable walkOutcome : Validator.node → Validator.traverseOutcome.
Variable systemPrompt : jsstring.
Variable userPrompt :
jsstring → list ControlParam → jsstring → option jsstring
→ option (list jsstring) → jsstring.
Variable callLLM :
list Request → Request → outcome (@SimulationEditResult ControlParam).

(** The arguments of one call of [fixSimulationCodeWithPatch]. *)
Record FixCall : Type := mkFixCall {
fixCode : jsstring;
fixParams : list ControlParam;
fixError : jsstring;
fixStack : option jsstring;
fixWarnings : option (list jsstring);
fixSection : option Z;
}.

Definition runFix (c : FixCall) (w : World)
  : outcome (@FixedConfig ControlParam) * World :=
fixSimulationCodeWithPatch parse walkOutcome systemPrompt userPrompt callLLM (fixCode c)
  (fixParams c) (fixError c) (fixStack c) (fixWarnings c) (fixSection c) w.

(** Corrections attempted one after the other in one session. *)
Definition runFixes (calls : list FixCall) (w : World) : World :=
foldl (λ w c, (runFix c w).2) w calls.
End Fixes.

End BudgetRuns.

(* ===================================================================== *)
(** * Editing a simulation *)
(* ===================================================================== *)

Module Editor.
Import JS Corrector.

(** ** [buildSimEditHistoryContext] *)

Record SimEditHistoryItem : Type := mkHistoryItem {
  userRequest : jsstring;
  historyExplanation : jsstring;
  success : bool;
  pending : option bool;         (* [None] is [undefined] *)
}.

(** [!item.pending && item.success] *)
Definition usableItem (item : SimEditHistoryItem) : bool :=
  negb (default false (pending item)) && success item.

(** [l.slice(-n)]: the last [n] elements. *)
Definition lastN {A : Type} (n : nat) (l : list A) : list A :=
  drop (length l - n) l.

Definition historyEntry (index : nat) (item : SimEditHistoryItem) : jsstring :=
  js "Previous Edit " ++ natToString (index + 1) ++ js ":" ++ [chNewline]
    ++ js "User: " ++ truncForEdit (userRequest item) 300 ++ [chNewline]
    ++ js "Assistant: " ++ truncForEdit (historyExplanation item) 600.

Definition buildSimEditHistoryContext
    (editHistory : option (list SimEditHistoryItem)) : jsstring :=
  match editHistory with
  | None => []
  | Some history =>
      if length history =? 0 then []
      else
        let previousEdits :=
          join [chNewline; chNewline]
            (imap historyEntry (lastN 10 (List.filter usableItem history))) in
        if length previousEdits =? 0 then []
        else
          [chNewline; chNewline] ++ js "PREVIOUS EDIT HISTORY (for context):"
            ++ [chNewline] ++ previousEdits ++ [chNewline; chNewline] ++ js "---"
  end.

(** ** [editSimulationCode] *)

Section Edit.
Context {ControlParam : Type}.
(** The wording of the prompts; the user prompt is built from the code, the
  controls, the history context and the request. *)
Variable systemPrompt : jsstring.
Variable userPrompt :
jsstring → list ControlParam → jsstring → jsstring → jsstring.
Variable callLLM :
list Request → Request → outcome (@SimulationEditResult ControlParam).

Definition editMessages (currentCode : jsstring)
  (currentParams : list ControlParam) (request : jsstring)
  (editHistory : option (list SimEditHistoryItem))
  : list (jsstring * jsstring) :=
[(js "system", systemPrompt);
 (js "user", userPrompt currentCode currentParams
               (buildSimEditHistoryContext editHistory) request)].

Definition firstEditRequest (currentCode : jsstring)
  (currentParams : list ControlParam) (request : jsstring)
  (editHistory : option (list SimEditHistoryItem)) : Request :=
mkRequest (editMessages currentCode currentParams request editHistory)
  (js "simulation_edit_schema").

Definition retryEditRequest (currentCode : jsstring)
  (currentParams : list ControlParam) (request : jsstring)
  (editHistory : option (list SimEditHistoryItem))
  (failed : list SimulationEdit) : Request :=
mkRequest
  (editMessages currentCode currentParams request editHistory
   ++ [(js "user",
        buildFailedEditsRetryPrompt currentCode failed
          (js "Original user request: " ++ request))])
  (js "simulation_edit_retry_schema").

Definition editFailureMessage (failed : list SimulationEdit) : jsstring :=
js "Could not apply edits. These old_code strings were not found: "
  ++ join (js ", ") ((λ e, jsonStringify (old_code e)) <$> failed).

(** From the sanitiser on: the patched code is cleaned and returned. *)
Definition finishEdit (currentParams : list ControlParam)
  (request newCode : jsstring) (result : SimulationEditResult)
  : @FixedConfig ControlParam :=
mkConfig (js "User edit: " ++ request) (Sanitizer.sanitizeSimulationCode newCode)
  (default currentParams (params result)) (explanation result).

Definition editSimulationCode (currentCode : jsstring)
  (currentParams : list ControlParam) (request : jsstring)
  (editHistory : option (list SimEditHistoryItem)) (w : World)
  : outcome (@FixedConfig ControlParam) * World :=
match issue callLLM
        (firstEditRequest currentCode currentParams request editHistory) w with
| (Thrown msg, w) => (Thrown msg, w)
| (Returned result, w) =>
    let applied :=
      applySimulationEdits currentCode (default [] (edits result)) in
    if 0 <? length (failedEdits applied) then
      match issue callLLM
              (retryEditRequest currentCode currentParams request editHistory
                 (failedEdits applied)) w with
      | (Thrown msg, w) => (Thrown msg, w)
      | (Returned retryResult, w) =>
          let retryApply :=
            applySimulationEdits currentCode (default [] (edits retryResult)) in
          if 0 <? length (failedEdits retryApply) then
            (Thrown (editFailureMessage (failedEdits retryApply)), w)
          else
            (Returned (finishEdit currentParams request (newCode retryApply)
                         retryResult), w)
      end
    else
      (Returned (finishEdit currentParams request (newCode applied) result), w)
end.
End Edit.

End Editor.

(* ===================================================================== *)
(** * The response schema sent to the model *)
(* ===================================================================== *)

Module GeminiSchema.
Import JS.

Section Values.
(** What [typeof] does not call an object: a string, a number, a boolean,
  [undefined], a function. *)
Context {Primitive : Type}.

(** A value as the schema sanitizer sees it.  The entries of an object are
  its own enumerable properties in the order [Object.entries] lists them. *)
#[local] Unset Elimination Schemes.
Inductive jsValue : Type :=
| JNull
| JPrimitive (p : Primitive)
| JArray (items : list jsValue)
| JObject (entries : list (jsstring * jsValue)).
#[local] Set Elimination Schemes.

Definition unsupportedKeys : list jsstring :=
[js "additionalProperties"; js "$schema"; js "$id"; js "definitions";
 js "$defs"].

Definition isUnsupported (key : jsstring) : bool :=
bool_decide (key ∈ unsupportedKeys).

(** [sanitized[key] = value] on an object that started as [{}]: the entry is
  set, at its place when the key is there already; assigning to [__proto__]
  reaches the accessor of [Object.prototype] and adds no property. *)
Definition setProperty (sanitized : list (jsstring * jsValue)) (key : jsstring)
  (value : jsValue) : list (jsstring * jsValue) :=
if streq key (js "__proto__") then sanitized else mapSet sanitized key value.

(** One round of the loop over the entries; [sanitize] is the function
  itself, for the value of the entry. *)
Definition sanitizeEntry (sanitize : jsValue → jsValue)
  (sanitized : list (jsstring * jsValue)) (entry : jsstring * jsValue)
  : list (jsstring * jsValue) :=
let '(key, value) := entry in
if isUnsupported key then sanitized
else setProperty sanitized key (sanitize value).

Fixpoint sanitizeSchemaForGemini (schema : jsValue) : jsValue :=
match schema with
| JNull => JNull
| JPrimitive p => JPrimitive p
| JArray items => JArray (map sanitizeSchemaForGemini items)
| JObject entries =>
    JObject (foldl (sanitizeEntry sanitizeSchemaForGemini) [] entries)
end.

(** The property names of a value, at every depth. *)
Fixpoint allKeys (v : jsValue) : list jsstring :=
match v with
| JNull | JPrimitive _ => []
| JArray items => flat_map allKeys items
| JObject entries =>
    flat_map (λ kv, let '(key, value) := kv in key :: allKeys value) entries
end.

Definition entriesOf (v : jsValue) : list (jsstring * jsValue) :=
match v with JObject entries => entries | _ => [] end.
End Values.

Arguments jsValue : clear implicits.

End GeminiSchema.

(* ===================================================================== *)
(** * Superscripts and subscripts in slide markup *)
(* ===================================================================== *)

Module HtmlUtils.
Import JS Regex.

Definition SUPERSCRIPT_MAP : list (N * jsstring) :=
  [ (0x2070, js "0"); (0x00B9, js "1"); (0x00B2, js "2"); (0x00B3, js "3");
    (0x2074, js "4"); (0x2075, js "5"); (0x2076, js "6"); (0x2077, js "7");
    (0x2078, js "8"); (0x2079, js "9"); (0x207A, js "+"); (0x207B, js "-");
    (0x207C, js "="); (0x207D, js "("); (0x207E, js ")"); (0x207F, js "n") ]%N.

Definition SUBSCRIPT_MAP : list (N * jsstring) :=
  [ (0x2080, js "0"); (0x2081, js "1"); (0x2082, js "2"); (0x2083, js "3");
    (0x2084, js "4"); (0x2085, js "5"); (0x2086, js "6"); (0x2087, js "7");
    (0x2088, js "8"); (0x2089, js "9"); (0x208A, js "+"); (0x208B, js "-");
    (0x208C, js "="); (0x208D, js "("); (0x208E, js ")") ]%N.

(** A character of the class built from the keys of a table. *)
Definition inTable (table : list (N * jsstring)) (ch : N) : bool :=
  bool_decide (is_Some (Sanitizer.lookupUnicode table ch)).

(** One or more consecutive characters of the table. *)
Definition SUPERSCRIPT_RE : re := Plus (Chr (inTable SUPERSCRIPT_MAP)).
Definition SUBSCRIPT_RE : re := Plus (Chr (inTable SUBSCRIPT_MAP)).

(** [[...match].map(ch => TABLE[ch] || ch).join('')]: the characters of the
    tables lie outside the surrogate range, so the match is walked one code
    unit at a time. *)
Definition toAscii (table : list (N * jsstring)) (matched : jsstring) : jsstring :=
  flat_map (λ ch, match Sanitizer.lookupUnicode table ch with
                  | Some v => if 0 <? length v then v else [ch]
                  | None => [ch]
                  end) matched.

Definition sanitizeUnicodeMath (html : jsstring) : jsstring :=
  let result :=
    replaceGlobal html SUPERSCRIPT_RE
      (λ matched _, js "<sup>" ++ toAscii SUPERSCRIPT_MAP matched ++ js "</sup>") in
  replaceGlobal result SUBSCRIPT_RE
    (λ matched _, js "<sub>" ++ toAscii SUBSCRIPT_MAP matched ++ js "</sub>").

Definition isScript (ch : N) : bool :=
  inTable SUPERSCRIPT_MAP ch || inTable SUBSCRIPT_MAP ch.

End HtmlUtils.

(* ===================================================================== *)
(** * Runs of characters *)
(* ===================================================================== *)

Module RegexRuns.
Import JS.

(** The length of the longest run of characters of a class at the start of
    a text. *)
Fixpoint spanLen (p : N → bool) (l : jsstring) : nat :=
  match l with
  | x :: l' => if p x then S (spanLen p l') else 0
  | [] => 0
  end.

End RegexRuns.

(* ===================================================================== *)
(** * Scopes and visibility *)
(* ===================================================================== *)

Module ScopeNotions.
Import JS Validator.

(** The scope binds the name: by a declaration or as a parameter. *)
Definition bindsName (sc : ScopeInfo) (X : jsstring) : bool :=
  mapHas (declarations sc) X || setHas (functionParams sc) X.

(** [inChain scopes i j]: scope [j] is scope [i] or one of the scopes above
    it, going from parent to parent. *)
Inductive inChain (scopes : list ScopeInfo) : nat → nat → Prop :=
| chain_here (i : nat) (sc : ScopeInfo) :
    scopes !! i = Some sc → inChain scopes i i
| chain_up (i p j : nat) (sc : ScopeInfo) :
    scopes !! i = Some sc → parentScope sc = Some p → inChain scopes p j →
    inChain scopes i j.

(** Some scope of the chain from [i] binds the name. *)
Definition visibleFrom (scopes : list ScopeInfo) (i : nat) (X : jsstring) : Prop :=
  ∃ j sc, inChain scopes i j ∧ scopes !! j = Some sc ∧ bindsName sc X = true.

(** The root scope has no parent; every other scope was created after its
    parent. *)
Definition parentsFirst (scopes : list ScopeInfo) : Prop :=
  ∀ i sc, scopes !! i = Some sc →
          match parentScope sc with
          | None => i = 0
          | Some p => p < i
          end.

Definition unresolved (r : resolution) : bool :=
  match r with NotDeclared => true | _ => false end.

(** Does entering the node open a scope? *)
Definition opensScope (parent : option node) (n : node) : bool :=
  match nodeTy n with
  | FunctionDeclaration | FunctionExpression | ArrowFunctionExpression
  | ObjectMethod _ | ClassMethod _ | ClassPrivateMethod => true
  | BlockStatement => blockNeedsScope parent
  | _ => false
  end.

(** The state of a walk in progress: the stack is not empty and holds
    indices of scopes, and parents come first. *)
Definition chained (st : WalkState) : Prop :=
  scopeStack st ≠ [] ∧ Forall (λ j, j < length (allScopes st)) (scopeStack st)
  ∧ parentsFirst (allScopes st).

(** A step that leaves the scopes in place, with the parents they had. *)
Definition gentle (st st' : WalkState) : Prop :=
  scopeStack st' = scopeStack st
  ∧ length (allScopes st') = length (allScopes st)
  ∧ ∀ i sc', allScopes st' !! i = Some sc' →
             ∃ sc, allScopes st !! i = Some sc ∧ parentScope sc' = parentScope sc.

(** Opening a scope: one more scope, below the current one, on the stack. *)
Definition opened (st st' : WalkState) : Prop :=
  scopeStack st' = length (allScopes st) :: scopeStack st
  ∧ length (allScopes st') = S (length (allScopes st))
  ∧ (chained st → chained st').

(** Across the walk of a node the stack comes back to what it was, no scope
    is removed, and the state stays [chained]. *)
Definition walked (st st' : WalkState) : Prop :=
  scopeStack st' = scopeStack st
  ∧ length (allScopes st) ≤ length (allScopes st')
  ∧ (chained st → chained st').

End ScopeNotions.

(* ===================================================================== *)
(** * The guards of a scene *)
(* ===================================================================== *)

Module SceneGuards.
Import JS ThreeSandbox.

(** ** The auto-fix log: [logAutoFixOnce], [resetAutoFixCounts] *)

(** The map [autoFixCounts] and what has been logged ([console.warn] and
    [devLogger.logAutoFix] are called together, with the type and the
    details). *)
Record AutoFixState : Type := mkAutoFix {
  autoFixCounts : list (jsstring * nat);
  autoFixLogged : list (jsstring * jsstring);
}.

Definition autoFixKey (type details : jsstring) : jsstring :=
  type ++ js "::" ++ details.

Definition logAutoFixOnce (type details : jsstring) (st : AutoFixState)
    : AutoFixState :=
  let key := autoFixKey type details in
  let prev := default 0 (mapGet (autoFixCounts st) key) in
  let counts := mapSet (autoFixCounts st) key (prev + 1) in
  if prev =? 0 then mkAutoFix counts (autoFixLogged st ++ [(type, details)])
  else mkAutoFix counts (autoFixLogged st).

Definition resetAutoFixCounts (st : AutoFixState) : AutoFixState :=
  mkAutoFix [] (autoFixLogged st).

(** Calls of [logAutoFixOnce] one after the other. *)
Definition logAutoFixes (calls : list (jsstring * jsstring)) (st : AutoFixState)
    : AutoFixState :=
  foldl (λ st call, logAutoFixOnce call.1 call.2 st) st calls.

(** The calls that bring a key not seen before, in order. *)
Fixpoint firstByKey (seen : list jsstring) (calls : list (jsstring * jsstring))
    : list (jsstring * jsstring) :=
  match calls with
  | [] => []
  | call :: rest =>
      let key := autoFixKey call.1 call.2 in
      if bool_decide (key ∈ seen) then firstByKey seen rest
      else call :: firstByKey (key :: seen) rest
  end.

Definition callsWithKey (key : jsstring) (calls : list (jsstring * jsstring))
    : nat :=
  length (List.filter (λ call, streq (autoFixKey call.1 call.2) key) calls).

(** The keys counted so far are those with a count above zero. *)
Definition countsPositive (st : AutoFixState) : Prop :=
  Forall (λ kv : jsstring * nat, 0 < kv.2) (autoFixCounts st).

(** ** The guards of the animation loop and of the render *)

(** The flag [useFrameErrorRef.current] of the scene and the module-level
    [simErrorHandlerRef]; every report, from a frame, a render or an event
    handler, goes to the same error handler and is recorded in [reported]. *)
Record SceneState : Type := mkScene {
  useFrameErrorRef : bool;
  simErrorHandlerRef : RefState;
}.

Definition report (handler : nat) (e : ErrorObj) (st : SceneState) : SceneState :=
  mkScene true
    (mkRef (current (simErrorHandlerRef st)) (fired (simErrorHandlerRef st))
       (reported (simErrorHandlerRef st) ++ [(handler, e)])).

Section Scene.
Context {Value Args : Type}.

(** One frame of a callback registered through [safeUseFrame]. *)
Definition safeFrame (onUseFrameError : nat)
  (callback : Args → @callResult Value) (args : Args) (st : SceneState)
  : SceneState :=
if useFrameErrorRef st then st
else
  match callback args with
  | Returns _ => st
  | Throws err =>
      if negb (useFrameErrorRef st) then report onUseFrameError (toError err) st
      else st
  end.

(** What the generated function gives back to the component. *)
Inductive rendered : Type :=
| Element (v : Value)
| Nothing                       (* [undefined] or [null] *)
| RenderThrows (t : thrown).

Definition missingReturnError : ErrorObj :=
mkErrorObj
  (js "Component returned nothing (undefined). "
     ++ js "The code body is missing a `return` statement before the final "
     ++ js "React.createElement() call.").

(** One render of the component: the reference is set, the generated
  function runs, and a function that returns nothing is reported.  The
  result is what the component returns ([None] for [null]) or the exception
  that leaves it. *)
Definition renderComponent (onUseFrameError : nat) (result : rendered)
  (st : SceneState) : rendered * SceneState :=
let st :=
  mkScene (useFrameErrorRef st)
    (beginRender onUseFrameError (useFrameErrorRef st) (simErrorHandlerRef st)) in
match result with
| Nothing =>
    if negb (useFrameErrorRef st) then
      (Nothing, report onUseFrameError missingReturnError st)
    else (Nothing, st)
| _ => (result, st)
end.

(** What happens to a scene between two changes of its code. *)
Inductive sceneEvent : Type :=
| Render (onUseFrameError : nat) (result : rendered)
| Frame (onUseFrameError : nat) (callback : Args → @callResult Value) (args : Args)
| Handler (key : jsstring) (handler : Args → @callResult Value) (args : Args).

Definition sceneStep (st : SceneState) (ev : sceneEvent) : SceneState :=
match ev with
| Render h result => (renderComponent h result st).2
| Frame h callback args => safeFrame h callback args st
| Handler key g args =>
    mkScene (useFrameErrorRef st)
      (guarded key (userFunction g) args (simErrorHandlerRef st)).2
end.

Definition runScene (events : list sceneEvent) (st : SceneState) : SceneState :=
foldl sceneStep st events.

Definition isHandler (ev : sceneEvent) : bool :=
match ev with Handler _ _ _ => true | _ => false end.

(** The error a render or a frame brings, with the error handler it would
  go to. *)
Definition failure (ev : sceneEvent) : option (nat * ErrorObj) :=
match ev with
| Render h Nothing => Some (h, missingReturnError)
| Frame h callback args =>
    match callback args with
    | Throws t => Some (h, toError t)
    | Returns _ => None
    end
| _ => None
end.

Definition firstFailure (events : list sceneEvent) : option (nat * ErrorObj) :=
head (omap failure events).
End Scene.

End SceneGuards.

(* ===================================================================== *)
(** * The WAV container of the narration *)
(* ===================================================================== *)

Module Wav.
Import JS.

(** A buffer is a list of bytes.  The writes of the source all fall inside
    the buffer; a [DataView] would throw a [RangeError] on one that does not,
    where [insert] leaves the list as it is. *)
Definition setUint8 (view : list N) (byteOffset : nat) (value : N) : list N :=
  <[byteOffset := (value mod 256)%N]> view.

(** [view.setUint16(byteOffset, value, true)]: little-endian. *)
Definition setUint16 (view : list N) (byteOffset : nat) (value : N) : list N :=
  setUint8 (setUint8 view byteOffset value) (byteOffset + 1) (value / 256).

(** [view.setUint32(byteOffset, value, true)]: little-endian. *)
Definition setUint32 (view : list N) (byteOffset : nat) (value : N) : list N :=
  setUint8
    (setUint8
       (setUint8 (setUint8 view byteOffset value) (byteOffset + 1) (value / 256))
       (byteOffset + 2) (value / 65536))
    (byteOffset + 3) (value / 16777216).

Definition writeString (view : list N) (offset : nat) (str : jsstring) : list N :=
  foldl (λ view ic, setUint8 view (offset + ic.1) ic.2) view (imap pair str).

(** [target.set(source, offset)] on byte arrays. *)
Definition setBytes (target source : list N) (offset : nat) : list N :=
  foldl (λ target ic, <[offset + ic.1 := ic.2]> target) target (imap pair source).

(** The bytes of the decoded text: [bytes[i] = binaryString.charCodeAt(i)]. *)
Definition toBytes (binaryString : jsstring) : list N :=
  (λ c, c mod 256)%N <$> binaryString.

(** The buffer [createAudioBlobUrl] hands to the [Blob], for the text
    [atob] has decoded. *)
Definition wavBuffer (binaryString : jsstring) : list N :=
  let bytes := toBytes binaryString in
  let sampleRate := 24000%N in
  let numChannels := 1%N in
  let bitsPerSample := 16%N in
  let byteRate := (sampleRate * numChannels * (bitsPerSample / 8))%N in
  let blockAlign := (numChannels * (bitsPerSample / 8))%N in
  let dataSize := length bytes in
  let headerSize := 44 in
  let fileSize := headerSize + dataSize - 8 in
  let view := replicate (headerSize + dataSize) 0%N in
  let view := writeString view 0 (js "RIFF") in
  let view := setUint32 view 4 (N.of_nat fileSize) in
  let view := writeString view 8 (js "WAVE") in
  let view := writeString view 12 (js "fmt ") in
  let view := setUint32 view 16 16 in
  let view := setUint16 view 20 1 in
  let view := setUint16 view 22 numChannels in
  let view := setUint32 view 24 sampleRate in
  let view := setUint32 view 28 byteRate in
  let view := setUint16 view 32 blockAlign in
  let view := setUint16 view 34 bitsPerSample in
  let view := writeString view 36 (js "data") in
  let view := setUint32 view 40 (N.of_nat dataSize) in
  setBytes view bytes headerSize.

(** Reading a header back, as a player does. *)
Definition byteAt (view : list N) (byteOffset : nat) : N :=
  default 0%N (view !! byteOffset).

Definition getUint16 (view : list N) (byteOffset : nat) : N :=
  (byteAt view byteOffset + 256 * byteAt view (byteOffset + 1)%nat)%N.

Definition getUint32 (view : list N) (byteOffset : nat) : N :=
  (byteAt view byteOffset + 256 * byteAt view (byteOffset + 1)%nat
   + 65536 * byteAt view (byteOffset + 2)%nat
   + 16777216 * byteAt view (byteOffset + 3)%nat)%N.

Definition getString (view : list N) (byteOffset len : nat) : jsstring :=
  take len (drop byteOffset view).

(** The 44 bytes in front of the samples. *)
Definition wavHeader (dataSize : nat) : list N :=
  let fileSize := N.of_nat (44 + dataSize - 8) in
  let size := N.of_nat dataSize in
  (js "RIFF"
     ++ [fileSize mod 256; fileSize / 256 mod 256; fileSize / 65536 mod 256;
         fileSize / 16777216 mod 256]
     ++ js "WAVE" ++ js "fmt " ++ [16; 0; 0; 0; 1; 0; 1; 0; 192; 93; 0; 0;
                                   128; 187; 0; 0; 2; 0; 16; 0]
     ++ js "data"
     ++ [size mod 256; size / 256 mod 256; size / 65536 mod 256;
         size / 16777216 mod 256])%N.

End Wav.

(* ===================================================================== *)
(** * The chat request *)
(* ===================================================================== *)

Module GeminiChat.
Import JS Editor.

(** ** The request body of [callGemini] and [callGeminiChat] *)

Record Message : Type := mkMessage {
  role : jsstring;
  content : jsstring;
}.

(** One entry of [contents]: a role and the text of its only part. *)
Record GeminiContent : Type := mkContent {
  contentRole : jsstring;
  contentText : jsstring;
}.

(** What the two callers have in common: [contents] and, when there is a
    system message, [systemInstruction] with the text of its only part. *)
Record RequestBody : Type := mkBody {
  contents : list GeminiContent;
  systemInstruction : option jsstring;
}.

Definition isSystem (m : Message) : bool := streq (role m) (js "system").

Definition toContent (msg : Message) : GeminiContent :=
  mkContent (if streq (role msg) (js "assistant") then js "model" else js "user")
    (content msg).

Definition requestBody (messages : list Message) : RequestBody :=
  let systemMessage := List.find isSystem messages in
  let userMessages := List.filter (λ m, negb (isSystem m)) messages in
  mkBody (toContent <$> userMessages) (content <$> systemMessage).

(** ** The messages of [chatWithSlides] *)

Record ChatMessage : Type := mkChatMessage {
  chatId : jsstring;
  chatRole : jsstring;
  chatContent : jsstring;
  timestamp : Z;
}.

Definition chatMessages (systemPrompt userMessage : jsstring)
    (chatHistory : list ChatMessage) : list Message :=
  [mkMessage (js "system") systemPrompt]
    ++ ((λ msg, mkMessage (chatRole msg) (chatContent msg))
          <$> lastN 20 chatHistory)
    ++ [mkMessage (js "user") userMessage].

End GeminiChat.

(* ===================================================================== *)
(** * The text of a slide *)
(* ===================================================================== *)

Module SlideText.
Import JS Regex.

Definition chLt : N := 60%N.         (* < *)
Definition chGt : N := 62%N.         (* > *)

(** A tag: [<], any characters but [>], and [>]. *)
Definition reTag : re := Seq (Lit [chLt]) (Seq (Star (notChr chGt)) (Lit [chGt])).

(** One or more white-space characters. *)
Definition reSpaces : re := Plus ws.

(** The text of a slide without its markup, as [buildRichPreviousContext]
    computes [cleanContent] and as [stripHtml] falls back to: every tag gives
    way to a space, every run of white space to one space, and the ends are
    trimmed. *)
Definition cleanContent (content : jsstring) : jsstring :=
  trim (replaceGlobal
          (replaceGlobal content reTag (λ _ _, js " "))
          reSpaces (λ _ _, js " ")).

(** After every [<], no [>]. *)
Fixpoint tagFree (s : jsstring) : bool :=
  match s with
  | [] => true
  | c :: s' =>
      (if N.eqb c chLt then negb (existsb (N.eqb chGt) s') else true)
      && tagFree s'
  end.

Definition isAngle (c : N) : bool := N.eqb c chLt || N.eqb c chGt.

(** No two white-space characters side by side. *)
Fixpoint singleSpaced (s : jsstring) : bool :=
  match s with
  | [] => true
  | x :: s' =>
      match s' with
      | y :: _ => negb (isWhiteSpace x && isWhiteSpace y)
      | [] => true
      end && singleSpaced s'
  end.

End SlideText.

(* ===================================================================== *)
(** * Quoted strings *)
(* ===================================================================== *)

Module JsonText.
Import JS.

(** ** Reading a quoted string back

    What [JSON.parse] makes of the text [JSON.stringify] gives for a string:
    the way a reader of the message gets the string from its quoted form. *)

Definition hexValue (c : N) : option N :=
  (if (48 <=? c) && (c <=? 57) then Some (c - 48)
   else if (97 <=? c) && (c <=? 102) then Some (c - 87)
   else if (65 <=? c) && (c <=? 70) then Some (c - 55)
   else None)%N.

(** The character a backslash and [e] stand for. *)
Definition unescapeChar (e : N) : option N :=
  (if e =? 98 then Some 8
   else if e =? 116 then Some 9
   else if e =? 110 then Some 10
   else if e =? 102 then Some 12
   else if e =? 114 then Some 13
   else if e =? chDQuote then Some chDQuote
   else if e =? chBackslash then Some chBackslash
   else if e =? 47 then Some 47
   else None)%N.

(** The text between the quotes of a string literal, read back; [None] where
    it is no such text. *)
Fixpoint unquoteBody (q : jsstring) : option jsstring :=
  match q with
  | [] => Some []
  | c :: q1 =>
      if N.eqb c chBackslash then
        match q1 with
        | e :: q2 =>
            if N.eqb e 117 then
              match q2 with
              | h1 :: h2 :: h3 :: h4 :: q6 =>
                  match hexValue h1, hexValue h2, hexValue h3, hexValue h4 with
                  | Some a, Some b, Some c', Some d =>
                      cons (4096 * a + 256 * b + 16 * c' + d)%N <$> unquoteBody q6
                  | _, _, _, _ => None
                  end
              | _ => None
              end
            else
              match unescapeChar e with
              | Some x => cons x <$> unquoteBody q2
              | None => None
              end
        | [] => None
        end
      else if N.eqb c chDQuote || (c <? 32)%N then None
      else cons c <$> unquoteBody q1
  end.

(** [JSON.parse(text)] for a text that is one string literal. *)
Definition jsonParseString (text : jsstring) : option jsstring :=
  match text with
  | c :: rest =>
      if N.eqb c chDQuote && bool_decide (last rest = Some chDQuote)
      then unquoteBody (take (length rest - 1) rest)
      else None
  | [] => None
  end.

(** A character that [JSON.stringify] leaves as it is. *)
Definition isPlainJsonChar (c : N) : bool :=
  negb ((c <? 32)%N || N.eqb c chDQuote || N.eqb c chBackslash
        || isHighSurrogate c || isLowSurrogate c).

End JsonText.

(* ===================================================================== *)
(** * Texts cut into pieces and lines *)
(* ===================================================================== *)

Module Pieces.
Import JS.


End Pieces.

Module LineTexts.
Import JS.

(** Does the text start with the keyword and a white-space character right
    after it? *)
Definition keywordThenSpace (keyword s : jsstring) : bool :=
  startsWith s keyword
  && match s !! length keyword with
     | Some c => isWhiteSpace c
     | None => false
     end.

(** A text that is not empty and has no white space at either end. *)
Definition isTrimmed (s : jsstring) : Prop := s ≠ [] ∧ trim s = s.

Definition allWhiteSpace (s : jsstring) : Prop :=
  Forall (λ c, isWhiteSpace c = true) s.

End LineTexts.

(* ===================================================================== *)
(** * Properties                                                           *)
(* ===================================================================== *)

(** ** Facts about the string built-ins *)

Module JSFacts.
Import JS.

Lemma isPrefix_app (p s r : jsstring) :
  isPrefix p s = true → isPrefix p (s ++ r) = true.
Proof.
  revert s; induction p as [|a p IH]; intros [|b s]; simpl; try done.
  intros [-> H]%andb_prop. rewrite (IH _ H). done.
Qed.

Lemma isPrefix_self_app (p r : jsstring) : isPrefix p (p ++ r) = true.
Proof. induction p as [|a p IH]; simpl; [done|]. by rewrite N.eqb_refl. Qed.

Lemma isPrefix_spec (p s : jsstring) :
  isPrefix p s = true ↔ ∃ r, s = p ++ r.
Proof.
  split.
  - revert s; induction p as [|a p IH]; intros s; simpl.
    + by exists s.
    + destruct s as [|b s]; [done|].
      intros [Hab H]%andb_prop. apply N.eqb_eq in Hab as ->.
      destruct (IH _ H) as [r ->]. by exists r.
  - intros [r ->]. apply isPrefix_self_app.
Qed.

Lemma isPrefix_length (p s : jsstring) :
  isPrefix p s = true → length p ≤ length s.
Proof. intros [r ->]%isPrefix_spec. rewrite length_app. lia. Qed.

Lemma isPrefix_app_l (p q s : jsstring) :
  isPrefix (p ++ q) s = isPrefix p s && isPrefix q (drop (length p) s).
Proof.
  revert s; induction p as [|a p IH]; intros s; simpl.
  - by rewrite drop_0.
  - destruct s as [|b s]; [done|]. simpl. rewrite IH. by rewrite andb_assoc.
Qed.

(** An occurrence of [p ++ q] is an occurrence of [p] followed by one of [q]. *)
Lemma occursAt_app (s p q : jsstring) (i : nat) :
  occursAt s (p ++ q) i = occursAt s p i && occursAt s q (i + length p).
Proof. unfold occursAt. by rewrite isPrefix_app_l, drop_drop. Qed.

Lemma occursAt_length (s p : jsstring) (i : nat) :
  occursAt s p i = true → i + length p ≤ length s ∨ p = [].
Proof.
  unfold occursAt. intros H. destruct p as [|a p]; [by right|left].
  apply isPrefix_length in H. rewrite length_drop in H. simpl in *. lia.
Qed.

Lemma indexOfAux_spec (p s : jsstring) (pos : nat) :
  match indexOfAux p s pos with
  | Some idx =>
      pos ≤ idx ∧ isPrefix p (drop (idx - pos) s) = true
      ∧ ∀ j, j < idx - pos → isPrefix p (drop j s) = false
  | None => ∀ j, isPrefix p (drop j s) = false
  end.
Proof.
  revert pos; induction s as [|c s IH]; intros pos; simpl.
  - destruct p as [|a p]; simpl.
    + split; [lia|]. split; [done|]. intros j Hj. lia.
    + intros j. by rewrite drop_nil.
  - destruct (isPrefix p (c :: s)) eqn:Hp.
    + split; [lia|]. rewrite Nat.sub_diag. simpl. split; [done|]. intros j Hj. lia.
    + specialize (IH (S pos)). destruct (indexOfAux p s (S pos)) as [idx|].
      * destruct IH as (Hle & Hocc & Hmin). split; [lia|].
        replace (idx - pos) with (S (idx - S pos)) by lia. simpl.
        split; [done|]. intros [|j] Hj; simpl; [done|]. apply Hmin. lia.
      * intros [|j]; simpl; [done|]. apply IH.
Qed.

(** [indexOf] finds the first occurrence at or after the clamped start. *)
Lemma indexOf_Some (s p : jsstring) (from idx : nat) :
  indexOf s p from = Some idx →
  Nat.min from (length s) ≤ idx ∧ occursAt s p idx = true
  ∧ ∀ q, Nat.min from (length s) ≤ q → q < idx → occursAt s p q = false.
Proof.
  unfold indexOf, occursAt. set (f := Nat.min from (length s)).
  intros H. pose proof (indexOfAux_spec p (drop f s) f) as Hs.
  rewrite H in Hs. destruct Hs as (Hle & Hocc & Hmin).
  split; [done|]. rewrite drop_drop in Hocc.
  replace (f + (idx - f)) with idx in Hocc by lia. split; [done|].
  intros q Hq1 Hq2. specialize (Hmin (q - f)). rewrite drop_drop in Hmin.
  replace (f + (q - f)) with q in Hmin by lia. apply Hmin. lia.
Qed.

Lemma indexOf_None (s p : jsstring) (from q : nat) :
  indexOf s p from = None → Nat.min from (length s) ≤ q → occursAt s p q = false.
Proof.
  unfold indexOf, occursAt. set (f := Nat.min from (length s)).
  intros H Hq. pose proof (indexOfAux_spec p (drop f s) f) as Hs.
  rewrite H in Hs. specialize (Hs (q - f)). rewrite drop_drop in Hs.
  by replace (f + (q - f)) with q in Hs by lia.
Qed.

(** Where nothing occurs, nothing is found. *)
Lemma indexOf_absent (s p : jsstring) (from : nat) :
  (∀ q, occursAt s p q = false) → indexOf s p from = None.
Proof.
  intros H. destruct (indexOf s p from) as [idx|] eqn:E; [|done].
  apply indexOf_Some in E as (_ & Hocc & _). by rewrite H in Hocc.
Qed.

Lemma includes_false (s p : jsstring) :
  includes s p = false ↔ ∀ q, occursAt s p q = false.
Proof.
  unfold includes. split.
  - destruct (indexOf s p 0) eqn:E; [done|]. intros _ q.
    apply (indexOf_None _ _ _ _ E). simpl. lia.
  - intros H. by rewrite indexOf_absent.
Qed.

Lemma includes_true (s p : jsstring) :
  includes s p = true ↔ ∃ q, occursAt s p q = true.
Proof.
  split.
  - unfold includes. destruct (indexOf s p 0) eqn:E; [|done]. intros _.
    apply indexOf_Some in E as (_ & Hocc & _). eauto.
  - intros [q Hq]. destruct (includes s p) eqn:E; [done|].
    rewrite includes_false in E. by rewrite E in Hq.
Qed.

(** A text includes each of its pieces. *)
Lemma includes_middle (a x b : jsstring) : includes (a ++ x ++ b) x = true.
Proof.
  apply includes_true. exists (length a). unfold occursAt.
  rewrite drop_app_length. apply isPrefix_self_app.
Qed.

Lemma includes_app_r (a s x : jsstring) :
  includes s x = true → includes (a ++ s) x = true.
Proof.
  rewrite !includes_true. intros [q Hq]. exists (length a + q).
  unfold occursAt in *. by rewrite <- drop_drop, drop_app_length.
Qed.

Lemma includes_app_l (s b x : jsstring) :
  includes s x = true → includes (s ++ b) x = true.
Proof.
  rewrite !includes_true. intros [q Hq]. exists q. unfold occursAt in *.
  destruct (decide (q ≤ length s)).
  - rewrite drop_app_le by done. by apply isPrefix_app.
  - rewrite drop_ge in Hq by lia. destruct x; [|done]. done.
Qed.

Lemma includes_join (sep x : jsstring) (ls : list jsstring) :
  x ∈ ls → includes (join sep ls) x = true.
Proof.
  induction ls as [|l ls IH]; [by intros ?%elem_of_nil|].
  intros [->|Hin]%elem_of_cons.
  - destruct ls as [|l' ls]; simpl.
    + pose proof (includes_middle [] l []) as H. simpl in H.
      by rewrite app_nil_r in H.
    + apply (includes_middle [] l).
  - specialize (IH Hin). destruct ls as [|l' ls]; [by apply elem_of_nil in Hin|].
    change (join sep (l :: l' :: ls)) with (l ++ sep ++ join sep (l' :: ls)).
    by do 2 apply includes_app_r.
Qed.

End JSFacts.

(** ** More facts about the string built-ins *)

Module MoreJSFacts.
Import JS JSFacts.

Lemma substring_same (s : jsstring) (k : nat) : substring s k k = [].
Proof. unfold substring. by rewrite Nat.min_id, Nat.max_id, Nat.sub_diag. Qed.

Lemma substring_one (s : jsstring) (k : nat) (c : N) :
  s !! k = Some c → substring s k (S k) = [c].
Proof.
  intros H. pose proof (lookup_lt_Some _ _ _ H) as Hlt. unfold substring.
  replace (k `min` length s) with k by lia.
  replace (S k `min` length s) with (S k) by lia.
  replace (k `max` S k - k `min` S k) with 1 by lia.
  replace (k `min` S k) with k by lia.
  rewrite (drop_S _ _ _ H). done.
Qed.

Lemma substring_ordered (s : jsstring) (a b : nat) :
  a ≤ b → b ≤ length s → substring s a b = take (b - a) (drop a s).
Proof.
  intros Hab Hb. unfold substring.
  replace (a `min` length s) with a by lia.
  replace (b `min` length s) with b by lia.
  replace (a `max` b) with b by lia. by replace (a `min` b) with a by lia.
Qed.

Lemma substring_middle (a x b : jsstring) :
  substring (a ++ x ++ b) (length a) (length a + length x) = x.
Proof.
  rewrite substring_ordered by (rewrite ?length_app; lia).
  replace (length a + length x - length a) with (length x) by lia.
  by rewrite drop_app_length, take_app_length.
Qed.

Lemma substring_prefix (a b : jsstring) : substring (a ++ b) 0 (length a) = a.
Proof.
  rewrite substring_ordered by (rewrite ?length_app; lia).
  by rewrite Nat.sub_0_r, drop_0, take_app_length.
Qed.




(** The first occurrence at or after the start is what [indexOf] finds. *)
Lemma indexOf_first (s p : jsstring) (from idx : nat) :
  from ≤ idx → from ≤ length s → occursAt s p idx = true →
  (∀ q, from ≤ q → q < idx → occursAt s p q = false) →
  indexOf s p from = Some idx.
Proof.
  intros Hfrom Hlen Hocc Hfirst. destruct (indexOf s p from) as [i|] eqn:E.
  - apply indexOf_Some in E as (Hle & Hi & Hmin).
    rewrite Nat.min_l in Hle, Hmin by done. f_equal.
    destruct (decide (i < idx)) as [Hlt|Hge].
    + by rewrite (Hfirst i Hle Hlt) in Hi.
    + destruct (decide (idx < i)) as [Hlt|]; [|lia].
      by rewrite (Hmin idx Hfrom Hlt) in Hocc.
  - rewrite (indexOf_None _ _ _ idx E) in Hocc; [done|]. lia.
Qed.



End MoreJSFacts.

(** ** Quoted strings *)

Module JsonFacts.
Import JS JsonText.

Lemma hexValue_hexDigit (x : N) : (x < 16)%N → hexValue (hexDigit x) = Some x.
Proof.
  intros Hx.
  assert (Forall (λ y, hexValue (hexDigit y) = Some y) (N.of_nat <$> seq 0 16)) as H
    by (by repeat constructor).
  apply (proj1 (Forall_forall _ _) H).
  apply list_elem_of_fmap. exists (N.to_nat x). split; [lia|].
  apply elem_of_seq. lia.
Qed.

Lemma unquote_unicodeEscape (c : N) (t : jsstring) :
  (c < 65536)%N →
  unquoteBody (unicodeEscape c ++ t) = cons c <$> unquoteBody t.
Proof.
  intros Hc. unfold unicodeEscape. cbn [app unquoteBody].
  change (N.eqb chBackslash chBackslash) with true.
  change (N.eqb 117 117) with true. cbv iota.
  rewrite !hexValue_hexDigit by (apply N.mod_upper_bound; lia).
  do 2 f_equal.
  pose proof (N.Div0.div_mod c 16). pose proof (N.Div0.div_mod (c / 16) 16).
  pose proof (N.Div0.div_mod (c / 256) 16). pose proof (N.Div0.div_mod (c / 4096) 16).
  assert (c / 256 = c / 16 / 16)%N by (by rewrite N.Div0.div_div).
  assert (c / 4096 = c / 256 / 16)%N by (by rewrite N.Div0.div_div).
  assert (c / 4096 < 16)%N by (apply N.Div0.div_lt_upper_bound; lia).
  rewrite (N.mod_small (c / 4096) 16) by done.
  lia.
Qed.

Lemma unquote_quoteChar (c : N) (t : jsstring) :
  unquoteBody (quoteChar c ++ t) = cons c <$> unquoteBody t.
Proof.
  unfold quoteChar.
  destruct (N.eqb_spec c 8) as [->|H8]; [done|].
  destruct (N.eqb_spec c 9) as [->|H9]; [done|].
  destruct (N.eqb_spec c 10) as [->|H10]; [done|].
  destruct (N.eqb_spec c 12) as [->|H12]; [done|].
  destruct (N.eqb_spec c 13) as [->|H13]; [done|].
  destruct (N.eqb_spec c chDQuote) as [->|Hq]; [done|].
  destruct (N.eqb_spec c chBackslash) as [->|Hb]; [done|].
  destruct ((c <? 32)%N || isHighSurrogate c || isLowSurrogate c) eqn:E.
  - apply unquote_unicodeEscape. unfold isHighSurrogate, isLowSurrogate in E.
    apply orb_prop in E as [E|E]; [apply orb_prop in E as [E|E]|].
    + apply N.ltb_lt in E. lia.
    + apply andb_prop in E as [_ E]. apply N.leb_le in E. lia.
    + apply andb_prop in E as [_ E]. apply N.leb_le in E. lia.
  - apply orb_false_iff in E as [E _]. apply orb_false_iff in E as [E _].
    cbn [app unquoteBody].
    rewrite (proj2 (N.eqb_neq c chBackslash) Hb), (proj2 (N.eqb_neq c chDQuote) Hq), E.
    done.
Qed.

Lemma unquote_surrogate (c : N) (t : jsstring) :
  isHighSurrogate c || isLowSurrogate c = true →
  unquoteBody (c :: t) = cons c <$> unquoteBody t.
Proof.
  intros H. cbn [unquoteBody].
  assert (55296 ≤ c)%N as Hc.
  { unfold isHighSurrogate, isLowSurrogate in H.
    apply orb_prop in H as [H|H]; apply andb_prop in H as [H _];
      apply N.leb_le in H; lia. }
  assert (N.eqb c chBackslash = false) as -> by (apply N.eqb_neq; unfold chBackslash; lia).
  assert (N.eqb c chDQuote = false) as -> by (apply N.eqb_neq; unfold chDQuote; lia).
  assert ((c <? 32)%N = false) as -> by (apply N.ltb_ge; lia).
  done.
Qed.

Lemma quoteBody_cons (c d : N) (s : jsstring) :
  quoteBody (c :: d :: s)
  = if isHighSurrogate c && isLowSurrogate d then c :: d :: quoteBody s
    else quoteChar c ++ quoteBody (d :: s).
Proof. done. Qed.

Lemma unquote_quoteBody (n : nat) :
  ∀ s : jsstring, length s ≤ n → unquoteBody (quoteBody s) = Some s.
Proof.
  induction n as [|n IH]; intros s Hn.
  - by destruct s; [|simpl in Hn; lia].
  - destruct s as [|c [|d s]]; [done| |].
    + cbn [quoteBody]. rewrite <- (app_nil_r (quoteChar c)), unquote_quoteChar. done.
    + rewrite quoteBody_cons. destruct (isHighSurrogate c && isLowSurrogate d) eqn:E.
      * apply andb_prop in E as [Ec Ed].
        rewrite unquote_surrogate by (by rewrite Ec).
        rewrite unquote_surrogate by (by rewrite Ed, orb_true_r).
        rewrite IH by (simpl in Hn; lia). done.
      * rewrite unquote_quoteChar, IH by (simpl in *; lia). done.
Qed.

(** The quoted form of a string, read back, is the string. *)
Lemma jsonParseString_jsonStringify (s : jsstring) :
  jsonParseString (jsonStringify s) = Some s.
Proof.
  unfold jsonStringify, jsonParseString. cbn [app].
  rewrite N.eqb_refl, last_snoc, bool_decide_eq_true_2 by done. cbn [andb].
  rewrite length_app. cbn [length].
  replace (length (quoteBody s) + 1 - 1) with (length (quoteBody s)) by lia.
  rewrite take_app_length. by apply (unquote_quoteBody (length s)).
Qed.

Lemma quoteChar_plain (c : N) : isPlainJsonChar c = true → quoteChar c = [c].
Proof.
  unfold isPlainJsonChar, quoteChar. intros H. apply negb_true_iff in H.
  repeat (apply orb_false_iff in H as [H ?]).
  apply N.ltb_ge in H.
  assert (N.eqb c 8 = false) as -> by (apply N.eqb_neq; lia).
  assert (N.eqb c 9 = false) as -> by (apply N.eqb_neq; lia).
  assert (N.eqb c 10 = false) as -> by (apply N.eqb_neq; lia).
  assert (N.eqb c 12 = false) as -> by (apply N.eqb_neq; lia).
  assert (N.eqb c 13 = false) as -> by (apply N.eqb_neq; lia).
  assert ((c <? 32)%N = false) as -> by (apply N.ltb_ge; lia).
  by repeat match goal with H : _ = false |- _ => rewrite H; clear H end.
Qed.

(** A string of characters that need no escape is quoted as it is. *)
Lemma jsonStringify_plain (s : jsstring) :
  forallb isPlainJsonChar s = true → jsonStringify s = [chDQuote] ++ s ++ [chDQuote].
Proof.
  intros H. unfold jsonStringify. do 2 f_equal.
  induction s as [|c s IH]; [done|]. cbn [forallb] in H.
  apply andb_prop in H as [Hc Hs].
  assert (isHighSurrogate c = false) as Hhigh.
  { unfold isPlainJsonChar in Hc. apply negb_true_iff in Hc.
    apply orb_false_iff in Hc as [Hc _]. by apply orb_false_iff in Hc as [_ Hc]. }
  destruct s as [|d s]; [by apply quoteChar_plain|].
  rewrite quoteBody_cons, Hhigh, (quoteChar_plain c Hc), (IH Hs). done.
Qed.

End JsonFacts.

(** ** Regular expressions and the sanitizer *)

Module RegexFacts.
Import JS JSFacts Regex.

Section Engine.
Variable s : jsstring.

(** A successful match has called its continuation, at an index that lies
  at least the least span of the expression after the start and not beyond
  the end of the text. *)
Lemma m_inv (r : re) :
∀ i c k x, m s r i c k = Some x →
∃ j c', i + minLen r ≤ j ∧ j ≤ Nat.max i (length s) ∧ k j c' = Some x.
Proof.
induction r as [|p|l|a IHa b IHb|a IHa b IHb|a IHa|n a IHa| | |];
  intros i c k x; cbn [m minLen].
- intros H. exists i, c. split; [lia|]. split; [lia|done].
- destruct (s !! i) as [ch|] eqn:E; [|done]. destruct (p ch); [|done].
  intros H. apply lookup_lt_Some in E. exists (S i), c.
  split; [lia|]. split; [lia|done].
- destruct (occursAt s l i) eqn:E; [|done]. intros H.
  exists (i + length l), c. split; [lia|]. split; [|done].
  destruct (occursAt_length _ _ _ E) as [?| ->]; simpl; lia.
- intros H. apply IHa in H as (j1 & c1 & ? & ? & H).
  apply IHb in H as (j2 & c2 & ? & ? & H). exists j2, c2.
  split; [lia|]. split; [lia|done].
- destruct (m s a i c k) eqn:E.
  + intros [= <-]. apply IHa in E as (j & c' & ? & ? & E). exists j, c'.
    split; [lia|]. split; [lia|done].
  + intros H. apply IHb in H as (j & c' & ? & ? & H). exists j, c'.
    split; [lia|]. split; [lia|done].
- generalize (S (length s)) as n. intros n. revert i c.
  induction n as [|n IHn]; intros i c; cbn [starLoop].
  + intros H. exists i, c. split; [lia|]. split; [lia|done].
  + destruct (m s a i c _) eqn:E.
    * intros [= <-]. apply IHa in E as (j1 & c1 & ? & ? & E).
      destruct (i <? j1); [|done].
      apply IHn in E as (j2 & c2 & ? & ? & E). exists j2, c2.
      split; [lia|]. split; [lia|done].
    * intros H. exists i, c. split; [lia|]. split; [lia|done].
- intros H. apply IHa in H as (j & c' & ? & ? & H). eauto.
- destruct (i =? 0); [|done]. intros H. exists i, c.
  split; [lia|]. split; [lia|done].
- destruct (i =? length s); [|done]. intros H. exists i, c.
  split; [lia|]. split; [lia|done].
- destruct (atWordBoundary s i); [|done]. intros H. exists i, c.
  split; [lia|]. split; [lia|done].
Qed.

Lemma m_Seq (a b : re) (i : nat) (c : caps) (k : cont) :
m s (Seq a b) i c k = m s a i c (λ i' c', m s b i' c' k).
Proof. done. Qed.

Lemma m_Grp (n : nat) (a : re) (i : nat) (c : caps) (k : cont) :
m s (Grp n a) i c k = m s a i c (λ i' c', k i' ((n, (i, i')) :: c')).
Proof. done. Qed.

Lemma m_Lit (l : jsstring) (i : nat) (c : caps) (k : cont) :
m s (Lit l) i c k = if occursAt s l i then k (i + length l) c else None.
Proof. done. Qed.

Lemma m_Chr (p : N → bool) (i : nat) (c : caps) (k : cont) :
m s (Chr p) i c k
= match s !! i with
  | Some x => if p x then k (S i) c else None
  | None => None
  end.
Proof. done. Qed.

(** A continuation that always fails makes the match fail. *)
Lemma m_none (r : re) (i : nat) (c : caps) (k : cont) :
(∀ j c', k j c' = None) → m s r i c k = None.
Proof.
intros Hk. destruct (m s r i c k) as [x|] eqn:E; [|done].
apply m_inv in E as (j & c' & _ & _ & E). by rewrite Hk in E.
Qed.

(** A star followed by a continuation that always succeeds succeeds. *)
Lemma starLoop_total (body : nat → caps → cont → option (nat * caps)) (k : cont)
  (n i : nat) (c : caps) :
(∀ j c', is_Some (k j c')) → is_Some (starLoop body k n i c).
Proof.
intros Hk. destruct n; cbn [starLoop]; [apply Hk|].
destruct (body i c _); [by eexists|apply Hk].
Qed.

Lemma m_end (r : re) (i : nat) (c c' : caps) (e : nat) :
m s r i c accept = Some (e, c') → i + minLen r ≤ e ∧ e ≤ Nat.max i (length s).
Proof.
intros H. apply m_inv in H as (j & c'' & ? & ? & [= -> ->]). lia.
Qed.

Lemma execFrom_Some (fuel : nat) (r : re) (start p e : nat) (c : caps) :
start + fuel ≤ length s →
execFrom s fuel r start = Some (p, e, c) →
start ≤ p ∧ p ≤ e ∧ e ≤ length s ∧ m s r p [] accept = Some (e, c).
Proof.
revert start; induction fuel as [|fuel IH]; intros start Hlen; simpl.
- destruct (m s r start [] accept) as [[e' c']|] eqn:E; [|done].
  intros [= <- <- <-]. apply m_end in E as ?. split; [lia|].
  split; [lia|]. split; [lia|done].
- destruct (m s r start [] accept) as [[e' c']|] eqn:E.
  + intros [= <- <- <-]. apply m_end in E as ?. split; [lia|].
    split; [lia|]. split; [lia|done].
  + intros H. apply IH in H; [|lia]. destruct H as (? & ? & ? & ?).
    split; [lia|done].
Qed.

Lemma exec_Some (r : re) (from p e : nat) (c : caps) :
exec s r from = Some (p, e, c) →
from ≤ p ∧ p ≤ e ∧ e ≤ length s ∧ m s r p [] accept = Some (e, c).
Proof.
unfold exec. destruct (length s <? from) eqn:E; [done|].
apply Nat.ltb_ge in E. apply execFrom_Some. lia.
Qed.

(** Where the expression matches at no index, the search finds nothing. *)
Lemma execFrom_None (fuel : nat) (r : re) (start : nat) :
(∀ i, m s r i [] accept = None) → execFrom s fuel r start = None.
Proof.
intros H. revert start; induction fuel as [|fuel IH]; intros start; simpl;
  by rewrite H.
Qed.

Lemma exec_None (r : re) (from : nat) :
(∀ i, m s r i [] accept = None) → exec s r from = None.
Proof.
intros H. unfold exec. destruct (length s <? from); [done|].
by apply execFrom_None.
Qed.

(** With no match at all, a global replacement changes nothing. *)
Lemma replaceGlobal_none (r : re) (f : jsstring → caps → jsstring) :
(∀ i, m s r i [] accept = None) → replaceGlobal s r f = s.
Proof.
intros H. unfold replaceGlobal. simpl. by rewrite exec_None.
Qed.

(** An expression anchored at the start matches at index 0 or nowhere. *)
Lemma execFrom_anchored (fuel : nat) (r : re) (start : nat) :
0 < start → execFrom s fuel (Seq Bol r) start = None.
Proof.
revert start; induction fuel as [|fuel IH]; intros start Hs; simpl;
  destruct start; try lia; simpl; [done|]. apply IH. lia.
Qed.

Lemma deleteFirst_anchored (r : re) :
match m s r 0 [] accept with
| Some (e, _) =>
    minLen r ≤ e ∧ e ≤ length s ∧ deleteFirst s (Seq Bol r) = drop e s
| None => deleteFirst s (Seq Bol r) = s
end.
Proof.
unfold deleteFirst, exec. simpl.
destruct (m s r 0 [] accept) as [[e c]|] eqn:E.
- apply m_end in E as ?. destruct (length s); simpl; rewrite E;
    (split; [lia|]); (split; [lia|done]).
- destruct (length s); simpl; rewrite E; [done|].
  rewrite execFrom_anchored; [done|lia].
Qed.
End Engine.

End RegexFacts.

Module SanitizerProps.
Import JS JSFacts Regex RegexFacts Sanitizer Examples.

(** *** Imports and exports *)

(** C9, as stated, fails: the export statement is not removed, only its
    keyword is. *)
Lemma export_statement_kept :
  startsWith (trim exportedConst) (js "export ") = true
  ∧ stripShadows exportedConst = js "const x = 1;"
  ∧ sanitizeSimulationCode exportedConst = js "const x = 1;"
  ∧ sanitizeSimulationCode exportedConst ≠ [].
Proof. repeat split; vm_compute; [reflexivity..|discriminate]. Qed.

(** *** The hook hoister on the example of the specification *)

(** C6, as stated, fails: the hoister looks for [React.useMemo(] and leaves
    a call of the bare [useMemo] where it is. *)
Lemma bare_hook_not_hoisted :
  hoistConditionalHooks bareHookInput = bareHookInput
  ∧ startsWith (hoistConditionalHooks bareHookInput)
      (js "const g = useMemo(() => 1, []);") = false.
Proof. split; vm_compute; reflexivity. Qed.

(** C6 (amended). Given [if (x) { const g = React.useMemo(() => 1, []); }]
    the hoister returns the statement [const g = React.useMemo(() => 1, []);],
    an empty line and [if (x) { }]; on that output it changes nothing.  The
    same text with the bare [useMemo] is returned as it is. *)
Theorem qualified_hook_hoisted :
  hoistConditionalHooks qualifiedHookInput
  = js "const g = React.useMemo(() => 1, []);" ++ [chNewline; chNewline]
      ++ js "if (x) { }"
  ∧ hoistConditionalHooks (hoistConditionalHooks qualifiedHookInput)
    = hoistConditionalHooks qualifiedHookInput
  ∧ hoistConditionalHooks bareHookInput = bareHookInput.
Proof. repeat split; vm_compute; reflexivity. Qed.

(** *** Text on which no rule has anything to do is left as it is *)

Lemma split_nonempty (sep : N) (s : jsstring) : split sep s ≠ [].
Proof.
  destruct s as [|c s]; simpl; [done|].
  destruct (N.eqb c sep); [done|]. by destruct (split sep s).
Qed.

Lemma join_split (sep : N) (s : jsstring) : join [sep] (split sep s) = s.
Proof.
  induction s as [|c s IH]; [done|]. simpl.
  pose proof (split_nonempty sep s) as Hne.
  destruct (N.eqb c sep) eqn:E.
  - apply N.eqb_eq in E as ->. destruct (split sep s) as [|l ls]; [done|].
    simpl in *. by rewrite IH.
  - destruct (split sep s) as [|l ls]; [done|].
    destruct ls; simpl in *; by rewrite <- IH.
Qed.

Lemma stripShadowLine_id (line : jsstring) :
  lineShadows line = false → stripShadowLine line = line.
Proof.
  unfold lineShadows, stripShadowLine. set (trimmed := trim line).
  intros H.
  apply orb_false_elim in H as [H Hdirect].
  apply orb_false_elim in H as [H Hdestr].
  apply orb_false_elim in H as [H Hfunc].
  apply orb_false_elim in H as [H Hexp].
  apply orb_false_elim in H as [Himp Hexpd].
  rewrite Himp, Hexpd, Hexp. simpl.
  destruct (exec trimmed reFuncDecl 0) as [[[p e] c]|].
  { rewrite Hfunc.
    destruct (exec trimmed reDestructure 0) as [[[p' e'] c']|].
    - rewrite Hdestr.
      destruct (exec trimmed reDirectDecl 0) as [[[p'' e''] c'']|]; [|done].
      by rewrite Hdirect.
    - destruct (exec trimmed reDirectDecl 0) as [[[p'' e''] c'']|]; [|done].
      by rewrite Hdirect. }
  destruct (exec trimmed reDestructure 0) as [[[p' e'] c']|].
  - rewrite Hdestr.
    destruct (exec trimmed reDirectDecl 0) as [[[p'' e''] c'']|]; [|done].
    by rewrite Hdirect.
  - destruct (exec trimmed reDirectDecl 0) as [[[p'' e''] c'']|]; [|done].
    by rewrite Hdirect.
Qed.

Lemma stripShadows_id (s : jsstring) :
  forallb (λ line, negb (lineShadows line)) (split chNewline s) = true →
  stripShadows s = s.
Proof.
  intros H. unfold stripShadows.
  assert (stripShadowLine <$> split chNewline s = split chNewline s) as ->.
  { induction (split chNewline s) as [|l ls IH]; [done|]. simpl in H.
    apply andb_prop in H as [Hl Hls]. rewrite fmap_cons, (IH Hls).
    rewrite stripShadowLine_id; [done|]. by apply negb_true_iff. }
  apply join_split.
Qed.

Lemma allOccurrences_spec (s p : jsstring) (ok : nat → bool) (i : nat) :
  allOccurrences s p ok = true → p ≠ [] → occursAt s p i = true → ok i = true.
Proof.
  unfold allOccurrences. rewrite forallb_forall. intros H Hp Hocc.
  destruct (occursAt_length _ _ _ Hocc) as [Hlen|]; [|done].
  specialize (H i). rewrite Hocc in H. apply H. apply in_seq. lia.
Qed.

Lemma scanHook_none (fuel : nat) (s : jsstring) (depths : list Z)
    (search : jsstring) (pos : nat) :
  (∀ idx, occursAt s search idx = true → nestedAt depths idx = false) →
  scanHook fuel s depths search pos = None.
Proof.
  intros H. revert pos; induction fuel as [|fuel IH]; intros pos; simpl; [done|].
  destruct (pos <? length s); [|done].
  destruct (indexOf s search pos) as [idx|] eqn:E; [|done].
  apply indexOf_Some in E as (_ & Hocc & _). by rewrite (H idx Hocc).
Qed.

Lemma hookSearch_nonempty (hookName : jsstring) : hookSearch hookName ≠ [].
Proof. done. Qed.

Lemma scanHooks_none (s : jsstring) (names : list jsstring) :
  forallb (λ hookName,
             allOccurrences s (hookSearch hookName)
               (λ idx, negb (nestedAt (depthAt s) idx))) names = true →
  scanHooks s (depthAt s) names = None.
Proof.
  induction names as [|hookName names IH]; [done|]. cbn [scanHooks forallb].
  intros [Hh Hrest]%andb_prop. rewrite scanHook_none; [by apply IH|].
  intros idx Hocc. apply negb_true_iff.
  by apply (allOccurrences_spec _ _ _ _ Hh (hookSearch_nonempty hookName)).
Qed.

Lemma hoistLoop_none (iterations : nat) (s : jsstring) (hoisted : list jsstring) :
  scanHooks s (depthAt s) hookNames = None →
  hoistLoop iterations s hoisted = (s, hoisted).
Proof. intros H. destruct iterations; cbn [hoistLoop]; [done|]. by rewrite H. Qed.

Lemma hoistConditionalHooks_id (s : jsstring) :
  hooksAtTopLevel s = true → hoistConditionalHooks s = s.
Proof.
  intros H. unfold hoistConditionalHooks.
  by rewrite (hoistLoop_none 30 s [] (scanHooks_none s hookNames H)).
Qed.

Lemma normalizeUnicode_id (s : jsstring) :
  noUnicode s = true → normalizeUnicode s = s.
Proof.
  intros H. unfold normalizeUnicode. apply replaceGlobal_none.
  intros i. unfold UNICODE_REPLACE_RE. rewrite m_Chr.
  destruct (s !! i) as [x|] eqn:E; [|done].
  unfold noUnicode in H. rewrite forallb_forall in H.
  specialize (H x). rewrite negb_true_iff in H. rewrite H; [done|].
  apply list_elem_of_In. by eapply list_elem_of_lookup_2.
Qed.

Lemma geometryLoop_id (fuel : nat) (geo s : jsstring) (startIdx : nat) :
  allOccurrences s (js "new THREE." ++ geo ++ js "(") (storedOrReturned s) = true →
  geometryLoop fuel geo s startIdx = s.
Proof.
  intros H. revert startIdx; induction fuel as [|fuel IH]; intros startIdx;
    [done|]. cbn [geometryLoop].
  destruct (indexOf s _ startIdx) as [idx|] eqn:E; [|done].
  apply indexOf_Some in E as (_ & Hocc & _).
  apply (allOccurrences_spec _ _ _ _ H) in Hocc; [|done].
  unfold storedOrReturned in Hocc. rewrite Hocc. apply IH.
Qed.

Lemma fixGeometryConstructors_id (s : jsstring) :
  geometriesStored s = true → fixGeometryConstructors s = s.
Proof.
  unfold geometriesStored, fixGeometryConstructors.
  induction R3F_GEOMETRY_TYPES as [|geo geos IH]; [done|]. cbn [foldl forallb].
  intros [Hg Hrest]%andb_prop. rewrite (geometryLoop_id _ _ _ _ Hg). by apply IH.
Qed.

Lemma reversalLoop_id (fuel : nat) (geo s : jsstring) (searchStart : nat) :
  allOccurrences s (createElementOf (lcFirst geo)) (elementLeftAlone s) = true →
  reversalLoop fuel geo s searchStart = s.
Proof.
  intros H. revert searchStart; induction fuel as [|fuel IH]; intros searchStart;
    [done|]. cbn [reversalLoop].
  destruct (indexOf s _ searchStart) as [ceIdx|] eqn:E; [|done].
  apply indexOf_Some in E as (_ & Hocc & _).
  apply (allOccurrences_spec _ _ _ _ H) in Hocc; [|done].
  unfold elementLeftAlone in Hocc.
  destruct (exec _ reVarBinding 0) as [[[p e] c]|]; [|apply IH].
  rewrite Hocc. apply IH.
Qed.

Lemma fixElementGeometries_id (s : jsstring) :
  elementsLeftAlone s = true → fixElementGeometries s = s.
Proof.
  unfold elementsLeftAlone, fixElementGeometries.
  induction R3F_GEOMETRY_TYPES as [|geo geos IH]; [done|]. cbn [foldl forallb].
  intros [Hg Hrest]%andb_prop. rewrite (reversalLoop_id _ _ _ _ Hg). by apply IH.
Qed.

Lemma fixSetFromPoints_id (s : jsstring) :
  noSetFromPoints s = true → fixSetFromPoints s = s.
Proof.
  unfold noSetFromPoints. rewrite negb_true_iff, includes_false. intros H.
  unfold fixSetFromPoints. apply replaceGlobal_none. intros i.
  unfold reSetFromPoints, seqs. cbn [foldr].
  rewrite m_Seq, m_Grp, m_Seq. apply m_none. intros j1 c1.
  rewrite m_Seq. apply m_none. intros j2 c2.
  rewrite m_Seq, m_Lit.
  destruct (occursAt s (js ".current") j2) eqn:E1; [|done].
  cbn [m]. destruct (occursAt s (js ".setFromPoints(") _) eqn:E2; [|done].
  specialize (H j2). change (js ".current.setFromPoints(")
    with (js ".current" ++ js ".setFromPoints(") in H.
  rewrite occursAt_app, E1, E2 in H. done.
Qed.

Lemma stripComputeBoundingSphere_id (s : jsstring) :
  noComputeBoundingSphere s = true → stripComputeBoundingSphere s = s.
Proof.
  unfold noComputeBoundingSphere. rewrite negb_true_iff, includes_false. intros H.
  unfold stripComputeBoundingSphere. apply replaceGlobal_none. intros i.
  unfold reComputeBoundingSphere, seqs. cbn [foldr].
  rewrite m_Seq. apply m_none. intros j0 c0.
  rewrite m_Seq. apply m_none. intros j1 c1.
  rewrite m_Seq. apply m_none. intros j2 c2.
  rewrite m_Seq, m_Lit. by rewrite H.
Qed.

Lemma materialLoop_id (fuel : nat) (mat s : jsstring) (startIdx : nat) :
  includes s (js "new THREE." ++ mat ++ js "(") = false →
  materialLoop fuel mat s startIdx = s.
Proof.
  rewrite includes_false. intros H. destruct fuel; [done|]. cbn [materialLoop].
  by rewrite (indexOf_absent _ _ _ H).
Qed.

Lemma fixMaterialConstructors_id (s : jsstring) :
  noMaterialConstructors s = true → fixMaterialConstructors s = s.
Proof.
  unfold noMaterialConstructors, fixMaterialConstructors.
  induction R3F_MATERIAL_TYPES as [|mat mats IH]; [done|]. cbn [foldl forallb].
  intros [Hm Hrest]%andb_prop. apply negb_true_iff in Hm.
  rewrite (materialLoop_id _ _ _ _ Hm). by apply IH.
Qed.

(** A text in which no rule of the pipeline finds its pattern goes through
    the sanitizer unchanged. *)
Lemma sanitize_settled (s : jsstring) :
  settled s = true → sanitizeSimulationCode s = s.
Proof.
  unfold settled. intros H.
  apply andb_prop in H as [H Hmat]. apply andb_prop in H as [H Hcbs].
  apply andb_prop in H as [H Hsfp]. apply andb_prop in H as [H Helem].
  apply andb_prop in H as [H Hgeo]. apply andb_prop in H as [H Huni].
  apply andb_prop in H as [Hlines Hhooks].
  unfold sanitizeSimulationCode.
  rewrite (stripShadows_id s Hlines), (hoistConditionalHooks_id s Hhooks),
    (normalizeUnicode_id s Huni), (fixGeometryConstructors_id s Hgeo),
    (fixElementGeometries_id s Helem), (fixSetFromPoints_id s Hsfp),
    (stripComputeBoundingSphere_id s Hcbs).
  by apply fixMaterialConstructors_id.
Qed.

(** C1. The sanitizer is not idempotent.  On [export const THREE = 1;] the
    rule for exports takes the keyword off and returns the line at once, so
    the rule for redeclarations of what the wrapper provides never sees the
    [const THREE = 1;] that is left; only a second pass removes it. *)
Lemma sanitizer_not_idempotent :
  sanitizeSimulationCode exportedShadow = js "const THREE = 1;"
  ∧ sanitizeSimulationCode (sanitizeSimulationCode exportedShadow) = []
  ∧ sanitizeSimulationCode (sanitizeSimulationCode exportedShadow)
    ≠ sanitizeSimulationCode exportedShadow.
Proof. repeat split; vm_compute; [reflexivity..|discriminate]. Qed.

End SanitizerProps.

(** ** The correction loop *)

Module CorrectorProps.
Import JS JSFacts MoreJSFacts JsonText JsonFacts Pieces Corrector.

(** *** [replaceAll] reaches every occurrence *)

Lemma matchPositionsFrom_occur (fuel : nat) (s old : jsstring) (from p : nat) :
  p ∈ matchPositionsFrom fuel s old from → occursAt s old p = true.
Proof.
  revert from; induction fuel as [|fuel IH]; intros from; simpl.
  - by intros ?%elem_of_nil.
  - destruct (length s <? from); [by intros ?%elem_of_nil|].
    destruct (indexOf s old from) as [pos|] eqn:E; [|by intros ?%elem_of_nil].
    intros [->|Hin]%elem_of_cons.
    + by apply indexOf_Some in E as (_ & ? & _).
    + by apply IH in Hin.
Qed.

Lemma matchPositionsFrom_cover (fuel : nat) (s old : jsstring) (from q : nat) :
  old ≠ [] → from ≤ q → occursAt s old q = true → length s - from < fuel →
  ∃ p, p ∈ matchPositionsFrom fuel s old from ∧ p ≤ q ∧ q < p + length old.
Proof.
  intros Hne. revert from; induction fuel as [|fuel IH]; intros from Hq Hocc Hfuel.
  - lia.
  - destruct (occursAt_length _ _ _ Hocc) as [Hlen|]; [|done].
    assert (0 < length old) by (destruct old; [done|simpl; lia]).
    simpl. destruct (length s <? from) eqn:Hlt; [apply Nat.ltb_lt in Hlt; lia|].
    destruct (indexOf s old from) as [pos|] eqn:E.
    + pose proof (indexOf_Some _ _ _ _ E) as (Hle & Hpos & Hmin).
      rewrite Nat.min_l in Hle, Hmin by lia.
      assert (pos ≤ q).
      { destruct (decide (pos ≤ q)); [done|].
        rewrite Hmin in Hocc by lia. done. }
      destruct (decide (q < pos + length old)).
      * exists pos. split; [apply list_elem_of_here|lia].
      * destruct (IH (pos + Nat.max 1 (length old))) as (p & Hp & ?); try lia; [done|].
        exists p. split; [by apply list_elem_of_further|done].
    + rewrite (indexOf_None _ _ _ _ E) in Hocc; [done|]. lia.
Qed.

(** A replacement text without a dollar sign is inserted as it is. *)
Lemma getSubstitution_plain (matched str : jsstring) (position : nat)
    (replacement : jsstring) :
  chDollar ∉ replacement →
  getSubstitution matched str position replacement = replacement.
Proof.
  induction replacement as [|c r IH]; [done|]. intros Hc. cbn [getSubstitution].
  apply not_elem_of_cons in Hc as [Hc Hr].
  destruct (N.eqb c chDollar) eqn:E.
  - apply N.eqb_eq in E. congruence.
  - by rewrite (IH Hr).
Qed.

(** *** The edits are applied one after the other *)

Lemma applySimulationEdits_snoc (code : jsstring) (es : list SimulationEdit)
    (e : SimulationEdit) :
  applySimulationEdits code (es ++ [e]) = applyEdit (applySimulationEdits code es) e.
Proof. unfold applySimulationEdits. by rewrite foldl_snoc. Qed.

Lemma codeBefore_app (code : jsstring) (es es' : list SimulationEdit) (i : nat) :
  i ≤ length es → codeBefore code (es ++ es') i = codeBefore code es i.
Proof. intros H. unfold codeBefore. by rewrite take_app_le. Qed.

Lemma filter_absent_app (code : jsstring) (es es' : list SimulationEdit) :
  List.filter (absentWhenReached code (es ++ es')) (imap pair es)
  = List.filter (absentWhenReached code es) (imap pair es).
Proof.
  apply List.filter_ext_in. intros [i e] Hin.
  apply list_elem_of_In, elem_of_lookup_imap in Hin as (j & y & Heq & Hj).
  injection Heq as -> ->. unfold absentWhenReached. simpl.
  rewrite codeBefore_app; [done|]. apply lookup_lt_Some in Hj. lia.
Qed.

Lemma failedEdits_absent (code : jsstring) (edits : list SimulationEdit) :
  failedEdits (applySimulationEdits code edits) = editsAbsentWhenReached code edits.
Proof.
  induction edits as [|e es IH] using rev_ind; [done|].
  rewrite applySimulationEdits_snoc. unfold editsAbsentWhenReached in *.
  rewrite imap_app, List.filter_app, fmap_app, filter_absent_app, <- IH.
  simpl. unfold absentWhenReached at 1. simpl.
  rewrite Nat.add_0_r. unfold codeBefore. rewrite take_app_length.
  unfold applyEdit.
  destruct (includes (newCode (applySimulationEdits code es)) (old_code e)); simpl.
  - by rewrite app_nil_r.
  - done.
Qed.


(** *** [replaceAll] on a text cut by its matches *)

Section PiecesReplaced.
Variables old new : jsstring.
Hypothesis old_nonempty : old ≠ [].
Hypothesis new_plain : chDollar ∉ new.



End PiecesReplaced.


(** *** The budget and the correction *)

Lemma valid_iff_no_errors (parse : jsstring → Validator.parseOutcome)
    (walkOutcome : Validator.node → Validator.traverseOutcome) (code : jsstring) :
  Validator.valid (Validator.validateSimulationCode parse walkOutcome code) = true
  ↔ Validator.errors (Validator.validateSimulationCode parse walkOutcome code) = [].
Proof.
  unfold Validator.validateSimulationCode.
  destruct (parse code) as [ast|msg|]; simpl.
  - destruct (walkOutcome ast) as [|pushed msg|pushed]; simpl; [|done..].
    destruct (Validator.analyzeScopes _ _) as [errs warns]. simpl.
    rewrite Nat.eqb_eq. by destruct errs.
  - done.
  - done.
Qed.

Section FixProps.
Context {ControlParam : Type}.
Variable parse : jsstring → Validator.parseOutcome.
Variable walkOutcome : Validator.node → Validator.traverseOutcome.
Variable systemPrompt : jsstring.
Variable userPrompt :
jsstring → list ControlParam → jsstring → option jsstring
→ option (list jsstring) → jsstring.
Variable callLLM :
list Request → Request → outcome (@SimulationEditResult ControlParam).

Variables (currentCode : jsstring) (currentParams : list ControlParam)
(errorMessage : jsstring) (errorStack : option jsstring)
(validationWarnings : option (list jsstring)).

Local Abbreviation fix_ :=
(fixSimulationCodeWithPatch parse walkOutcome systemPrompt userPrompt callLLM currentCode
   currentParams errorMessage errorStack validationWarnings).
Local Abbreviation req1 :=
(firstRequest systemPrompt userPrompt currentCode currentParams errorMessage
   errorStack validationWarnings).
Local Abbreviation req2 :=
(retryRequest systemPrompt userPrompt currentCode currentParams errorMessage
   errorStack validationWarnings).

(** A call for a section leaves the budget of that section used up,
  however the call ends, when one correction per section is allowed and
  the counts are not negative. *)
Lemma fix_consumes_section (w : World) (id : Z) :
maxPerSection (budget w) = 1%Z →
(0 ≤ default 0 (perSection (budget w) !! id))%Z →
let w1 := (fix_ (Some id) w).2 in
maxPerSection (budget w1) = 1%Z
∧ (maxPerSection (budget w1) ≤ default 0 (perSection (budget w1) !! id))%Z.
Proof.
intros Hmax Hcount. destruct w as [b reqs]. simpl in *.
unfold fixSimulationCodeWithPatch, consumeErrorCorrectionBudget. simpl.
destruct (maxPerSection b <=? default 0 (perSection b !! id))%Z eqn:Hchk; simpl.
{ apply Z.leb_le in Hchk. done. }
unfold consumeSession. simpl.
assert (maxPerSection b = 1%Z
        ∧ (maxPerSection b
           ≤ default 0 (<[id := (default 0 (perSection b !! id) + 1)%Z]>
                          (perSection b) !! id))%Z) as Hgoal.
{ split; [done|]. rewrite Hmax, lookup_insert_eq. simpl. lia. }
destruct (maxCalls b <? callsUsed b + 1)%Z; simpl; [exact Hgoal|].
unfold issue. simpl.
destruct (callLLM reqs req1) as [result|msg]; simpl; [|exact Hgoal].
destruct (0 <? length _); simpl.
- destruct (callLLM _ _) as [retryResult|msg]; simpl; [|exact Hgoal].
  destruct (0 <? length _); simpl; exact Hgoal.
- exact Hgoal.
Qed.

(** C2. Once the budget of a section is used up, a further correction
  attempt for that section throws before any request is issued: the log
  of requests and the whole budget, the session counter [callsUsed]
  included, are what they were. *)
Theorem exhausted_section_fails_fast (w : World) (id : Z) :
(maxPerSection (budget w) ≤ default 0 (perSection (budget w) !! id))%Z →
fix_ (Some id) w
= (Thrown (sectionLimitMessage id (default 0%Z (perSection (budget w) !! id))
             (maxPerSection (budget w))), w).
Proof.
intros H. destruct w as [b reqs]. simpl in *.
unfold fixSimulationCodeWithPatch, consumeErrorCorrectionBudget. simpl.
apply Z.leb_le in H. by rewrite H.
Qed.

Lemma fix_after_first (w : World) (sectionId : option Z) (b' : Budget)
  (r1 : SimulationEditResult) :
consumeErrorCorrectionBudget sectionId (budget w) = (Returned (), b') →
callLLM (requests w) req1 = Returned r1 →
fix_ sectionId w
= let w1 := mkWorld b' (requests w ++ [req1]) in
  let applied := applySimulationEdits currentCode (default [] (edits r1)) in
  if 0 <? length (failedEdits applied) then
    match callLLM (requests w1) (req2 (failedEdits applied)) with
    | Thrown msg =>
        (Thrown msg, mkWorld b' (requests w1 ++ [req2 (failedEdits applied)]))
    | Returned retryResult =>
        let retryApply :=
          applySimulationEdits currentCode (default [] (edits retryResult)) in
        (if 0 <? length (failedEdits retryApply) then
           Thrown (retryFailureMessage (failedEdits retryApply))
         else finishFix parse walkOutcome currentParams errorMessage (newCode retryApply)
                retryResult,
         mkWorld b' (requests w1 ++ [req2 (failedEdits applied)]))
    end
  else (finishFix parse walkOutcome currentParams errorMessage (newCode applied) r1, w1).
Proof.
intros Hb Hr. unfold fixSimulationCodeWithPatch. rewrite Hb.
unfold issue. simpl. rewrite Hr. simpl.
destruct (0 <? length _); [|done].
destruct (callLLM (requests w ++ [req1]) _) as [retryResult|msg]; [|done].
by destruct (0 <? length (failedEdits (applySimulationEdits currentCode
                                         (default [] (edits retryResult))))).
Qed.

Lemma nonempty_length {A : Type} (l : list A) : l ≠ [] ↔ (0 <? length l) = true.
Proof. destruct l; simpl; split; try done. Qed.

(** C4. When an edit of the answer has an [old_code] that is absent from
    the current code (the code as it stands when the edit is reached),
    exactly one more request, the retry, is issued; and when an edit of the
    retry is absent from the current code in the same way, the attempt throws
    an error whose message holds the quoted [old_code] of every such retry
    edit; the quoted form, read back, gives the [old_code], and it is the
    [old_code] itself between double quotes when no character of it needs an
    escape. *)
Theorem failed_edits_retried_once (w : World) (sectionId : option Z)
    (b' : Budget) (r1 : SimulationEditResult) :
  consumeErrorCorrectionBudget sectionId (budget w) = (Returned (), b') →
  callLLM (requests w) req1 = Returned r1 →
  let failed := editsAbsentWhenReached currentCode (default [] (edits r1)) in
  failed ≠ [] →
  requests (fix_ sectionId w).2 = requests w ++ [req1; req2 failed]
  ∧ ∀ retryResult,
      callLLM (requests w ++ [req1]) (req2 failed) = Returned retryResult →
      let retryFailed :=
        editsAbsentWhenReached currentCode (default [] (edits retryResult)) in
      retryFailed ≠ [] →
      (fix_ sectionId w).1 = Thrown (retryFailureMessage retryFailed)
      ∧ ∀ e, e ∈ retryFailed →
             includes (retryFailureMessage retryFailed)
               (jsonStringify (old_code e)) = true
             ∧ jsonParseString (jsonStringify (old_code e)) = Some (old_code e)
             ∧ (forallb isPlainJsonChar (old_code e) = true →
                includes (retryFailureMessage retryFailed)
                  ([chDQuote] ++ old_code e ++ [chDQuote]) = true).
Proof.
  intros Hb Hr failed Hfailed. rewrite (fix_after_first _ _ _ _ Hb Hr). simpl.
  rewrite failedEdits_absent. fold failed.
  apply nonempty_length in Hfailed as Hlen. rewrite Hlen.
  split.
  - destruct (callLLM (requests w ++ [req1]) _) as [retryResult|msg]; simpl;
      by rewrite <- (assoc_L (++)).
  - intros retryResult Hretry HretryFailed. rewrite Hretry. simpl.
    rewrite failedEdits_absent.
    apply nonempty_length in HretryFailed as Hlen'.
    rewrite Hlen'. split; [done|].
    intros e He.
    set (message := retryFailureMessage _).
    assert (includes message (jsonStringify (old_code e)) = true) as Hnamed.
    { unfold message,  retryFailureMessage. apply includes_app_r. apply includes_join.
      by apply (list_elem_of_fmap_2 (λ e, jsonStringify (old_code e))). }
    split; [done|]. split; [apply jsonParseString_jsonStringify|].
    intros Hplain. by rewrite (jsonStringify_plain _ Hplain) in Hnamed.
Qed.

(** C5. When the edits of a correction have applied in full, the patched
  code goes through the sanitizer and the result through the validator;
  the call returns the sanitized code if the validator has no error, and
  throws if it has one, so code with validation errors is never
  returned. *)
Theorem patched_code_revalidated (w : World) (sectionId : option Z)
  (patched : jsstring) (result : SimulationEditResult) (w' : World) :
patchApplied systemPrompt userPrompt callLLM currentCode currentParams
  errorMessage errorStack validationWarnings sectionId w patched result w' →
let cleanCode := Sanitizer.sanitizeSimulationCode patched in
let validation := Validator.validateSimulationCode parse walkOutcome cleanCode in
fix_ sectionId w
= (if Validator.valid validation then
     Returned (mkConfig (js "Error fix: " ++ errorMessage) cleanCode
                 (default currentParams (params result)) (explanation result))
   else
     Thrown (validationFailureMessage (Validator.errors validation)
               errorMessage),
   w')
∧ (Validator.valid validation = true ↔ Validator.errors validation = []).
Proof.
intros (b' & r1 & Hb & Hr & Hcase) cleanCode validation.
split; [|apply valid_iff_no_errors].
rewrite (fix_after_first _ _ _ _ Hb Hr). simpl.
destruct Hcase as [(Hnone & -> & -> & ->)|(Hsome & Hretry & Hnone & -> & ->)].
- rewrite Hnone. simpl. unfold finishFix. fold cleanCode validation.
  by destruct (Validator.valid validation).
- apply nonempty_length in Hsome. rewrite Hsome, Hretry. simpl.
  rewrite Hnone. simpl. unfold finishFix. fold cleanCode validation.
  rewrite <- (assoc_L (++)). by destruct (Validator.valid validation).
Qed.
End FixProps.

(** *** The properties on the example session *)

Import Examples.


Lemma exhausted_section_fails_fast_witness :
  exampleFix helpfulLLM (Some 7%Z) worldAfterFirstFix
  = (Thrown (sectionLimitMessage 7 1 1), worldAfterFirstFix).
Proof.
  apply (exhausted_section_fails_fast parseExamples walkExamples (js "You are a code editor.")
           examplePrompt helpfulLLM brokenCode [] (js "parms is not defined") None
           None worldAfterFirstFix 7%Z).
  vm_compute. discriminate.
Defined.

Lemma failed_edits_retried_once_witness :
  length (requests (exampleFix haplessLLM (Some 7%Z) freshWorld).2) = 2
  ∧ (exampleFix haplessLLM (Some 7%Z) freshWorld).1
    = Thrown (retryFailureMessage
                [mkEdit (js "prams") (js "params");
                 mkEdit (js "return;") (js "return params;")]).
Proof.
  destruct (failed_edits_retried_once parseExamples walkExamples (js "You are a code editor.")
              examplePrompt haplessLLM brokenCode [] (js "parms is not defined")
              None None freshWorld (Some 7%Z)
              (mkBudget 3 1 (<[7%Z := 1%Z]> ∅) 1)
              (mkEditResult (js "first try")
                 (Some [mkEdit (js "param") (js "params")]) None))
    as [Hlog Hretry].
  - reflexivity.
  - reflexivity.
  - vm_compute. discriminate.
  - split.
    + unfold exampleFix. rewrite Hlog. reflexivity.
    + refine (proj1 (Hretry (mkEditResult (js "second try")
                               (Some [mkEdit (js "prams") (js "params");
                                      mkEdit (js "return;") (js "return params;")])
                               None) eq_refl _)).
      vm_compute. discriminate.
Defined.

Lemma patched_code_revalidated_witness :
  (exampleFix helpfulLLM (Some 7%Z) freshWorld).1
  = Returned (mkConfig (js "Error fix: parms is not defined") (js "return params;")
                [] (js "fixed the name")).
Proof.
  refine (f_equal fst
            (proj1 (patched_code_revalidated parseExamples walkExamples
                      (js "You are a code editor.") examplePrompt helpfulLLM
                      brokenCode [] (js "parms is not defined") None None freshWorld
                      (Some 7%Z) (js "return params;")
                      (mkEditResult (js "fixed the name")
                         (Some [mkEdit (js "parms") (js "params")]) None)
                      worldAfterFirstFix _))).
  exists (mkBudget 3 1 (<[7%Z := 1%Z]> ∅) 1).
  exists (mkEditResult (js "fixed the name")
            (Some [mkEdit (js "parms") (js "params")]) None).
  split; [reflexivity|]. split; [reflexivity|]. left.
  split; [reflexivity|]. split; [reflexivity|]. split; reflexivity.
Defined.

End CorrectorProps.

(** ** The validator *)

Module ValidatorProps.
Import JS JSFacts Validator.

(** *** Maps in insertion order *)

Lemma streq_true (a b : jsstring) : streq a b = true ↔ a = b.
Proof. unfold streq. apply bool_decide_eq_true. Qed.

Lemma streq_false (a b : jsstring) : streq a b = false ↔ a ≠ b.
Proof. unfold streq. apply bool_decide_eq_false. Qed.

Lemma mapSet_keys {V : Type} (m : list (jsstring * V)) (k : jsstring) (v : V) :
  (mapSet m k v).*1 = if bool_decide (k ∈ m.*1) then m.*1 else m.*1 ++ [k].
Proof.
  induction m as [|[k' v'] m IH]; [done|]. cbn [mapSet].
  destruct (streq k k') eqn:E; rewrite !fmap_cons; cbn [fst].
  - apply streq_true in E as ->. rewrite bool_decide_eq_true_2; [done|].
    apply list_elem_of_here.
  - apply streq_false in E. rewrite IH.
    destruct (bool_decide (k ∈ m.*1)) eqn:Hin.
    + apply bool_decide_eq_true in Hin. rewrite bool_decide_eq_true_2; [done|].
      by apply list_elem_of_further.
    + apply bool_decide_eq_false in Hin. rewrite bool_decide_eq_false_2; [done|].
      rewrite elem_of_cons. intros [?|?]; done.
Qed.

Lemma mapSet_NoDup {V : Type} (m : list (jsstring * V)) (k : jsstring) (v : V) :
  NoDup m.*1 → NoDup (mapSet m k v).*1.
Proof.
  intros H. rewrite mapSet_keys. case_bool_decide as Hin; [done|].
  apply NoDup_app. split; [done|]. split; [|apply NoDup_singleton].
  intros x Hx ->%list_elem_of_singleton. done.
Qed.

Lemma mapGet_None {V : Type} (m : list (jsstring * V)) (k : jsstring) :
  mapGet m k = None ↔ k ∉ m.*1.
Proof.
  induction m as [|[k' v'] m IH].
  - split; [intros _; apply not_elem_of_nil|done].
  - cbn [mapGet]. rewrite fmap_cons. cbn [fst]. destruct (streq k k') eqn:E.
    + apply streq_true in E as ->. split; [done|]. intros H. destruct H.
      apply list_elem_of_here.
    + apply streq_false in E. rewrite IH, not_elem_of_cons. tauto.
Qed.

Lemma mapGet_Some_elem {V : Type} (m : list (jsstring * V)) (k : jsstring) (v : V) :
  mapGet m k = Some v → (k, v) ∈ m.
Proof.
  induction m as [|[k' v'] m IH]; simpl; [done|].
  destruct (streq k k') eqn:E.
  - apply streq_true in E as ->. intros [= ->]. apply list_elem_of_here.
  - intros H. apply list_elem_of_further. by apply IH.
Qed.

(** *** The walk keeps the scopes well-formed *)

Lemma node_induction (P : node → Prop) :
  (∀ ty line children, Forall (λ kc, P kc.2) children → P (Node ty line children)) →
  ∀ n, P n.
Proof.
  intros Hnode. fix IH 1. intros [ty line children]. apply Hnode.
  induction children as [|[k c] cs IHcs]; constructor; [apply IH|apply IHcs].
Qed.

Lemma updateCurrent_wf (f : ScopeInfo → ScopeInfo) (st : WalkState) :
  (∀ sc, NoDup (usages sc).*1 → NoDup (usages (f sc)).*1) →
  wfWalk st → wfWalk (updateCurrent f st).
Proof.
  intros Hf H. unfold wfWalk, wellFormedScopes, updateCurrent in *. simpl.
  apply Forall_alter; [done|]. intros sc _ Hsc. by apply Hf.
Qed.

Lemma declare_wf (name : jsstring) (line : nat) (st : WalkState) :
  wfWalk st → wfWalk (declare name line st).
Proof. apply updateCurrent_wf. by intros sc. Qed.

Lemma recordUsage_wf (name : jsstring) (line : nat) (st : WalkState) :
  wfWalk st → wfWalk (recordUsage name line st).
Proof. apply updateCurrent_wf. intros sc. simpl. apply mapSet_NoDup. Qed.

Lemma pushScope_wf (names : list jsstring) (st : WalkState) :
  wfWalk st → wfWalk (pushScope names st).
Proof.
  intros H. unfold wfWalk, wellFormedScopes, pushScope in *. simpl.
  apply Forall_app. split; [done|]. constructor; [|done]. simpl. apply NoDup_nil_2.
Qed.

Lemma foldl_wf {A : Type} (f : WalkState → A → WalkState) (l : list A)
    (st : WalkState) :
  (∀ st x, wfWalk st → wfWalk (f st x)) → wfWalk st → wfWalk (foldl f st l).
Proof. intros Hf. revert st; induction l; simpl; auto. Qed.

Lemma onVariableDeclarator_wf (n : node) (st : WalkState) :
  wfWalk st → wfWalk (onVariableDeclarator n st).
Proof.
  intros H. unfold onVariableDeclarator.
  destruct (nodeField n Kid) as [id|]; [|done].
  destruct (nodeTy id); try done.
  - destruct (nodeField n Kinit) as [init|]; [|by apply declare_wf].
    destruct (bindsGeometryElement init); by apply declare_wf.
  - apply foldl_wf; [|done]. intros st' prop Hst'.
    destruct (nodeTy prop); try done.
    + destruct (nodeTy <$> nodeField prop Kvalue) as [[]|]; try done.
      by apply declare_wf.
    + destruct (nodeTy <$> nodeField prop Kargument) as [[]|]; try done.
      by apply declare_wf.
  - apply foldl_wf; [|done]. intros st' el Hst'.
    destruct (nodeTy el); try done. by apply declare_wf.
Qed.

Lemma enterNode_wf (parent : option node) (key : fieldKey) (n : node)
    (st : WalkState) :
  wfWalk st → wfWalk (enterNode parent key n st).
Proof.
  intros H. unfold enterNode. destruct (nodeTy n) eqn:Hty; try done;
    try (by apply pushScope_wf).
  - unfold onIdentifier. rewrite Hty. destruct (notAUsage parent key); [done|].
    by apply recordUsage_wf.
  - apply pushScope_wf. unfold onFunctionDeclaration.
    destruct (nodeTy <$> nodeField n Kid) as [[]|]; try done. by apply declare_wf.
  - destruct (blockNeedsScope parent); [by apply pushScope_wf|done].
  - by apply onVariableDeclarator_wf.
  - unfold onMemberExpression.
    destruct (nodeTy <$> nodeField n Kobject) as [[]|]; try done.
    destruct (nodeTy <$> nodeField n Kproperty) as [[]|]; try done.
    by destruct (_ && _).
Qed.

Lemma exitNode_wf (parent : option node) (n : node) (st : WalkState) :
  wfWalk st → wfWalk (exitNode parent n st).
Proof.
  intros H. unfold exitNode. destruct (nodeTy n); try done.
  by destruct (blockNeedsScope parent).
Qed.

Lemma traverse_wf (n : node) :
  ∀ parent key st, wfWalk st → wfWalk (traverse parent key n st).
Proof.
  induction n as [ty line children IH] using node_induction.
  intros parent key st H. simpl. apply exitNode_wf.
  assert (wfWalk (enterNode parent key (Node ty line children) st)) as H'
    by by apply enterNode_wf.
  revert H'. generalize (enterNode parent key (Node ty line children) st).
  generalize (Some (Node ty line children)) as p.
  induction IH as [|[k c] cs Hc _ IHcs]; intros p st' H'; simpl; [done|].
  apply IHcs. by apply Hc.
Qed.

Lemma walkProgram_wf (ast : node) : wellFormedScopes (allScopes (walkProgram ast)).
Proof.
  apply traverse_wf. unfold wfWalk, wellFormedScopes. simpl.
  constructor; [apply NoDup_nil_2|done].
Qed.

(** *** The analysis only ever appends *)

Lemma checkUsage_app (scopes : list ScopeInfo) (i : nat)
    (acc : list ValidationError * list jsstring) (u : jsstring * list nat) :
  checkUsage scopes i acc u
  = (acc.1 ++ usageErrors scopes i u, acc.2 ++ usageWarnings scopes i u).
Proof.
  unfold usageErrors, usageWarnings, checkUsage. destruct u as [v lines], acc as [e w].
  simpl. destruct (isKnownGlobal v); simpl; [by rewrite !app_nil_r|].
  destruct (resolve scopes i v) as [|d ds|]; simpl; try by rewrite !app_nil_r.
  destruct (_ && _); simpl; [|by rewrite !app_nil_r].
  destruct (List.filter _ lines); simpl; by rewrite !app_nil_r.
Qed.

Lemma checkScope_app (scopes : list ScopeInfo) (us : list (jsstring * list nat))
    (i : nat) (acc : list ValidationError * list jsstring) :
  foldl (checkUsage scopes i) acc us
  = (acc.1 ++ flat_map (usageErrors scopes i) us,
     acc.2 ++ flat_map (usageWarnings scopes i) us).
Proof.
  revert acc; induction us as [|u us IH]; intros [e w]; simpl.
  - by rewrite !app_nil_r.
  - rewrite IH, checkUsage_app. simpl. by rewrite <- !(assoc_L (++)).
Qed.

Lemma analyze_app (scopes : list ScopeInfo) (iscs : list (nat * ScopeInfo))
    (acc : list ValidationError * list jsstring) :
  foldl (checkScope scopes) acc iscs
  = (acc.1 ++ flat_map (scopeErrors scopes) iscs,
     acc.2 ++ flat_map (scopeWarnings scopes) iscs).
Proof.
  revert acc; induction iscs as [|isc iscs IH]; intros [e w]; simpl.
  - by rewrite !app_nil_r.
  - rewrite IH. unfold checkScope. rewrite checkScope_app. simpl.
    by rewrite <- !(assoc_L (++)).
Qed.

Lemma errorsFor_app (X : jsstring) (a b : list ValidationError) :
  errorsFor X (a ++ b) = errorsFor X a ++ errorsFor X b.
Proof. apply List.filter_app. Qed.

(** The errors one entry contributes carry the name of the entry. *)
Lemma errorsFor_usage (scopes : list ScopeInfo) (i : nat) (X v : jsstring)
    (lines : list nat) :
  errorsFor X (usageErrors scopes i (v, lines))
  = if streq v X then usageErrors scopes i (v, lines) else [].
Proof.
  unfold usageErrors, checkUsage. simpl.
  destruct (isKnownGlobal v); simpl; [by destruct (streq v X)|].
  destruct (resolve scopes i v) as [|d ds|]; simpl.
  - by destruct (streq v X).
  - destruct (_ && _); simpl; [|by destruct (streq v X)].
    destruct (List.filter _ lines); simpl; by destruct (streq v X).
  - by destruct (streq v X).
Qed.

Lemma errorsFor_scope (scopes : list ScopeInfo) (i : nat) (X : jsstring)
    (us : list (jsstring * list nat)) :
  NoDup us.*1 →
  errorsFor X (flat_map (usageErrors scopes i) us)
  = match mapGet us X with
    | Some lines => usageErrors scopes i (X, lines)
    | None => []
    end.
Proof.
  induction us as [|[v lines] us IH]; [done|].
  rewrite fmap_cons. cbn [fst]. intros [Hv Hnd]%NoDup_cons.
  cbn [flat_map mapGet]. rewrite errorsFor_app, errorsFor_usage, (IH Hnd).
  destruct (streq X v) eqn:E.
  - apply streq_true in E as ->. rewrite (proj2 (streq_true v v) eq_refl).
    apply mapGet_None in Hv. rewrite Hv. by rewrite app_nil_r.
  - apply streq_false in E. rewrite (proj2 (streq_false v X)); [done|]. done.
Qed.

Lemma usageErrors_undeclared (scopes : list ScopeInfo) (i : nat) (X : jsstring)
    (lines : list nat) :
  isKnownGlobal X = false → resolve scopes i X = NotDeclared →
  usageErrors scopes i (X, lines) = [undefinedError X (default 0 (head lines))].
Proof. intros Hk Hr. unfold usageErrors, checkUsage. by rewrite Hk, Hr. Qed.

Lemma errorsFor_scopes (scopes : list ScopeInfo) (X : jsstring)
    (iscs : list (nat * ScopeInfo)) :
  isKnownGlobal X = false →
  Forall (λ isc, NoDup (usages isc.2).*1) iscs →
  (∀ i lines,
      (i, lines) ∈ omap (λ isc : nat * ScopeInfo,
                           (λ lines, (isc.1, lines)) <$> mapGet (usages isc.2) X) iscs →
      resolve scopes i X = NotDeclared) →
  errorsFor X (flat_map (scopeErrors scopes) iscs)
  = (λ r : nat * list nat, undefinedError X (default 0 (head r.2)))
      <$> omap (λ isc : nat * ScopeInfo,
                  (λ lines, (isc.1, lines)) <$> mapGet (usages isc.2) X) iscs.
Proof.
  intros Hk. induction iscs as [|[i sc] iscs IH]; [done|].
  intros [Hnd Hall]%Forall_cons Hres.
  change (flat_map (scopeErrors scopes) ((i, sc) :: iscs))
    with (flat_map (usageErrors scopes i) (usages sc)
            ++ flat_map (scopeErrors scopes) iscs).
  rewrite errorsFor_app, (errorsFor_scope _ _ _ _ Hnd).
  assert (∀ f : nat * ScopeInfo → option (nat * list nat),
            omap f ((i, sc) :: iscs)
            = match f (i, sc) with Some y => y :: omap f iscs | None => omap f iscs end)
    as Homap by done.
  rewrite Homap in Hres |- *. cbn [fst snd] in Hres |- *.
  destruct (mapGet (usages sc) X) as [lines|] eqn:E; cbn [fmap option_fmap option_map] in Hres |- *.
  - rewrite usageErrors_undeclared; [|done|].
    + rewrite fmap_cons. cbn [snd app]. f_equal. apply IH; [done|].
      intros i' lines' Hin. apply (Hres i' lines'). by apply list_elem_of_further.
    + apply (Hres i lines). apply list_elem_of_here.
  - apply IH; [done|]. intros i' lines' Hin. by apply (Hres i' lines').
Qed.

Lemma wellFormed_imap (scopes : list ScopeInfo) :
  wellFormedScopes scopes → Forall (λ isc, NoDup (usages isc.2).*1) (imap pair scopes).
Proof.
  unfold wellFormedScopes. rewrite !Forall_forall. intros H [i sc] Hin.
  apply elem_of_lookup_imap in Hin as (j & y & [= -> ->] & Hj).
  apply H. by eapply list_elem_of_lookup_2.
Qed.

Lemma validate_parsed (parse : jsstring → parseOutcome)
    (walkOutcome : node → traverseOutcome) (code : jsstring) (ast : node) :
  parse code = Parsed ast → walkOutcome ast = Walked →
  let scopes := allScopes (walkProgram ast) in
  let r := validateSimulationCode parse walkOutcome code in
  errors r = flat_map (scopeErrors scopes) (imap pair scopes)
  ∧ valid r = (length (errors r) =? 0)
  ∧ ∀ w, w ∈ walkWarnings (walkProgram ast) ++ flat_map (scopeWarnings scopes) (imap pair scopes)
         → ∃ ws, warnings r = Some ws ∧ w ∈ ws.
Proof.
  intros Hp Hend. unfold validateSimulationCode. rewrite Hp, Hend.
  simpl. unfold analyzeScopes. rewrite analyze_app. simpl.
  split; [done|]. split; [done|]. intros w Hw.
  destruct (_ ++ _) as [|w0 ws] eqn:E; [by apply elem_of_nil in Hw|].
  simpl. eauto.
Qed.

(** C3 (amended). In a program that parses and that the walker walks to
    its end, a name [X] outside the allow-list that no scope of the chain
    declares, wherever it is read, gets exactly one error of type undefined
    per scope in which it is read, in the order of the scopes, each citing
    the first read recorded in that scope; and then the code is not valid. *)
Theorem undefined_identifier_once_per_scope (parse : jsstring → parseOutcome)
    (walkOutcome : node → traverseOutcome) (code : jsstring) (ast : node)
    (X : jsstring) :
  parse code = Parsed ast →
  walkOutcome ast = Walked →
  isKnownGlobal X = false →
  let scopes := allScopes (walkProgram ast) in
  (∀ i lines, (i, lines) ∈ readersOf scopes X → resolve scopes i X = NotDeclared) →
  let r := validateSimulationCode parse walkOutcome code in
  errorsFor X (errors r)
  = (λ reader : nat * list nat, undefinedError X (default 0 (head reader.2)))
      <$> readersOf scopes X
  ∧ (readersOf scopes X ≠ [] → valid r = false).
Proof.
  intros Hp Hw Hk scopes Hres r.
  destruct (validate_parsed parse walkOutcome code ast Hp Hw) as (Herr & Hvalid & _).
  fold scopes r in Herr, Hvalid.
  assert (errorsFor X (errors r)
          = (λ reader : nat * list nat, undefinedError X (default 0 (head reader.2)))
              <$> readersOf scopes X) as Heq.
  { rewrite Herr. apply errorsFor_scopes; [done| |done].
    apply wellFormed_imap, walkProgram_wf. }
  split; [done|]. intros Hne. rewrite Hvalid.
  destruct (errors r) as [|e es]; [|done].
  destruct (readersOf scopes X); [done|]. done.
Qed.


(** *** The walk records the reads in the order it reaches them *)



















(** *** The properties on the example programs *)

Import Examples.

(** C3, as stated, fails: [foo] is read at the top level and inside [f] and
    is declared nowhere; the validator reports it twice, the second time at
    line 3, which is not the line of its first read. *)
Lemma undefined_identifier_reported_twice :
  errorsFor (js "foo")
    (errors (validateSimulationCode parseExamples walkExamples readInTwoScopesCode))
  = [undefinedError (js "foo") 1; undefinedError (js "foo") 3]
  ∧ length (errorsFor (js "foo")
              (errors (validateSimulationCode parseExamples walkExamples readInTwoScopesCode)))
    ≠ 1.
Proof. split; vm_compute; [reflexivity|discriminate]. Qed.

(** Where the walker throws, its exception is the one error of the result,
    and a name that is read and declared nowhere goes unreported. *)
Lemma walker_exception_is_the_only_error :
  validateSimulationCode parseDuplicateLet walkDuplicateLet duplicateLetCode
  = mkResult false
      [mkError ErrSyntax [] 0 0 (js "Syntax error: " ++ duplicateDeclaration)] None
  ∧ errorsFor (js "foo")
      (errors (validateSimulationCode parseDuplicateLet walkDuplicateLet
                 duplicateLetCode))
    = []
  ∧ readersOf (allScopes (walkProgram duplicateLet)) (js "foo") = [(0, [3])].
Proof. repeat split; vm_compute; reflexivity. Qed.

Lemma undefined_identifier_once_per_scope_witness :
  errorsFor (js "foo")
    (errors (validateSimulationCode parseExamples walkExamples readInTwoScopesCode))
  = (λ reader : nat * list nat,
       undefinedError (js "foo") (default 0 (head reader.2)))
      <$> readersOf (allScopes (walkProgram readInTwoScopes)) (js "foo")
  ∧ (readersOf (allScopes (walkProgram readInTwoScopes)) (js "foo") ≠ [] →
     valid (validateSimulationCode parseExamples walkExamples readInTwoScopesCode) = false).
Proof.
  apply (undefined_identifier_once_per_scope parseExamples walkExamples
           readInTwoScopesCode readInTwoScopes (js "foo")).
  - reflexivity.
  - reflexivity.
  - vm_compute. reflexivity.
  - intros i lines Hin.
    assert (readersOf (allScopes (walkProgram readInTwoScopes)) (js "foo")
            = [(0, [1]); (1, [3])]) as Heq by (vm_compute; reflexivity).
    rewrite Heq in Hin.
    apply elem_of_cons in Hin as [[= -> ->]|Hin]; [vm_compute; reflexivity|].
    apply elem_of_cons in Hin as [[= -> ->]|Hin]; [vm_compute; reflexivity|].
    by apply elem_of_nil in Hin.
Defined.



End ValidatorProps.

(** ** Guarded event handlers *)

Module ThreeSandboxProps.
Import JS JSFacts ThreeSandbox.

Lemma mapGet_mapSet {V : Type} (m : list (jsstring * V)) (k k' : jsstring) (v : V) :
  mapGet (mapSet m k v) k' = if streq k' k then Some v else mapGet m k'.
Proof.
  induction m as [|[k0 v0] m IH]; cbn [mapSet mapGet].
  - done.
  - destruct (streq k k0) eqn:E; cbn [mapGet].
    + apply bool_decide_eq_true in E as ->. by destruct (streq k' k0).
    + rewrite IH. destruct (streq k' k0) eqn:E'; [|done].
      apply bool_decide_eq_true in E' as ->.
      unfold streq in *. by rewrite bool_decide_eq_false_2
        by (apply bool_decide_eq_false in E; congruence).
Qed.

Section WrapProps.
Context {Value Args : Type}.
Implicit Types props : list (jsstring * @propValue Value Args).

Lemma guardKey_lookup props (key k : jsstring) :
mapGet (guardKey props key) k
= if streq k key then guardedValue (mapGet props k) k else mapGet props k.
Proof.
unfold guardKey. destruct (streq k key) eqn:E.
- apply bool_decide_eq_true in E as ->.
  destruct (mapGet props key) as [[f|v]|] eqn:Hget; simpl; [|by rewrite Hget..].
  rewrite mapGet_mapSet. unfold streq. by rewrite bool_decide_eq_true_2.
- destruct (mapGet props key) as [[f|v]|]; [|done..].
  by rewrite mapGet_mapSet, E.
Qed.

Lemma foldl_guardKey_lookup (keys : list jsstring) props (k : jsstring) :
NoDup keys →
mapGet (foldl guardKey props keys) k
= if bool_decide (k ∈ keys) then guardedValue (mapGet props k) k
  else mapGet props k.
Proof.
revert props; induction keys as [|key keys IH]; intros props Hnd; [done|].
apply NoDup_cons in Hnd as [Hkey Hnd]. simpl. rewrite (IH _ Hnd), guardKey_lookup.
destruct (streq k key) eqn:E.
- apply bool_decide_eq_true in E as ->.
  rewrite (bool_decide_eq_false_2 _ Hkey).
  rewrite bool_decide_eq_true_2; [done|apply list_elem_of_here].
- apply bool_decide_eq_false in E.
  destruct (bool_decide (k ∈ keys)) eqn:Hin.
  + apply bool_decide_eq_true in Hin. rewrite bool_decide_eq_true_2; [done|].
    by apply list_elem_of_further.
  + apply bool_decide_eq_false in Hin. rewrite bool_decide_eq_false_2; [done|].
    rewrite elem_of_cons. tauto.
Qed.

Lemma mapGet_Some_key {V : Type} (m : list (jsstring * V)) (k : jsstring) (v : V) :
mapGet m k = Some v → k ∈ m.*1.
Proof.
induction m as [|[k0 v0] m IH]; [done|]. cbn [mapGet]. rewrite fmap_cons.
destruct (streq k k0) eqn:E.
- apply bool_decide_eq_true in E as ->. intros _. apply list_elem_of_here.
- intros H. apply list_elem_of_further. by apply IH.
Qed.

Lemma runGuarded_cons (key : jsstring) (g : Args → @callResult Value) (args : Args)
  (calls : list (jsstring * (Args → @callResult Value) * Args)) (st : RefState) :
runGuarded ((key, g, args) :: calls) st
= runGuarded calls (guarded key (userFunction g) args st).2.
Proof. done. Qed.

Lemma guarded_user (key : jsstring) (g : Args → @callResult Value) (args : Args)
  (st : RefState) :
guarded key (userFunction g) args st
= match g args with
  | Returns v => (Returns v, st)
  | Throws t =>
      match fired st, current st with
      | false, Some handler =>
          (Returns None,
           mkRef (current st) true (reported st ++ [(handler, toError t)]))
      | _, _ => (Returns None, st)
      end
  end.
Proof. unfold guarded, userFunction. by destruct (g args). Qed.

Lemma runGuarded_reports (h : nat)
  (calls : list (jsstring * (Args → @callResult Value) * Args)) (st : RefState) :
current st = Some h →
let st' := runGuarded calls st in
current st' = Some h
∧ reported st'
  = reported st
    ++ (if fired st then []
        else match firstThrown calls with
             | Some t => [(h, toError t)]
             | None => []
             end)
∧ fired st' = fired st || bool_decide (is_Some (firstThrown calls)).
Proof.
revert st; induction calls as [|[[key g] args] calls IH]; intros st Hcur.
- simpl. rewrite orb_false_r. split; [done|]. split; [|done].
  destruct (fired st); by rewrite app_nil_r.
- cbv zeta. rewrite runGuarded_cons, guarded_user. cbn [firstThrown].
  destruct (g args) as [v|t]; cbn [snd].
  + apply (IH st Hcur).
  + destruct (fired st) eqn:Hf; [|rewrite Hcur]; cbn [snd].
    * destruct (IH st Hcur) as (H1 & H2 & H3). rewrite Hf in H2, H3.
      split; [done|]. split; [done|]. by rewrite H3.
    * destruct (IH (mkRef (Some h) true (reported st ++ [(h, toError t)]))
                  eq_refl) as (H1 & H2 & H3).
      simpl in H2, H3. rewrite app_nil_r in H2. done.
Qed.

(** C8 (amended). With an error handler registered, the handler step of
  element creation puts a guard around every property whose name starts
  with [on] and an upper-case letter and whose value is a function, and
  leaves every other property alone.  A guarded handler never lets an
  exception out.  In a run of calls of guarded handlers the error handler
  receives the first exception, if the flag [fired] was clear at the start
  and some call throws, and nothing else: one report at most, whatever the
  handlers and the errors are. *)
Theorem guarded_handlers_report_first_error (st : RefState) (h : nat) props
  (calls : list (jsstring * (Args → @callResult Value) * Args)) :
current st = Some h →
NoDup props.*1 →
(∃ props',
    wrapHandlers st (Some props) = Some props'
    ∧ (∀ k f, mapGet props k = Some (Callable f) → isHandlerKey k = true →
              mapGet props' k = Some (Callable (guarded k f)))
    ∧ (∀ k, isHandlerKey k && isCallable (mapGet props k) = false →
            mapGet props' k = mapGet props k))
∧ (∀ k (g : Args → @callResult Value) args st0, ∃ v st1,
      guarded k (userFunction g) args st0 = (Returns v, st1))
∧ let st' := runGuarded calls st in
  current st' = Some h
  ∧ reported st'
    = reported st
      ++ (if fired st then []
          else match firstThrown calls with
               | Some t => [(h, toError t)]
               | None => []
               end)
  ∧ fired st' = fired st || bool_decide (is_Some (firstThrown calls)).
Proof.
intros Hcur Hnd. split; [|split].
- unfold wrapHandlers. rewrite Hcur.
  set (handlerKeys :=
         List.filter (λ k, isHandlerKey k && isCallable (mapGet props k)) props.*1).
  assert (NoDup handlerKeys) as Hnd'.
  { apply NoDup_ListNoDup, List.NoDup_filter, NoDup_ListNoDup, Hnd. }
  assert (∀ k, k ∈ handlerKeys
               ↔ k ∈ props.*1 ∧ isHandlerKey k && isCallable (mapGet props k) = true)
    as Hmem.
  { intros k. unfold handlerKeys. rewrite !list_elem_of_In. apply List.filter_In. }
  destruct (0 <? length handlerKeys) eqn:Hlen.
  + exists (foldl guardKey props handlerKeys). split; [done|]. split.
    * intros k f Hget Hkey. rewrite (foldl_guardKey_lookup _ _ _ Hnd').
      rewrite bool_decide_eq_true_2; [by rewrite Hget|].
      apply Hmem. split; [by eapply mapGet_Some_key|]. by rewrite Hkey, Hget.
    * intros k Hk. rewrite (foldl_guardKey_lookup _ _ _ Hnd').
      rewrite bool_decide_eq_false_2; [done|].
      rewrite Hmem. intros [_ H]. congruence.
  + exists props. split; [done|]. split; [|done].
    intros k f Hget Hkey. apply Nat.ltb_ge in Hlen.
    assert (k ∈ handlerKeys) as Hin.
    { apply Hmem. split; [by eapply mapGet_Some_key|]. by rewrite Hkey, Hget. }
    destruct handlerKeys; [by apply elem_of_nil in Hin|simpl in Hlen; lia].
- intros k g args st0. unfold guarded, userFunction.
  destruct (g args) as [v|t]; [by eauto|].
  destruct (fired st0), (current st0); eauto.
- by apply runGuarded_reports.
Qed.
End WrapProps.

(** *** The property on example handlers *)

Import Examples.

(** C8, as stated, fails: two handlers throw two different errors, and only
    the first reaches the error handler. *)
Lemma second_error_never_reported :
  reported (runGuarded exampleCalls listening)
  = [(1, mkErrorObj (js "click failed"))]
  ∧ (1, mkErrorObj (js "move failed")) ∉ reported (runGuarded exampleCalls listening).
Proof.
  assert (reported (runGuarded exampleCalls listening)
          = [(1, mkErrorObj (js "click failed"))]) as H by (vm_compute; reflexivity).
  split; [done|]. rewrite H. intros [Heq|Hin]%elem_of_cons.
  - vm_compute in Heq. discriminate.
  - by apply elem_of_nil in Hin.
Qed.

Lemma guarded_handlers_report_first_error_witness :
  reported (runGuarded exampleCalls listening)
  = reported listening ++ [(1, toError (ThrownErrorObj (mkErrorObj (js "click failed"))))].
Proof.
  refine (proj1 (proj2 (proj2 (proj2
            (guarded_handlers_report_first_error listening 1 exampleProps
               exampleCalls eq_refl _))))).
  apply (bool_decide_unpack _). vm_compute. exact I.
Defined.

End ThreeSandboxProps.


(** ** The budget over a session *)

Module BudgetProps.
Import JS Corrector BudgetRuns.

Lemma consume_cases (id : option Z) (b : Budget) :
  let '(o, b') := consumeErrorCorrectionBudget id b in
  maxCalls b' = maxCalls b ∧ maxPerSection b' = maxPerSection b
  ∧ ((granted o = true ∧ callsUsed b' = (callsUsed b + 1)%Z
      ∧ (callsUsed b' ≤ maxCalls b)%Z)
     ∨ (granted o = false ∧ (callsUsed b ≤ callsUsed b')%Z)).
Proof.
  unfold consumeErrorCorrectionBudget, consumeSession.
  destruct id as [id|]; simpl.
  - destruct (maxPerSection b <=? _)%Z; simpl.
    { split; [done|]. split; [done|]. right. split; [done|lia]. }
    destruct (maxCalls b <? callsUsed b + 1)%Z eqn:E; simpl.
    + split; [done|]. split; [done|]. right. split; [done|lia].
    + apply Z.ltb_ge in E. split; [done|]. split; [done|]. left.
      split; [done|]. split; [done|lia].
  - destruct (maxCalls b <? callsUsed b + 1)%Z eqn:E; simpl.
    + split; [done|]. split; [done|]. right. split; [done|lia].
    + apply Z.ltb_ge in E. split; [done|]. split; [done|]. left.
      split; [done|]. split; [done|lia].
Qed.

Lemma grants_bounded (ids : list (option Z)) (b : Budget) :
  length (List.filter granted (consumeAll ids b).1)
  ≤ Z.to_nat (maxCalls b - callsUsed b).
Proof.
  revert b; induction ids as [|id ids IH]; intros b; simpl; [lia|].
  pose proof (consume_cases id b) as H.
  destruct (consumeErrorCorrectionBudget id b) as [o b'].
  specialize (IH b'). destruct (consumeAll ids b') as [os b'']. simpl in *.
  destruct H as (Hm & _ & [(Hg & Hc & Hle)|(Hg & Hc)]); rewrite Hg; simpl; lia.
Qed.

(** X1. After [initErrorCorrectionBudget sectionCount], however many
    times [consumeErrorCorrectionBudget] is called and for whichever sections,
    at most [sectionCount] of the calls return; all the others throw. *)
Theorem session_grants_bounded (sectionCount : Z) (b0 : Budget)
    (ids : list (option Z)) :
  length (List.filter granted
            (consumeAll ids (initErrorCorrectionBudget sectionCount b0)).1)
  ≤ Z.to_nat sectionCount.
Proof.
  etrans; [apply grants_bounded|]. simpl. lia.
Qed.

Lemma grantsFor_cons (id : Z) (i : option Z) (ids : list (option Z))
    (o : outcome ()) (os : list (outcome ())) :
  grantsFor id (i :: ids) (o :: os)
  = (if bool_decide (i = Some id) && granted o then 1 else 0) + grantsFor id ids os.
Proof.
  unfold grantsFor. simpl. by destruct (bool_decide (i = Some id) && granted o).
Qed.

Lemma section_grants_left (id : Z) (ids : list (option Z)) (b : Budget) :
  grantsFor id ids (consumeAll ids b).1
  ≤ Z.to_nat (maxPerSection b - default 0%Z (perSection b !! id)).
Proof.
  revert b; induction ids as [|i ids IH]; intros b; [unfold grantsFor; simpl; lia|].
  simpl. destruct (consumeErrorCorrectionBudget i b) as [o b'] eqn:Hc.
  specialize (IH b'). destruct (consumeAll ids b') as [os b'']. simpl in *.
  rewrite grantsFor_cons.
  unfold consumeErrorCorrectionBudget, consumeSession in Hc.
  destruct i as [j|]; simpl in Hc.
  - destruct (maxPerSection b <=? default 0%Z (perSection b !! j))%Z eqn:Hs.
    + injection Hc as <- <-. simpl. rewrite andb_false_r. simpl. exact IH.
    + apply Z.leb_gt in Hs.
      assert (maxPerSection b' = maxPerSection b
              ∧ perSection b'
                = <[j := (default 0 (perSection b !! j) + 1)%Z]> (perSection b))
        as [Hm Hp].
      { destruct (maxCalls b <? callsUsed b + 1)%Z; injection Hc as <- <-; done. }
      rewrite Hm, Hp in IH.
      destruct (decide (j = id)) as [->|Hne].
      * rewrite lookup_insert_eq in IH. simpl in IH.
        destruct (bool_decide _ && granted o); simpl; lia.
      * rewrite lookup_insert_ne in IH by done.
        rewrite bool_decide_eq_false_2 by congruence. simpl. exact IH.
  - rewrite bool_decide_eq_false_2 by done. simpl.
    assert (maxPerSection b' = maxPerSection b ∧ perSection b' = perSection b)
      as [Hm Hp].
    { destruct (maxCalls b <? callsUsed b + 1)%Z; injection Hc as <- <-; done. }
    by rewrite Hm, Hp in IH.
Qed.

(** X2. After [initErrorCorrectionBudget], of the calls of
    [consumeErrorCorrectionBudget] made for any one section at most
    [maxPerSection] (one, in the source) return, whatever other calls come in
    between. *)
Theorem section_grants_bounded (sectionCount : Z) (b0 : Budget)
    (ids : list (option Z)) (id : Z) :
  grantsFor id ids (consumeAll ids (initErrorCorrectionBudget sectionCount b0)).1
  ≤ Z.to_nat (maxPerSection b0).
Proof.
  etrans; [apply section_grants_left|]. simpl. rewrite lookup_empty. simpl. lia.
Qed.

(** X3. Once [callsUsed] has reached [maxCalls], every later call of
    [consumeErrorCorrectionBudget] throws.  A call for a section that has not
    used its own allowance throws the message of the session limit, and it is
    counted all the same: the count of the section and [callsUsed] are both
    one higher after it. *)
Theorem session_limit_is_final (b : Budget) (ids : list (option Z)) :
  (maxCalls b ≤ callsUsed b)%Z →
  (∀ o, o ∈ (consumeAll ids b).1 → granted o = false)
  ∧ (∀ id, (default 0 (perSection b !! id) < maxPerSection b)%Z →
       consumeErrorCorrectionBudget (Some id) b
       = (Thrown (sessionLimitMessage (callsUsed b + 1) (maxCalls b)),
          mkBudget (maxCalls b) (callsUsed b + 1)
            (<[id := (default 0 (perSection b !! id) + 1)%Z]> (perSection b))
            (maxPerSection b))).
Proof.
  intros H. split.
  - revert b H; induction ids as [|i ids IH]; intros b H o; simpl.
    { by intros ?%elem_of_nil. }
    pose proof (consume_cases i b) as Hc.
    destruct (consumeErrorCorrectionBudget i b) as [o' b'].
    specialize (IH b'). destruct (consumeAll ids b') as [os b'']. simpl in *.
    destruct Hc as (Hm & _ & [(Hg & Hc & Hle)|(Hg & Hc)]); [lia|].
    intros [->|Hin]%elem_of_cons; [done|]. apply IH; [lia|done].
  - intros id Hs. unfold consumeErrorCorrectionBudget, consumeSession. simpl.
    apply Z.leb_gt in Hs. rewrite Hs.
    assert ((maxCalls b <? callsUsed b + 1)%Z = true) as -> by (apply Z.ltb_lt; lia).
    done.
Qed.

Lemma session_limit_is_final_witness :
  (maxCalls (mkBudget 1 1 ∅ 1) ≤ callsUsed (mkBudget 1 1 ∅ 1))%Z
  ∧ (∀ o, o ∈ (consumeAll [Some 7%Z; None; Some 8%Z] (mkBudget 1 1 ∅ 1)).1 →
          granted o = false)
  ∧ (consumeErrorCorrectionBudget (Some 7%Z) (mkBudget 1 1 ∅ 1)).1
    = Thrown (sessionLimitMessage 2 1).
Proof.
  assert (maxCalls (mkBudget 1 1 ∅ 1) ≤ callsUsed (mkBudget 1 1 ∅ 1))%Z as H
    by (simpl; lia).
  destruct (session_limit_is_final (mkBudget 1 1 ∅ 1) [Some 7%Z; None; Some 8%Z] H)
    as [Hnone Hfresh].
  split; [exact H|]. split; [exact Hnone|].
  rewrite (Hfresh 7%Z); [reflexivity|]. by vm_compute.
Defined.

Section FixRuns.
Context {ControlParam : Type}.
Variable parse : jsstring → Validator.parseOutcome.
Variable walkOutcome : Validator.node → Validator.traverseOutcome.
Variable systemPrompt : jsstring.
Variable userPrompt :
jsstring → list ControlParam → jsstring → option jsstring
→ option (list jsstring) → jsstring.
Variable callLLM :
list Request → Request → outcome (@SimulationEditResult ControlParam).

Local Abbreviation runFix_ := (runFix parse walkOutcome systemPrompt userPrompt callLLM).
Local Abbreviation runFixes_ := (runFixes parse walkOutcome systemPrompt userPrompt callLLM).

Lemma runFix_requests (c : FixCall) (w : World) :
let w' := (runFix_ c w).2 in
maxCalls (budget w') = maxCalls (budget w)
∧ (callsUsed (budget w) ≤ callsUsed (budget w'))%Z
∧ (length (requests w') = length (requests w)
   ∨ (callsUsed (budget w') = (callsUsed (budget w) + 1)%Z
      ∧ (callsUsed (budget w') ≤ maxCalls (budget w))%Z
      ∧ length (requests w') ≤ length (requests w) + 2)).
Proof.
destruct w as [b reqs]. unfold runFix, fixSimulationCodeWithPatch. simpl.
pose proof (consume_cases (fixSection c) b) as Hc.
destruct (consumeErrorCorrectionBudget (fixSection c) b) as [[[]|msg] b']; simpl in *.
- destruct Hc as (Hm & _ & [(Hg & Hc & Hle)|(Hg & Hc)]); [|done].
  unfold issue; simpl.
  destruct (callLLM reqs _) as [result|msg]; simpl.
  + destruct (0 <? length _); simpl.
    * destruct (callLLM _ _) as [retryResult|msg]; simpl.
      -- destruct (0 <? length _); simpl;
           (split; [done|]; split; [lia|]; right; rewrite !length_app; simpl; lia).
      -- split; [done|]; split; [lia|]; right; rewrite !length_app; simpl; lia.
    * split; [done|]; split; [lia|]; right; rewrite !length_app; simpl; lia.
  + split; [done|]; split; [lia|]; right; rewrite !length_app; simpl; lia.
- destruct Hc as (Hm & _ & [(Hg & Hc & Hle)|(Hg & Hc)]); [done|].
  split; [done|]. split; [lia|]. by left.
Qed.

Lemma runFixes_requests (calls : list FixCall) (w : World) :
(0 ≤ callsUsed (budget w))%Z →
length (requests (runFixes_ calls w))
≤ length (requests w) + 2 * Z.to_nat (maxCalls (budget w) - callsUsed (budget w)).
Proof.
revert w; induction calls as [|c calls IH]; intros w H0; simpl; [lia|].
destruct (runFix_requests c w) as (Hm & Hmono & Hcase).
etrans; [apply IH; lia|]. rewrite Hm.
destruct Hcase as [Hlen|(Hc & Hle & Hlen)]; lia.
Qed.

(** X4. Whatever corrections are attempted after
    [initErrorCorrectionBudget sectionCount], with whatever arguments and
    whatever the model answers, [fixSimulationCodeWithPatch] sends at most
    two requests per section of the course in all. *)
Theorem session_requests_bounded (sectionCount : Z) (b0 : Budget)
  (calls : list FixCall) :
length (requests (runFixes_ calls
                    (mkWorld (initErrorCorrectionBudget sectionCount b0) [])))
≤ 2 * Z.to_nat sectionCount.
Proof.
etrans; [apply runFixes_requests; simpl; lia|]. simpl. lia.
Qed.
End FixRuns.

End BudgetProps.

(** ** Editing a simulation *)

Module EditorProps.
Import JS JSFacts MoreJSFacts Corrector CorrectorProps Editor.

(** *** Edits with an empty search text *)

Lemma indexOf_empty (s : jsstring) (from : nat) :
  from ≤ length s → indexOf s [] from = Some from.
Proof.
  intros H. unfold indexOf. rewrite Nat.min_l by done.
  by destruct (drop from s).
Qed.

Lemma matchPositionsFrom_empty (fuel : nat) (s : jsstring) (from : nat) :
  length s - from < fuel → from ≤ length s →
  matchPositionsFrom fuel s [] from = seq from (S (length s) - from).
Proof.
  revert from; induction fuel as [|fuel IH]; intros from Hf Hle; [lia|].
  cbn [matchPositionsFrom].
  assert ((length s <? from) = false) as -> by (apply Nat.ltb_ge; lia).
  rewrite indexOf_empty by done. cbn [length Nat.max].
  replace (S (length s) - from) with (S (length s - from)) by lia.
  cbn [seq]. f_equal.
  destruct (decide (from = length s)) as [->|Hne].
  - rewrite Nat.sub_diag. cbn [seq]. destruct fuel; [done|].
    cbn [matchPositionsFrom].
    by assert ((length s <? length s + 1) = true) as -> by (apply Nat.ltb_lt; lia).
  - rewrite IH by lia. f_equal; lia.
Qed.

(** The walk of [replaceAll] between two matches of the empty text: one
    character, then the replacement. *)
Lemma assemble_empty_gap (s replacement : jsstring) (k n : nat) :
  chDollar ∉ replacement → k + S n = length s →
  assembleReplacements s [] replacement (seq (S k) (S n)) k
  = flat_map (λ c, c :: replacement) (drop k s).
Proof.
  intros Hd. revert k; induction n as [|n IH]; intros k Hk.
  - destruct (lookup_lt_is_Some_2 s k) as [c Hc]; [lia|].
    cbn [seq assembleReplacements]. rewrite getSubstitution_plain by done.
    rewrite (substring_one _ _ _ Hc). cbn [length]. rewrite Nat.add_0_r.
    rewrite (drop_S _ _ _ Hc), !drop_ge by lia. simpl. by rewrite app_nil_r.
  - destruct (lookup_lt_is_Some_2 s k) as [c Hc]; [lia|].
    change (seq (S k) (S (S n))) with (S k :: seq (S (S k)) (S n)).
    cbn [assembleReplacements]. rewrite getSubstitution_plain by done.
    rewrite (substring_one _ _ _ Hc). cbn [length]. rewrite Nat.add_0_r.
    rewrite IH; [|lia]. by rewrite (drop_S _ _ _ Hc).
Qed.

Lemma replaceAll_empty (s replacement : jsstring) :
  chDollar ∉ replacement →
  replaceAll s [] replacement
  = replacement ++ flat_map (λ c, c :: replacement) s.
Proof.
  intros Hd. unfold replaceAll, matchPositions.
  rewrite matchPositionsFrom_empty by lia. rewrite Nat.sub_0_r.
  cbn [seq assembleReplacements]. rewrite getSubstitution_plain by done.
  rewrite substring_same. cbn [length app Nat.add]. f_equal.
  destruct s as [|c s]; [done|].
  change (length (c :: s)) with (S (length s)).
  rewrite (assemble_empty_gap (c :: s) replacement 0 (length s)); [done..|].
  simpl; lia.
Qed.

(** X5. An edit whose [old_code] is the empty string never fails:
    when [new_code] holds no [$], it goes in front of the code, after its
    last character and between every two characters. *)
Theorem empty_old_code_inserts_everywhere (code replacement : jsstring) :
  chDollar ∉ replacement →
  applySimulationEdits code [mkEdit [] replacement]
  = mkApply (replacement ++ flat_map (λ c, c :: replacement) code) [].
Proof.
  intros Hd. unfold applySimulationEdits. cbn [foldl]. unfold applyEdit.
  cbn [newCode old_code new_code failedEdits].
  assert (includes code [] = true) as ->.
  { unfold includes. by rewrite indexOf_empty by lia. }
  cbn [negb]. by rewrite replaceAll_empty.
Qed.

Lemma empty_old_code_inserts_everywhere_witness :
  (chDollar ∉ js "X")
  ∧ applySimulationEdits (js "ab") [mkEdit [] (js "X")] = mkApply (js "XaXbX") [].
Proof.
  assert (chDollar ∉ js "X") as H.
  { intros Hin%list_elem_of_singleton. discriminate Hin. }
  split; [exact H|]. exact (empty_old_code_inserts_everywhere (js "ab") (js "X") H).
Defined.

(** *** Edits applied in batches *)

Lemma foldl_applyEdit_failed (es : list SimulationEdit) (code : jsstring)
    (failed : list SimulationEdit) :
  foldl applyEdit (mkApply code failed) es
  = mkApply (newCode (foldl applyEdit (mkApply code []) es))
      (failed ++ failedEdits (foldl applyEdit (mkApply code []) es)).
Proof.
  revert code failed; induction es as [|e es IH]; intros code failed.
  - simpl. by rewrite app_nil_r.
  - cbn [foldl]. unfold applyEdit at 2 4 6. cbn [newCode failedEdits].
    destruct (includes code (old_code e)); cbn [negb].
    + rewrite (IH _ failed). done.
    + rewrite (IH _ (failed ++ [e])), (IH _ ([] ++ [e])).
      cbn [newCode failedEdits]. by rewrite <- app_assoc.
Qed.

(** X6. Applying a list of edits in two batches, the second to the
    code the first one leaves, gives the code that applying them all at once
    gives, and the failed edits of the two batches one after the other. *)
Theorem applySimulationEdits_in_batches (code : jsstring)
    (first second : list SimulationEdit) :
  let r1 := applySimulationEdits code first in
  let r2 := applySimulationEdits (newCode r1) second in
  applySimulationEdits code (first ++ second)
  = mkApply (newCode r2) (failedEdits r1 ++ failedEdits r2).
Proof.
  intros r1 r2. unfold applySimulationEdits. rewrite foldl_app.
  fold (applySimulationEdits code first). fold r1.
  destruct r1 as [c1 f1] eqn:E. by rewrite foldl_applyEdit_failed.
Qed.

(** *** The history context *)

Lemma truncForEdit_length (s : jsstring) (maxLen : nat) :
  length (truncForEdit s maxLen) ≤ maxLen + 3.
Proof.
  unfold truncForEdit. destruct (maxLen <? length s) eqn:E.
  - rewrite length_app, length_take. simpl. lia.
  - apply Nat.ltb_ge in E. lia.
Qed.

Lemma natToString_short (n : nat) : n ≤ 10 → length (natToString n) ≤ 2.
Proof.
  intros H. do 11 (destruct n as [|n]; [vm_compute; lia|]). lia.
Qed.

Lemma historyEntry_length (index : nat) (item : SimEditHistoryItem) :
  index < 10 → length (historyEntry index item) ≤ 942.
Proof.
  intros H. unfold historyEntry. rewrite !length_app.
  pose proof (truncForEdit_length (userRequest item) 300).
  pose proof (truncForEdit_length (historyExplanation item) 600).
  pose proof (natToString_short (index + 1)).
  change (length (js "Previous Edit ")) with 14.
  change (length (js ":")) with 1.
  change (length (js "User: ")) with 6.
  change (length (js "Assistant: ")) with 11.
  change (length [chNewline]) with 1. lia.
Qed.

Lemma join_length (sep : jsstring) (ls : list jsstring) (bound : nat) :
  Forall (λ l, length l ≤ bound) ls →
  length (join sep ls) ≤ length ls * bound + (length ls - 1) * length sep.
Proof.
  induction 1 as [|l ls Hl Hls IH]; [simpl; lia|].
  destruct ls as [|l' ls].
  - simpl. lia.
  - change (join sep (l :: l' :: ls)) with (l ++ sep ++ join sep (l' :: ls)).
    rewrite !length_app. cbn [length] in *. nia.
Qed.

Lemma lastN_length {A : Type} (n : nat) (l : list A) : length (lastN n l) ≤ n.
Proof. unfold lastN. rewrite length_drop. lia. Qed.

Lemma lastN_short {A : Type} (n : nat) (l : list A) :
  length l ≤ n → lastN n l = l.
Proof. intros H. unfold lastN. by replace (length l - n) with 0 by lia. Qed.

Lemma imap_Forall_lt {A B : Type} (f : nat → A → B) (P : B → Prop) (l : list A) :
  (∀ i x, i < length l → P (f i x)) → Forall P (imap f l).
Proof.
  intros H. apply Forall_forall. intros y Hy.
  apply elem_of_lookup_imap in Hy as (i & x & -> & Hi).
  apply H. by eapply lookup_lt_Some.
Qed.

(** X7. Whatever the edit history, the text
    [buildSimEditHistoryContext] adds to the prompt is at most 9482 code
    units long. *)
Theorem history_context_bounded (editHistory : option (list SimEditHistoryItem)) :
  (Z.of_nat (length (buildSimEditHistoryContext editHistory)) ≤ 9482)%Z.
Proof.
  unfold buildSimEditHistoryContext. destruct editHistory as [history|]; [|simpl; lia].
  destruct (length history =? 0); [simpl; lia|].
  set (items := lastN 10 (List.filter usableItem history)).
  assert (length items ≤ 10) as Hn by apply lastN_length.
  destruct (length (join _ _) =? 0); [simpl; lia|].
  rewrite !length_app.
  change (length [chNewline; chNewline]) with 2.
  change (length [chNewline]) with 1.
  change (length (js "PREVIOUS EDIT HISTORY (for context):")) with 36.
  change (length (js "---")) with 3.
  pose proof (join_length [chNewline; chNewline] (imap historyEntry items) 942) as Hj.
  rewrite length_imap in Hj. change (length [chNewline; chNewline]) with 2 in Hj.
  assert (Forall (λ l, length l ≤ 942) (imap historyEntry items)) as HF.
  { apply imap_Forall_lt. intros i x Hi. apply historyEntry_length. lia. }
  specialize (Hj HF). nia.
Qed.

Lemma filter_usable_idem (l : list SimEditHistoryItem) :
  List.filter usableItem (lastN 10 (List.filter usableItem l))
  = lastN 10 (List.filter usableItem l).
Proof.
  apply List.forallb_filter_id, List.forallb_forall. intros x Hx.
  apply list_elem_of_In in Hx. unfold lastN in Hx.
  apply (subseteq_drop _ _ x) in Hx.
  apply list_elem_of_In, List.filter_In in Hx as [_ Hx]. done.
Qed.

Lemma historyEntry_nonempty (index : nat) (item : SimEditHistoryItem) :
  historyEntry index item ≠ [].
Proof. done. Qed.

Lemma join_nonempty (sep l : jsstring) (ls : list jsstring) :
  l ≠ [] → join sep (l :: ls) ≠ [].
Proof.
  intros H. destruct ls; [done|].
  change (join sep (l :: l0 :: ls)) with (l ++ sep ++ join sep (l0 :: ls)).
  by destruct l.
Qed.

Lemma buildSimEditHistoryContext_Some (history : list SimEditHistoryItem) :
  buildSimEditHistoryContext (Some history)
  = let previousEdits :=
      join [chNewline; chNewline]
        (imap historyEntry (lastN 10 (List.filter usableItem history))) in
    if length previousEdits =? 0 then []
    else [chNewline; chNewline] ++ js "PREVIOUS EDIT HISTORY (for context):"
           ++ [chNewline] ++ previousEdits ++ [chNewline; chNewline] ++ js "---".
Proof. unfold buildSimEditHistoryContext. by destruct history. Qed.

(** X8. [buildSimEditHistoryContext] depends on the last ten items
    that succeeded and are not pending, and on nothing else of the history;
    it is the empty string exactly when no item of the history succeeded
    without being pending. *)
Theorem history_context_from_last_ten_usable (history : list SimEditHistoryItem) :
  buildSimEditHistoryContext (Some history)
  = buildSimEditHistoryContext
      (Some (lastN 10 (List.filter usableItem history)))
  ∧ (buildSimEditHistoryContext (Some history) = []
     ↔ List.filter usableItem history = []).
Proof.
  rewrite !buildSimEditHistoryContext_Some. cbv zeta.
  rewrite filter_usable_idem.
  rewrite (lastN_short 10 (lastN 10 _)) by apply lastN_length.
  split; [done|].
  set (items := lastN 10 (List.filter usableItem history)).
  assert (items = [] ↔ List.filter usableItem history = []) as Hitems.
  { unfold items, lastN. split; [|by intros ->].
    intros H. apply (f_equal length) in H. rewrite length_drop in H.
    destruct (List.filter usableItem history); [done|simpl in H; lia]. }
  rewrite <- Hitems. destruct items as [|x items]; [done|].
  cbn [imap]. split; [|done].
  destruct (length _ =? 0) eqn:E; [|done].
  apply Nat.eqb_eq in E. intros _.
  pose proof (join_nonempty [chNewline; chNewline] (historyEntry 0 x)
                (imap (historyEntry ∘ S) items) (historyEntry_nonempty 0 x)) as Hne.
  destruct (join _ _); [done|simpl in E; lia].
Qed.

(** *** [editSimulationCode] *)

Section EditProps.
Context {ControlParam : Type}.
Variable systemPrompt : jsstring.
Variable userPrompt :
jsstring → list ControlParam → jsstring → jsstring → jsstring.
Variable callLLM :
list Request → Request → outcome (@SimulationEditResult ControlParam).

Variables (currentCode : jsstring) (currentParams : list ControlParam)
(request : jsstring) (editHistory : option (list SimEditHistoryItem)).

Local Abbreviation edit_ :=
(editSimulationCode systemPrompt userPrompt callLLM currentCode currentParams
   request editHistory).
Local Abbreviation ereq1 :=
(firstEditRequest systemPrompt userPrompt currentCode currentParams request
   editHistory).

(** X9. [editSimulationCode] leaves the error-correction budget as
    it is and sends one request or two.  When every edit of the first answer
    applies, there is no second request and a configuration is returned.  A
    configuration that is returned comes from the answer to the last request
    sent: all the edits of that answer applied to the code the caller gave
    (none of them failed), then sanitized; the controls of the answer, or the
    caller's when it has none; the prompt [User edit: ] followed by the
    request. *)
Theorem edit_returns_one_answer_applied_in_full (w : World) :
let r := edit_ w in
budget r.2 = budget w
∧ (∃ rs, requests r.2 = requests w ++ rs ∧ 1 ≤ length rs ≤ 2)
∧ (∀ r1, callLLM (requests w) ereq1 = Returned r1 →
     failedEdits (applySimulationEdits currentCode (default [] (edits r1))) = [] →
     requests r.2 = requests w ++ [ereq1]
     ∧ ∃ cfg, r.1 = Returned cfg)
∧ (∀ cfg, r.1 = Returned cfg →
     ∃ reqs req result,
       requests r.2 = reqs ++ [req]
       ∧ callLLM reqs req = Returned result
       ∧ let applied :=
           applySimulationEdits currentCode (default [] (edits result)) in
         failedEdits applied = []
         ∧ code cfg = Sanitizer.sanitizeSimulationCode (newCode applied)
         ∧ configParams cfg = default currentParams (params result)
         ∧ prompt cfg = js "User edit: " ++ request
         ∧ configExplanation cfg = explanation result).
Proof.
destruct w as [b reqs]. unfold editSimulationCode, issue.
cbn [budget requests].
destruct (callLLM reqs ereq1) as [r1|msg] eqn:H1; cbv zeta; cbn [fst snd].
- destruct (0 <? length (failedEdits
                           (applySimulationEdits currentCode
                              (default [] (edits r1))))) eqn:Hf.
  + set (req2 := retryEditRequest _ _ _ _ _ _ _).
    destruct (callLLM (reqs ++ [ereq1]) req2) as [r2|msg] eqn:H2; cbn [fst snd].
    * destruct (0 <? length (failedEdits
                               (applySimulationEdits currentCode
                                  (default [] (edits r2))))) eqn:Hf2;
        cbn [fst snd budget requests].
      -- split; [done|]. split.
         { exists [ereq1; req2]. rewrite <- app_assoc. simpl. split; [done|lia]. }
         split; [|done].
         intros r1' [= <-] Hnil. rewrite Hnil in Hf. done.
      -- split; [done|]. split.
         { exists [ereq1; req2]. rewrite <- app_assoc. simpl. split; [done|lia]. }
         split.
         { intros r1' [= <-] Hnil. rewrite Hnil in Hf. done. }
         intros cfg [= <-]. exists (reqs ++ [ereq1]), req2, r2.
         split; [done|]. split; [done|]. cbv zeta. split; [|done].
         apply Nat.ltb_ge in Hf2. apply nil_length_inv. lia.
    * cbn [budget requests]. split; [done|]. split.
      { exists [ereq1; req2]. rewrite <- app_assoc. simpl. split; [done|lia]. }
      split; [|done].
      intros r1' [= <-] Hnil. rewrite Hnil in Hf. done.
  + cbn [fst snd budget requests]. split; [done|]. split.
    { exists [ereq1]. simpl. split; [done|lia]. }
    split.
    { intros r1' [= <-] _. split; [done|]. by eexists. }
    intros cfg [= <-]. exists reqs, ereq1, r1.
    split; [done|]. split; [done|]. cbv zeta. split; [|done].
    apply Nat.ltb_ge in Hf. apply nil_length_inv. lia.
- cbn [budget requests]. split; [done|]. split.
  { exists [ereq1]. simpl. split; [done|lia]. }
  split; [|done]. intros r1' [=].
Qed.
End EditProps.

End EditorProps.

(** ** The response schema *)

Module GeminiSchemaProps.
Import JS JSFacts GeminiSchema.
Import ValidatorProps ThreeSandboxProps.

Section ValueProps.
Context {Primitive : Type}.
Local Abbreviation value := (jsValue Primitive).
Implicit Types (v : value) (entries acc : list (jsstring * value)).

Lemma jsValue_induction (P : value → Prop) :
P JNull → (∀ p, P (JPrimitive p)) →
(∀ items, Forall P items → P (JArray items)) →
(∀ entries, Forall (λ kv, P kv.2) entries → P (JObject entries)) →
∀ v, P v.
Proof.
intros Hnull Hprim Harr Hobj. fix IH 1. intros [|p|items|entries].
- exact Hnull.
- apply Hprim.
- apply Harr. induction items as [|x xs IHxs]; constructor; [apply IH|apply IHxs].
- apply Hobj. induction entries as [|[k x] xs IHxs]; constructor; [apply IH|apply IHxs].
Qed.

Local Abbreviation step := (sanitizeEntry sanitizeSchemaForGemini).

Lemma sanitize_object entries :
sanitizeSchemaForGemini (JObject entries) = JObject (foldl step [] entries).
Proof. done. Qed.

Lemma mapSet_Forall (Q : jsstring * value → Prop) acc (k : jsstring) v :
Forall Q acc → Q (k, v) → Forall Q (mapSet acc k v).
Proof.
intros Hacc Hq. induction Hacc as [|[k' v'] acc Hx Hacc IH]; cbn [mapSet].
- by constructor.
- destruct (streq k k') eqn:E.
  + apply streq_true in E as <-. by constructor.
  + by constructor.
Qed.

(** What holds of every entry the loop sets holds of the entries of the
  result. *)
Lemma sanitizeEntries_Forall (Q : jsstring * value → Prop) entries acc :
Forall Q acc →
Forall (λ kv, isUnsupported kv.1 = false → kv.1 ≠ js "__proto__" →
              Q (kv.1, sanitizeSchemaForGemini kv.2)) entries →
Forall Q (foldl step acc entries).
Proof.
intros Hacc Hes. revert acc Hacc.
induction Hes as [|[k x] es Hx Hes IH]; intros acc Hacc; [done|].
cbn [foldl]. apply IH. unfold sanitizeEntry.
destruct (isUnsupported k) eqn:Hk; [done|]. unfold setProperty.
destruct (streq k (js "__proto__")) eqn:Hp; [done|].
apply mapSet_Forall; [done|]. apply Hx; [done|]. by apply streq_false.
Qed.

Lemma sanitizeEntries_NoDup entries acc :
NoDup acc.*1 → NoDup (foldl step acc entries).*1.
Proof.
revert acc; induction entries as [|[k x] es IH]; intros acc Hacc; [done|].
cbn [foldl]. apply IH. unfold sanitizeEntry.
destruct (isUnsupported k); [done|]. unfold setProperty.
destruct (streq k (js "__proto__")); [done|]. by apply mapSet_NoDup.
Qed.

(** X10. In the result of [sanitizeSchemaForGemini] no object, at
    any depth, inside arrays too, has a property named
    [additionalProperties], [$schema], [$id], [definitions] or [$defs]. *)
Theorem unsupported_keys_removed_at_every_depth v :
Forall (λ key, isUnsupported key = false) (allKeys (sanitizeSchemaForGemini v)).
Proof.
induction v as [|p|items IH|entries IH] using jsValue_induction.
- constructor.
- constructor.
- cbn [sanitizeSchemaForGemini allKeys]. apply Forall_flat_map.
  apply Forall_forall. intros x Hx. apply list_elem_of_In, List.in_map_iff in Hx
    as (y & <- & Hy). apply list_elem_of_In in Hy.
  by apply (proj1 (Forall_forall _ _) IH).
- rewrite sanitize_object. cbn [allKeys]. apply Forall_flat_map.
  apply (sanitizeEntries_Forall
           (λ kv, Forall (λ key, isUnsupported key = false)
                    (let '(key, value) := kv in key :: allKeys value)));
    [constructor|].
  eapply Forall_impl; [exact IH|]. intros [k x] Hx Hk _. cbn [fst snd] in *.
  by constructor.
Qed.

Lemma mapSet_fresh acc (k : jsstring) v :
k ∉ acc.*1 → mapSet acc k v = acc ++ [(k, v)].
Proof.
induction acc as [|[k' v'] acc IH]; [done|]. rewrite fmap_cons. cbn [fst mapSet].
intros [Hne Hin]%not_elem_of_cons. apply streq_false in Hne. rewrite Hne.
by rewrite IH.
Qed.

(** Entries that the loop would set as they are, under new names, are
  appended. *)
Lemma sanitizeEntries_rebuild entries acc :
NoDup (acc.*1 ++ entries.*1) →
Forall (λ kv, isUnsupported kv.1 = false ∧ kv.1 ≠ js "__proto__"
              ∧ sanitizeSchemaForGemini kv.2 = kv.2) entries →
foldl step acc entries = acc ++ entries.
Proof.
intros Hnd Hes. revert acc Hnd.
induction Hes as [|[k x] es (Hk & Hp & Hx) Hes IH]; intros acc Hnd.
- by rewrite app_nil_r.
- cbn [foldl]. cbn [fst snd] in *. unfold sanitizeEntry at 2.
  rewrite Hk. unfold setProperty. apply streq_false in Hp. rewrite Hp, Hx.
  rewrite fmap_cons in Hnd. cbn [fst] in Hnd.
  rewrite mapSet_fresh.
  + rewrite IH; [by rewrite <- app_assoc|].
    rewrite fmap_app, <- app_assoc. done.
  + apply NoDup_app in Hnd as (_ & Hdis & _). intros Hin.
    apply (Hdis k Hin). apply list_elem_of_here.
Qed.

(** X11. Sanitizing a schema that has been sanitized changes
    nothing. *)
Theorem sanitizeSchemaForGemini_idempotent v :
sanitizeSchemaForGemini (sanitizeSchemaForGemini v) = sanitizeSchemaForGemini v.
Proof.
induction v as [|p|items IH|entries IH] using jsValue_induction.
- done.
- done.
- cbn [sanitizeSchemaForGemini]. f_equal. rewrite List.map_map.
  apply List.map_ext_in. intros x Hx. apply list_elem_of_In in Hx.
  by apply (proj1 (Forall_forall _ _) IH).
- rewrite !sanitize_object. f_equal.
  apply (sanitizeEntries_rebuild _ []).
  + apply sanitizeEntries_NoDup. constructor.
  + apply sanitizeEntries_Forall; [constructor|].
    eapply Forall_impl; [exact IH|]. intros [k x] Hx Hk Hp. cbn [fst snd] in *.
    done.
Qed.

Lemma sanitizeEntries_lookup entries acc (key : jsstring) :
NoDup entries.*1 → isUnsupported key = false → key ≠ js "__proto__" →
mapGet (foldl step acc entries) key
= match mapGet entries key with
  | Some x => Some (sanitizeSchemaForGemini x)
  | None => mapGet acc key
  end.
Proof.
intros Hnd Hk Hp. revert acc; induction entries as [|[k x] es IH]; intros acc.
- done.
- rewrite fmap_cons in Hnd. apply NoDup_cons in Hnd as [Hfresh Hnd].
  cbn [fst] in Hfresh. cbn [foldl mapGet fst]. rewrite (IH Hnd). destruct (streq key k) eqn:E.
  + apply streq_true in E as ->.
    apply mapGet_None in Hfresh. rewrite Hfresh.
    unfold sanitizeEntry. rewrite Hk. unfold setProperty.
    apply streq_false in Hp. rewrite Hp, mapGet_mapSet.
    by rewrite (proj2 (streq_true _ _) eq_refl).
  + destruct (mapGet es key); [done|].
    unfold sanitizeEntry. destruct (isUnsupported k); [done|].
    unfold setProperty. destruct (streq k (js "__proto__")); [done|].
    by rewrite mapGet_mapSet, E.
Qed.
(** X12. Of an object, [sanitizeSchemaForGemini] keeps every property
    whose name is not one of the five unsupported names and not [__proto__],
    with its value sanitized, and has no other property. *)
Theorem supported_properties_kept entries (key : jsstring) :
NoDup entries.*1 →
mapGet (entriesOf (sanitizeSchemaForGemini (JObject entries))) key
= if isUnsupported key || streq key (js "__proto__") then None
  else sanitizeSchemaForGemini <$> mapGet entries key.
Proof.
intros Hnd. rewrite sanitize_object. cbn [entriesOf].
destruct (isUnsupported key || streq key (js "__proto__")) eqn:Hk.
- apply mapGet_None. intros Hin.
  apply list_elem_of_fmap in Hin as ([k x] & -> & Hin). cbn [fst] in Hk.
  assert (Forall (λ kv : jsstring * value,
                    isUnsupported kv.1 || streq kv.1 (js "__proto__") = false)
            (foldl step [] entries)) as HF.
  { apply sanitizeEntries_Forall; [constructor|].
    apply Forall_forall. intros [k' x'] _ Hu Hp. cbn [fst] in *.
    apply streq_false in Hp. by rewrite Hu, Hp. }
  apply (proj1 (Forall_forall _ _) HF) in Hin. cbn [fst] in Hin. congruence.
- apply orb_false_iff in Hk as [Hu Hp]. apply streq_false in Hp.
  rewrite (sanitizeEntries_lookup _ _ _ Hnd Hu Hp).
  by destruct (mapGet entries key).
Qed.
End ValueProps.

Lemma supported_properties_kept_witness :
  NoDup [js "type"; js "$schema"]
  ∧ mapGet (entriesOf (sanitizeSchemaForGemini
                         (JObject [(js "type", JPrimitive 1%N);
                                   (js "$schema", JPrimitive 2%N)])))
      (js "type")
    = Some (JPrimitive 1%N)
  ∧ mapGet (entriesOf (sanitizeSchemaForGemini
                         (JObject [(js "type", JPrimitive 1%N);
                                   (js "$schema", JPrimitive 2%N)])))
      (js "$schema")
    = None.
Proof.
  assert (NoDup [js "type"; js "$schema"]) as H.
  { apply (bool_decide_unpack _). vm_compute. exact I. }
  split; [exact H|]. split.
  - exact (supported_properties_kept
             [(js "type", JPrimitive 1%N); (js "$schema", JPrimitive 2%N)]
             (js "type") H).
  - exact (supported_properties_kept
             [(js "type", JPrimitive 1%N); (js "$schema", JPrimitive 2%N)]
             (js "$schema") H).
Defined.


End GeminiSchemaProps.

(** ** Global replacement *)

Module ReplaceFacts.
Import JS JSFacts Regex RegexFacts RegexRuns.

Section Replace.
Variable s : jsstring.

(** The search finds the leftmost index at which the expression matches. *)
Lemma execFrom_leftmost (fuel : nat) (r : re) (start p e : nat) (c : caps) :
execFrom s fuel r start = Some (p, e, c) →
∀ i, start ≤ i < p → m s r i [] accept = None.
Proof.
revert start; induction fuel as [|fuel IH]; intros start; simpl.
- destruct (m s r start [] accept) as [[e' c']|] eqn:E; [|done].
  intros [= <- <- <-] i Hi. lia.
- destruct (m s r start [] accept) as [[e' c']|] eqn:E.
  + intros [= <- <- <-] i Hi. lia.
  + intros H i Hi. destruct (decide (i = start)) as [->|Hne]; [done|].
    apply (IH _ H). lia.
Qed.

Lemma exec_leftmost (r : re) (from p e : nat) (c : caps) :
exec s r from = Some (p, e, c) →
∀ i, from ≤ i < p → m s r i [] accept = None.
Proof.
unfold exec. destruct (length s <? from); [done|]. apply execFrom_leftmost.
Qed.

Lemma execFrom_None_inv (fuel : nat) (r : re) (start : nat) :
execFrom s fuel r start = None →
∀ i, start ≤ i ≤ start + fuel → m s r i [] accept = None.
Proof.
revert start; induction fuel as [|fuel IH]; intros start; simpl.
- destruct (m s r start [] accept) as [[e' c']|] eqn:E; [done|].
  intros _ i Hi. by replace i with start by lia.
- destruct (m s r start [] accept) as [[e' c']|] eqn:E; [done|].
  intros H i Hi. destruct (decide (i = start)) as [->|Hne]; [done|].
  apply (IH _ H). lia.
Qed.

Lemma exec_None_inv (r : re) (from : nat) :
from ≤ length s → exec s r from = None →
∀ i, from ≤ i ≤ length s → m s r i [] accept = None.
Proof.
intros Hle. unfold exec.
assert ((length s <? from) = false) as -> by (apply Nat.ltb_ge; lia).
intros H i Hi. apply (execFrom_None_inv _ _ _ H). lia.
Qed.

Lemma Forall_substring (Q : N → Prop) (a b : nat) :
a ≤ b →
(∀ i x, a ≤ i < b → s !! i = Some x → Q x) → Forall Q (substring s a b).
Proof.
intros Hab H. apply Forall_forall. intros x Hx.
apply list_elem_of_lookup in Hx as [j Hj]. unfold substring in Hj.
pose proof (lookup_lt_Some _ _ _ Hj) as Hlt. rewrite length_take in Hlt.
rewrite lookup_take_lt in Hj by lia. rewrite lookup_drop in Hj.
apply lookup_lt_Some in Hj as Hlt'.
apply (H ((a `min` length s) `min` (b `min` length s) + j)); [|done].
rewrite length_drop in Hlt. lia.
Qed.

Lemma Forall_drop_from (Q : N → Prop) (a : nat) :
(∀ i x, a ≤ i → s !! i = Some x → Q x) → Forall Q (drop a s).
Proof.
intros H. apply Forall_forall. intros x Hx.
apply list_elem_of_lookup in Hx as [j Hj]. rewrite lookup_drop in Hj.
apply (H (a + j)); [lia|done].
Qed.

(** What holds of the characters at which the expression does not match,
  and of every replacement text, holds of the whole result of a global
  replacement by an expression that matches no empty text. *)
Lemma assemble_Forall (Q : N → Prop) (r : re) (f : jsstring → caps → jsstring)
  (fuel from : nat) :
0 < minLen r →
(∀ i x, s !! i = Some x → m s r i [] accept = None → Q x) →
(∀ p e c, m s r p [] accept = Some (e, c) → Forall Q (f (substring s p e) c)) →
from ≤ length s → length s - from < fuel →
Forall Q (assemble s f (matchesFrom s fuel r from) from).
Proof.
intros Hmin Hgap Hrep. revert from; induction fuel as [|fuel IH]; intros from Hle Hfuel.
- lia.
- cbn [matchesFrom]. destruct (exec s r from) as [[[p e] c]|] eqn:E.
  + pose proof (exec_Some _ _ _ _ _ _ E) as (Hp & Hpe & He & Hm).
    pose proof (m_end _ _ _ _ _ _ Hm) as [Hspan _].
    assert ((e =? p) = false) as -> by (apply Nat.eqb_neq; lia).
    cbn [assemble]. apply Forall_app. split.
    { apply Forall_substring; [lia|]. intros i x Hi Hx. apply (Hgap i x Hx).
      by apply (exec_leftmost _ _ _ _ _ E). }
    apply Forall_app. split; [by eapply Hrep|]. apply IH; lia.
  + cbn [assemble]. apply Forall_drop_from. intros i x Hi Hx.
    apply (Hgap i x Hx). apply (exec_None_inv _ _ Hle E).
    apply lookup_lt_Some in Hx. lia.
Qed.

Lemma replaceGlobal_Forall (Q : N → Prop) (r : re)
  (f : jsstring → caps → jsstring) :
0 < minLen r →
(∀ i x, s !! i = Some x → m s r i [] accept = None → Q x) →
(∀ p e c, m s r p [] accept = Some (e, c) → Forall Q (f (substring s p e) c)) →
Forall Q (replaceGlobal s r f).
Proof.
intros Hmin Hgap Hrep. unfold replaceGlobal. apply assemble_Forall; try done; lia.
Qed.

(** A class matches at an index exactly when the character there is in it. *)
Lemma m_Chr_accept (p : N → bool) (i : nat) :
m s (Chr p) i [] accept
= match s !! i with
  | Some x => if p x then Some (S i, []) else None
  | None => None
  end.
Proof. done. Qed.

Lemma m_PlusChr_None (p : N → bool) (i : nat) :
m s (Plus (Chr p)) i [] accept = None
↔ match s !! i with Some x => p x = false | None => True end.
Proof.
unfold Plus. rewrite m_Seq, m_Chr. destruct (s !! i) as [x|]; [|done].
destruct (p x); [|done]. split; [|done]. intros H.
destruct (starLoop_total (m s (Chr p)) accept (S (length s)) (S i) [])
  as [y Hy]; [by eexists|].
change (m s (Star (Chr p)) (S i) [] accept)
  with (starLoop (m s (Chr p)) accept (S (length s)) (S i) []) in H.
congruence.
Qed.
(** A run of one or more characters of a class spans characters of the
  class only. *)
Lemma starLoop_Chr (p : N → bool) (n i e : nat) (c c' : caps) :
starLoop (m s (Chr p)) accept n i c = Some (e, c') →
c' = c ∧ i ≤ e ∧ ∀ j, i ≤ j < e → ∃ x, s !! j = Some x ∧ p x = true.
Proof.
revert i; induction n as [|n IH]; intros i; cbn [starLoop].
- intros [= <- <-]. split; [done|]. split; [lia|]. intros j Hj. lia.
- rewrite m_Chr. destruct (s !! i) as [x|] eqn:Hx.
  + destruct (p x) eqn:Hp.
    * assert ((i <? S i) = true) as -> by (apply Nat.ltb_lt; lia).
      destruct (starLoop (m s (Chr p)) accept n (S i) c) as [[e1 c1]|] eqn:E.
      -- intros [= <- <-]. apply IH in E as (-> & Hle & Hspan).
         split; [done|]. split; [lia|]. intros j Hj.
         destruct (decide (j = i)) as [->|Hne]; [by exists x|].
         apply Hspan. lia.
      -- intros [= <- <-]. split; [done|]. split; [lia|]. intros j Hj. lia.
    * intros [= <- <-]. split; [done|]. split; [lia|]. intros j Hj. lia.
  + intros [= <- <-]. split; [done|]. split; [lia|]. intros j Hj. lia.
Qed.

Lemma m_PlusChr_Some (p : N → bool) (i e : nat) (c : caps) :
m s (Plus (Chr p)) i [] accept = Some (e, c) →
Forall (λ x, p x = true) (substring s i e).
Proof.
unfold Plus. rewrite m_Seq, m_Chr. destruct (s !! i) as [x|] eqn:Hx; [|done].
destruct (p x) eqn:Hp; [|done].
change (m s (Star (Chr p)) (S i) [] accept)
  with (starLoop (m s (Chr p)) accept (S (length s)) (S i) []).
intros H. apply starLoop_Chr in H as (_ & Hle & Hspan).
apply Forall_substring; [lia|]. intros j y Hj Hy.
destruct (decide (j = i)) as [->|Hne]; [congruence|].
destruct (Hspan j) as (z & Hz & Hpz); [lia|]. congruence.
Qed.

Lemma replaceGlobal_PlusChr_id (p : N → bool) (f : jsstring → caps → jsstring) :
Forall (λ x, p x = false) s → replaceGlobal s (Plus (Chr p)) f = s.
Proof.
intros H. apply replaceGlobal_none. intros i. apply m_PlusChr_None.
destruct (s !! i) as [x|] eqn:Hx; [|done].
apply (proj1 (Forall_forall _ _) H). by eapply list_elem_of_lookup_2.
Qed.
(** The search stops at the first index at which the expression matches. *)
Lemma execFrom_first (fuel : nat) (r : re) (start p e : nat) (c : caps) :
(∀ i, start ≤ i < p → m s r i [] accept = None) →
m s r p [] accept = Some (e, c) → start ≤ p ≤ start + fuel →
execFrom s fuel r start = Some (p, e, c).
Proof.
revert start; induction fuel as [|fuel IH]; intros start Hnone Hm Hp.
- replace start with p by lia. simpl. by rewrite Hm.
- simpl. destruct (decide (start = p)) as [->|Hne]; [by rewrite Hm|].
  rewrite Hnone by lia. apply IH; [|done|lia]. intros i Hi. apply Hnone. lia.
Qed.

Lemma exec_first (r : re) (from p e : nat) (c : caps) :
(∀ i, from ≤ i < p → m s r i [] accept = None) →
m s r p [] accept = Some (e, c) → from ≤ p ≤ length s →
exec s r from = Some (p, e, c).
Proof.
intros Hnone Hm Hp. unfold exec.
assert ((length s <? from) = false) as -> by (apply Nat.ltb_ge; lia).
apply execFrom_first; [done..|lia].
Qed.

Lemma execFrom_None_from (fuel : nat) (r : re) (start : nat) :
(∀ i, start ≤ i → m s r i [] accept = None) → execFrom s fuel r start = None.
Proof.
revert start; induction fuel as [|fuel IH]; intros start H; simpl.
- by rewrite H.
- rewrite H by lia. apply IH. intros i Hi. apply H. lia.
Qed.

Lemma exec_None_from (r : re) (from : nat) :
(∀ i, from ≤ i → m s r i [] accept = None) → exec s r from = None.
Proof.
intros H. unfold exec. destruct (length s <? from); [done|].
by apply execFrom_None_from.
Qed.
End Replace.

Lemma spanLen_le (p : N → bool) (l : jsstring) : spanLen p l ≤ length l.
Proof. induction l as [|x l IH]; simpl; [lia|]. destruct (p x); lia. Qed.

(** A greedy run of characters of a class takes all of them. *)
Lemma starLoop_Chr_exact (s : jsstring) (p : N → bool) (n i : nat) (c : caps) :
  spanLen p (drop i s) < n →
  starLoop (m s (Chr p)) accept n i c = Some (i + spanLen p (drop i s), c).
Proof.
  revert i; induction n as [|n IH]; intros i Hn; [lia|].
  cbn [starLoop]. rewrite m_Chr. destruct (s !! i) as [x|] eqn:Hx.
  - rewrite (drop_S _ _ _ Hx) in *. cbn [spanLen] in *. destruct (p x).
    + assert ((i <? S i) = true) as -> by (apply Nat.ltb_lt; lia).
      rewrite IH by lia. f_equal. f_equal. lia.
    + unfold accept. f_equal. f_equal. lia.
  - rewrite drop_ge by (apply lookup_ge_None in Hx; lia). simpl.
    unfold accept. f_equal. f_equal. lia.
Qed.

Lemma m_PlusChr_exact (s : jsstring) (p : N → bool) (i : nat) (x : N) :
  s !! i = Some x → p x = true →
  m s (Plus (Chr p)) i [] accept
  = Some (S i + spanLen p (drop (S i) s), []).
Proof.
  intros Hx Hp. unfold Plus. rewrite m_Seq, m_Chr, Hx, Hp.
  change (m s (Star (Chr p)) (S i) [] accept)
    with (starLoop (m s (Chr p)) accept (S (length s)) (S i) []).
  apply starLoop_Chr_exact.
  pose proof (spanLen_le p (drop (S i) s)). rewrite length_drop in *. lia.
Qed.

Lemma spanLen_run (p : N → bool) (run rest : jsstring) :
  Forall (λ x, p x = true) run →
  match rest with x :: _ => p x = false | [] => True end →
  spanLen p (run ++ rest) = length run.
Proof.
  intros Hrun Hrest. induction Hrun as [|x run Hx Hrun IH]; simpl.
  - destruct rest as [|y rest]; [done|]. simpl. by rewrite Hrest.
  - by rewrite Hx, IH.
Qed.

(** One run of characters of a class between texts without any: the run is
    what a global replacement rewrites. *)
Lemma replaceGlobal_one_run (p : N → bool) (f : jsstring → caps → jsstring)
    (a run b : jsstring) :
  Forall (λ x, p x = false) a → Forall (λ x, p x = false) b →
  Forall (λ x, p x = true) run → run ≠ [] →
  replaceGlobal (a ++ run ++ b) (Plus (Chr p)) f = a ++ f run [] ++ b.
Proof.
  intros Ha Hb Hrun Hne. set (s := a ++ run ++ b).
  destruct run as [|x run]; [done|]. clear Hne.
  apply Forall_cons in Hrun as [Hx Hrun].
  assert (s !! length a = Some x) as Hs.
  { unfold s. by rewrite lookup_app_r, Nat.sub_diag by lia. }
  assert (∀ i, i < length a → m s (Plus (Chr p)) i [] accept = None) as Hbefore.
  { intros i Hi. apply m_PlusChr_None. unfold s. rewrite lookup_app_l by done.
    destruct (a !! i) as [y|] eqn:Hy; [|done].
    apply (proj1 (Forall_forall _ _) Ha). by eapply list_elem_of_lookup_2. }
  assert (drop (S (length a)) s = run ++ b) as Hdrop.
  { unfold s. rewrite drop_app_ge by lia.
    replace (S (length a) - length a) with 1 by lia. done. }
  assert (m s (Plus (Chr p)) (length a) [] accept
          = Some (length a + S (length run), [])) as Hat.
  { rewrite (m_PlusChr_exact _ _ _ _ Hs Hx), Hdrop.
    rewrite spanLen_run; [f_equal; f_equal; lia|done|].
    destruct b as [|y b]; [done|]. by apply Forall_cons in Hb as [? _]. }
  assert (∀ i, length a + S (length run) ≤ i →
               m s (Plus (Chr p)) i [] accept = None) as Hafter.
  { intros i Hi. apply m_PlusChr_None. unfold s.
    rewrite lookup_app_r by lia. rewrite lookup_app_r by (simpl; lia).
    destruct (b !! _) as [y|] eqn:Hy; [|done].
    apply (proj1 (Forall_forall _ _) Hb). by eapply list_elem_of_lookup_2. }
  assert (length s = length a + S (length run) + length b) as Hlen.
  { unfold s. rewrite !length_app. simpl. lia. }
  unfold replaceGlobal. rewrite Hlen.
  replace (S (length a + S (length run) + length b))
    with (S (S (length a + length run + length b))) by lia.
  cbn [matchesFrom].
  rewrite (exec_first s (Plus (Chr p)) 0 (length a) (length a + S (length run)) []);
    [|intros; apply Hbefore; lia|exact Hat|lia].
  assert ((length a + S (length run) =? length a) = false) as ->
    by (apply Nat.eqb_neq; lia).
  rewrite (exec_None_from s _ _ Hafter). cbn [assemble].
  assert (substring s 0 (length a) = a) as -> by apply MoreJSFacts.substring_prefix.
  assert (substring s (length a) (length a + S (length run)) = x :: run) as ->
    by apply (MoreJSFacts.substring_middle a (x :: run) b).
  assert (drop (length a + S (length run)) s = b) as ->.
  { unfold s. rewrite drop_app_ge by lia.
    replace (length a + S (length run) - length a) with (length (x :: run))
      by (simpl; lia).
    by rewrite drop_app_length. }
  done.
Qed.

End ReplaceFacts.

(** ** Superscripts and subscripts *)

Module HtmlUtilsProps.
Import JS JSFacts Regex RegexFacts ReplaceFacts Sanitizer HtmlUtils.

(** *** [normalizeUnicode] of the simulation-code sanitizer *)

Lemma lookupUnicode_elem (t : list (N * jsstring)) (ch : N) (v : jsstring) :
  lookupUnicode t ch = Some v → (ch, v) ∈ t.
Proof.
  induction t as [|[k v'] t IH]; [done|]. cbn [lookupUnicode].
  destruct (N.eqb ch k) eqn:E.
  - apply N.eqb_eq in E as ->. intros [= ->]. apply list_elem_of_here.
  - intros H. apply list_elem_of_further. by apply IH.
Qed.

Lemma m_Chr_Some (s : jsstring) (p : N → bool) (i e : nat) (c : caps) :
  m s (Chr p) i [] accept = Some (e, c) →
  ∃ x, s !! i = Some x ∧ p x = true ∧ e = S i ∧ substring s i e = [x].
Proof.
  rewrite m_Chr_accept. destruct (s !! i) as [x|] eqn:E; [|done].
  destruct (p x) eqn:Hp; [|done]. intros [= <- <-]. exists x.
  split; [done|]. split; [done|]. split; [done|].
  by apply MoreJSFacts.substring_one.
Qed.

(** X13. After the Unicode replacement of [sanitizeSimulationCode]
    no character of the table [UNICODE_TO_ASCII] is left in the code. *)
Theorem normalizeUnicode_leaves_no_table_character (code : jsstring) :
  noUnicode (normalizeUnicode code) = true.
Proof.
  unfold noUnicode. apply List.forallb_forall. intros x Hx.
  apply list_elem_of_In in Hx. revert x Hx. apply Forall_forall.
  unfold normalizeUnicode, UNICODE_REPLACE_RE.
  apply (replaceGlobal_Forall code (λ c, negb (inUnicodeTable c) = true)).
  - simpl. lia.
  - intros i x Hx. rewrite m_Chr_accept, Hx.
    destruct (inUnicodeTable x); [done|]. done.
  - intros p e c Hm. apply m_Chr_Some in Hm as (x & Hx & Hp & -> & ->).
    unfold inUnicodeTable in Hp. apply bool_decide_eq_true in Hp as [v Hv].
    rewrite Hv. cbn [default].
    apply lookupUnicode_elem in Hv.
    assert (Forall (λ kv : N * jsstring,
                      forallb (λ c, negb (inUnicodeTable c)) kv.2 = true)
              UNICODE_TO_ASCII) as Htable.
    { apply (bool_decide_unpack _). vm_compute. exact I. }
    apply (proj1 (Forall_forall _ _) Htable) in Hv. cbn [snd] in Hv.
    apply Forall_forall. intros y Hy.
    apply (proj1 (List.forallb_forall _ _) Hv). by apply list_elem_of_In.
Qed.

(** *** [sanitizeUnicodeMath] *)

Local Abbreviation plain := (λ c : N, isScript c = false).

Lemma tables_plain :
  Forall (λ kv : N * jsstring, kv.2 ≠ [] ∧ Forall plain kv.2)
    (SUPERSCRIPT_MAP ++ SUBSCRIPT_MAP).
Proof.
  repeat (constructor; [split; [done|by repeat constructor]|]). constructor.
Qed.

Lemma toAscii_plain (table : list (N * jsstring)) (matched : jsstring) :
  table ⊆ SUPERSCRIPT_MAP ++ SUBSCRIPT_MAP →
  Forall (λ x, inTable table x = true) matched →
  Forall plain (toAscii table matched).
Proof.
  intros Htable Hm. unfold toAscii. apply Forall_flat_map.
  eapply Forall_impl; [exact Hm|]. intros x Hx. cbv beta in *.
  unfold inTable in Hx. apply bool_decide_eq_true in Hx as [v Hv]. rewrite Hv.
  apply lookupUnicode_elem, Htable in Hv.
  apply (proj1 (Forall_forall _ _) tables_plain) in Hv as [Hne Hv].
  cbn [snd] in *. destruct v; [done|]. done.
Qed.

Lemma tagged_plain (table : list (N * jsstring)) (opening closing : jsstring)
    (s : jsstring) (p e : nat) (c : caps) :
  table ⊆ SUPERSCRIPT_MAP ++ SUBSCRIPT_MAP →
  Forall plain opening → Forall plain closing →
  m s (Plus (Chr (inTable table))) p [] accept = Some (e, c) →
  Forall plain (opening ++ toAscii table (substring s p e) ++ closing).
Proof.
  intros Htable Ho Hc Hm. apply Forall_app. split; [done|].
  apply Forall_app. split; [|done]. apply toAscii_plain; [done|].
  by eapply m_PlusChr_Some.
Qed.

Lemma isScript_false (x : N) :
  isScript x = false ↔ inTable SUPERSCRIPT_MAP x = false ∧ inTable SUBSCRIPT_MAP x = false.
Proof. unfold isScript. apply orb_false_iff. Qed.

Lemma superscripts_replaced (html : jsstring) :
  Forall (λ x, inTable SUPERSCRIPT_MAP x = false)
    (replaceGlobal html SUPERSCRIPT_RE
       (λ matched _, js "<sup>" ++ toAscii SUPERSCRIPT_MAP matched ++ js "</sup>")).
Proof.
  apply replaceGlobal_Forall.
  - simpl. lia.
  - intros i x Hx Hm. apply m_PlusChr_None in Hm. by rewrite Hx in Hm.
  - intros p e c Hm.
    eapply Forall_impl;
      [apply (tagged_plain SUPERSCRIPT_MAP (js "<sup>") (js "</sup>") html p e c)|].
    + intros x Hx. apply elem_of_app. by left.
    + by repeat constructor.
    + by repeat constructor.
    + exact Hm.
    + intros x Hx. by apply isScript_false in Hx as [? _].
Qed.

Lemma sanitizeUnicodeMath_no_script (html : jsstring) :
  Forall (λ c, isScript c = false) (sanitizeUnicodeMath html).
Proof.
  unfold sanitizeUnicodeMath. cbv zeta.
  set (result := replaceGlobal html SUPERSCRIPT_RE _).
  assert (Forall (λ x, inTable SUPERSCRIPT_MAP x = false) result) as Hsup
    by apply superscripts_replaced.
  apply replaceGlobal_Forall.
  - simpl. lia.
  - intros i x Hx Hm. apply m_PlusChr_None in Hm. rewrite Hx in Hm.
    apply isScript_false. split; [|done].
    apply (proj1 (Forall_forall _ _) Hsup). by eapply list_elem_of_lookup_2.
  - intros p e c Hm.
    apply (tagged_plain SUBSCRIPT_MAP (js "<sub>") (js "</sub>") result p e c).
    + intros x Hx. apply elem_of_app. by right.
    + by repeat constructor.
    + by repeat constructor.
    + exact Hm.
Qed.

Lemma sanitizeUnicodeMath_plain (html : jsstring) :
  Forall (λ c, isScript c = false) html → sanitizeUnicodeMath html = html.
Proof.
  intros H. unfold sanitizeUnicodeMath. cbv zeta.
  unfold SUPERSCRIPT_RE, SUBSCRIPT_RE.
  rewrite (replaceGlobal_PlusChr_id html (inTable SUPERSCRIPT_MAP)).
  - apply replaceGlobal_PlusChr_id.
    eapply Forall_impl; [exact H|]. intros x Hx. by apply isScript_false in Hx as [_ ?].
  - eapply Forall_impl; [exact H|]. intros x Hx. by apply isScript_false in Hx as [? _].
Qed.

(** X14. The result of [sanitizeUnicodeMath] holds no superscript or
    subscript character of its two tables; a text that holds none is
    returned as it is; so applying the function twice gives what applying it
    once gives. *)
Theorem sanitizeUnicodeMath_idempotent (html : jsstring) :
  Forall (λ c, isScript c = false) (sanitizeUnicodeMath html)
  ∧ (Forall (λ c, isScript c = false) html → sanitizeUnicodeMath html = html)
  ∧ sanitizeUnicodeMath (sanitizeUnicodeMath html) = sanitizeUnicodeMath html.
Proof.
  split; [apply sanitizeUnicodeMath_no_script|].
  split; [apply sanitizeUnicodeMath_plain|].
  apply sanitizeUnicodeMath_plain, sanitizeUnicodeMath_no_script.
Qed.

Lemma subscript_no_superscript (x : N) :
  inTable SUBSCRIPT_MAP x = true → inTable SUPERSCRIPT_MAP x = false.
Proof.
  unfold inTable at 1. intros [v Hv]%bool_decide_eq_true.
  apply lookupUnicode_elem in Hv.
  assert (Forall (λ kv : N * jsstring, inTable SUPERSCRIPT_MAP kv.1 = false)
            SUBSCRIPT_MAP) as H by (by repeat constructor).
  by apply (proj1 (Forall_forall _ _) H) in Hv.
Qed.

(** X15. A run of superscript characters between two texts without
    any script character becomes one [<sup>] element holding the ASCII
    characters of the run, the texts around it unchanged; a run of subscript
    characters becomes one [<sub>] element in the same way. *)
Theorem script_run_becomes_one_tag (before run after : jsstring) :
  Forall (λ c, isScript c = false) before →
  Forall (λ c, isScript c = false) after →
  run ≠ [] →
  (Forall (λ c, inTable SUPERSCRIPT_MAP c = true) run →
   sanitizeUnicodeMath (before ++ run ++ after)
   = before ++ (js "<sup>" ++ toAscii SUPERSCRIPT_MAP run ++ js "</sup>") ++ after)
  ∧ (Forall (λ c, inTable SUBSCRIPT_MAP c = true) run →
     sanitizeUnicodeMath (before ++ run ++ after)
     = before ++ (js "<sub>" ++ toAscii SUBSCRIPT_MAP run ++ js "</sub>") ++ after).
Proof.
  intros Ha Hb Hne.
  assert (Forall (λ x, inTable SUPERSCRIPT_MAP x = false) before
          ∧ Forall (λ x, inTable SUBSCRIPT_MAP x = false) before) as [Ha1 Ha2].
  { split; (eapply Forall_impl; [exact Ha|]); intros x Hx;
      apply isScript_false in Hx; tauto. }
  assert (Forall (λ x, inTable SUPERSCRIPT_MAP x = false) after
          ∧ Forall (λ x, inTable SUBSCRIPT_MAP x = false) after) as [Hb1 Hb2].
  { split; (eapply Forall_impl; [exact Hb|]); intros x Hx;
      apply isScript_false in Hx; tauto. }
  split; intros Hrun; unfold sanitizeUnicodeMath; cbv zeta;
    unfold SUPERSCRIPT_RE, SUBSCRIPT_RE.
  - rewrite (replaceGlobal_one_run (inTable SUPERSCRIPT_MAP)) by done.
    apply replaceGlobal_PlusChr_id.
    apply Forall_app. split; [done|]. apply Forall_app. split; [|done].
    assert (Forall plain (js "<sup>" ++ toAscii SUPERSCRIPT_MAP run ++ js "</sup>"))
      as Htag.
    { apply Forall_app. split; [by repeat constructor|].
      apply Forall_app. split; [|by repeat constructor].
      apply toAscii_plain; [|done]. intros x Hx. apply elem_of_app. by left. }
    eapply Forall_impl; [exact Htag|]. intros x Hx.
    apply isScript_false in Hx. tauto.
  - rewrite (replaceGlobal_PlusChr_id _ (inTable SUPERSCRIPT_MAP)).
    + by rewrite (replaceGlobal_one_run (inTable SUBSCRIPT_MAP)) by done.
    + apply Forall_app. split; [done|]. apply Forall_app. split; [|done].
      eapply Forall_impl; [exact Hrun|]. intros x. apply subscript_no_superscript.
Qed.

Lemma script_run_becomes_one_tag_witness :
  sanitizeUnicodeMath (js "H" ++ [8322%N] ++ js "O") = js "H<sub>2</sub>O"
  ∧ sanitizeUnicodeMath (js "x" ++ [178%N; 8314%N; 8319%N] ++ js ".")
    = js "x<sup>2+n</sup>.".
Proof.
  split.
  - refine (proj2 (script_run_becomes_one_tag (js "H") [8322%N] (js "O") _ _ _) _);
      [by repeat constructor|by repeat constructor|done|by repeat constructor].
  - refine (proj1 (script_run_becomes_one_tag (js "x") [178%N; 8314%N; 8319%N]
                     (js ".") _ _ _) _);
      [by repeat constructor|by repeat constructor|done|by repeat constructor].
Defined.

End HtmlUtilsProps.

(** ** Scopes and undefined names *)

Module ScopeProps.
Import JS JSFacts Validator ValidatorProps ScopeNotions.

(** *** Every error is a syntax error or an undefined name *)

Lemma usageErrors_kind (scopes : list ScopeInfo) (i : nat)
    (u : jsstring * list nat) :
  Forall (λ e, type e = ErrUndefined ∧ isKnownGlobal (variable e) = false
               ∧ column e = 0
               ∧ message e = js "'" ++ variable e ++ js "' is not defined")
    (usageErrors scopes i u).
Proof.
  unfold usageErrors, checkUsage. destruct u as [v lines]. simpl.
  destruct (isKnownGlobal v) eqn:Hk; simpl; [constructor|].
  destruct (resolve scopes i v) as [|d ds|]; simpl.
  - constructor; [|constructor]. done.
  - destruct (_ && _); simpl; [|constructor].
    destruct (List.filter _ lines); simpl; constructor.
  - constructor.
Qed.

(** X16. [validateSimulationCode] reports two kinds of error and no
    other.  When [parse] throws, or [traverse] throws on the tree [parse]
    returned, the result is invalid and has exactly one error, a syntax error
    naming no variable (and when [parse] throws there are no warnings).
    When the tree is walked to its end, every error is an undefined-variable
    error at column 0, for a name that is not a known global, with the
    message ['X' is not defined]. *)
Theorem errors_are_syntax_or_undefined (parse : jsstring → parseOutcome)
    (walkOutcome : node → traverseOutcome) (code : jsstring) :
  let r := validateSimulationCode parse walkOutcome code in
  match parse code with
  | Parsed ast =>
      match walkOutcome ast with
      | Walked =>
          Forall (λ e, type e = ErrUndefined ∧ isKnownGlobal (variable e) = false
                       ∧ column e = 0
                       ∧ message e = js "'" ++ variable e ++ js "' is not defined")
            (errors r)
      | _ =>
          valid r = false
          ∧ ∃ e, errors r = [e] ∧ type e = ErrSyntax ∧ variable e = []
      end
  | _ =>
      valid r = false ∧ warnings r = None
      ∧ ∃ e, errors r = [e] ∧ type e = ErrSyntax ∧ variable e = []
  end.
Proof.
  intros r.
  assert (∀ msg, type (syntaxError msg) = ErrSyntax ∧ variable (syntaxError msg) = [])
    as Hsyntax.
  { intros msg. unfold syntaxError.
    by destruct (Regex.exec msg reLineColumn 0) as [[[? ?] ?]|]. }
  destruct (parse code) as [ast|msg|] eqn:Hp.
  - destruct (walkOutcome ast) as [|pushed msg|pushed] eqn:Hw.
    + destruct (validate_parsed parse walkOutcome code ast Hp Hw) as (Herr & _).
      fold r in Herr. rewrite Herr.
      apply Forall_flat_map, Forall_forall. intros isc _.
      apply Forall_flat_map, Forall_forall. intros u _. apply usageErrors_kind.
    + unfold r, validateSimulationCode. rewrite Hp, Hw. split; [done|].
      eexists. split; [done|]. apply Hsyntax.
    + unfold r, validateSimulationCode. rewrite Hp, Hw. split; [done|]. by eexists.
  - unfold r, validateSimulationCode. rewrite Hp. split; [done|]. split; [done|].
    eexists. split; [done|]. apply Hsyntax.
  - unfold r, validateSimulationCode. rewrite Hp. split; [done|]. split; [done|].
    by eexists.
Qed.

(** *** The scopes the walk builds *)

Lemma gentle_refl (st : WalkState) : gentle st st.
Proof. split; [done|]. split; [done|]. eauto. Qed.

Lemma gentle_same (st st' : WalkState) :
  allScopes st' = allScopes st → scopeStack st' = scopeStack st → gentle st st'.
Proof. intros H1 H2. split; [done|]. rewrite H1. split; [done|]. eauto. Qed.

Lemma gentle_trans (a b c : WalkState) : gentle a b → gentle b c → gentle a c.
Proof.
  intros (H1 & H2 & H3) (H4 & H5 & H6). split; [congruence|]. split; [congruence|].
  intros i sc' Hi. destruct (H6 i sc' Hi) as (sc1 & Hi1 & Hp1).
  destruct (H3 i sc1 Hi1) as (sc & Hi0 & Hp0). exists sc. split; [done|congruence].
Qed.

Lemma gentle_chained (st st' : WalkState) : gentle st st' → chained st → chained st'.
Proof.
  intros (H1 & H2 & H3) (Hne & Hst & Hpf). unfold chained.
  rewrite H1, H2. split; [done|]. split; [done|].
  intros i sc' Hi. destruct (H3 i sc' Hi) as (sc & Hi0 & ->). by apply Hpf.
Qed.

Lemma updateCurrent_gentle (f : ScopeInfo → ScopeInfo) (st : WalkState) :
  (∀ sc, parentScope (f sc) = parentScope sc) → gentle st (updateCurrent f st).
Proof.
  intros Hf. unfold gentle, updateCurrent. simpl. split; [done|].
  split; [by rewrite length_alter|]. intros i sc' Hi.
  destruct (decide (i = currentScope st)) as [->|Hne].
  - rewrite list_lookup_alter, decide_True in Hi by done.
    destruct (allScopes st !! currentScope st) as [sc|]; [|done].
    simpl in Hi. injection Hi as <-. exists sc. by rewrite Hf.
  - rewrite list_lookup_alter_ne in Hi by done. by exists sc'.
Qed.

Lemma declare_gentle (name : jsstring) (line : nat) (st : WalkState) :
  gentle st (declare name line st).
Proof. by apply updateCurrent_gentle. Qed.

Lemma recordUsage_gentle (name : jsstring) (line : nat) (st : WalkState) :
  gentle st (recordUsage name line st).
Proof. by apply updateCurrent_gentle. Qed.

Lemma foldl_gentle {A : Type} (f : WalkState → A → WalkState) (l : list A)
    (st : WalkState) :
  (∀ st x, gentle st (f st x)) → gentle st (foldl f st l).
Proof.
  intros Hf. revert st; induction l as [|x l IH]; intros st; simpl.
  - apply gentle_refl.
  - eapply gentle_trans; [apply Hf|apply IH].
Qed.

Lemma onVariableDeclarator_gentle (n : node) (st : WalkState) :
  gentle st (onVariableDeclarator n st).
Proof.
  unfold onVariableDeclarator.
  destruct (nodeField n Kid) as [id|]; [|apply gentle_refl].
  destruct (nodeTy id); try apply gentle_refl.
  - destruct (nodeField n Kinit) as [init|]; [|apply declare_gentle].
    destruct (bindsGeometryElement init); [|apply declare_gentle].
    eapply gentle_trans; [apply declare_gentle|]. by apply gentle_same.
  - apply foldl_gentle. intros st' prop.
    destruct (nodeTy prop); try apply gentle_refl.
    + destruct (nodeTy <$> nodeField prop Kvalue) as [[]|]; try apply gentle_refl.
      apply declare_gentle.
    + destruct (nodeTy <$> nodeField prop Kargument) as [[]|]; try apply gentle_refl.
      apply declare_gentle.
  - apply foldl_gentle. intros st' el.
    destruct (nodeTy el); try apply gentle_refl. apply declare_gentle.
Qed.

Lemma pushScope_opened (names : list jsstring) (st : WalkState) :
  opened st (pushScope names st).
Proof.
  unfold opened, pushScope. simpl. split; [done|].
  split; [rewrite length_app; simpl; lia|].
  intros (Hne & Hst & Hpf). unfold chained. simpl. split; [done|].
  rewrite length_app. simpl. split.
  - constructor; [lia|]. eapply Forall_impl; [exact Hst|]. simpl. lia.
  - intros i sc Hi. destruct (decide (i < length (allScopes st))) as [Hlt|Hge].
    + rewrite lookup_app_l in Hi by done. by apply Hpf.
    + rewrite lookup_app_r in Hi by lia.
      destruct (i - length (allScopes st)) as [|k] eqn:Hk; [|by destruct k].
      injection Hi as <-. simpl. unfold currentScope.
      destruct (scopeStack st) as [|top rest]; [done|]. simpl.
      apply Forall_cons in Hst as [Htop _]. lia.
Qed.

Lemma opened_after_gentle (a b c : WalkState) : gentle a b → opened b c → opened a c.
Proof.
  intros Hg (H1 & H2 & H3). pose proof Hg as (G1 & G2 & G3).
  split; [congruence|]. split; [congruence|].
  intros Ha. apply H3. by eapply gentle_chained.
Qed.

Lemma enterNode_stack (parent : option node) (key : fieldKey) (n : node)
    (st : WalkState) :
  if opensScope parent n then opened st (enterNode parent key n st)
  else gentle st (enterNode parent key n st).
Proof.
  unfold opensScope, enterNode. destruct (nodeTy n) eqn:Hty;
    try apply gentle_refl; try apply pushScope_opened.
  - unfold onIdentifier. rewrite Hty. destruct (notAUsage parent key);
      [apply gentle_refl|apply recordUsage_gentle].
  - eapply opened_after_gentle; [|apply pushScope_opened].
    unfold onFunctionDeclaration.
    destruct (nodeTy <$> nodeField n Kid) as [[]|]; try apply gentle_refl.
    apply declare_gentle.
  - destruct (blockNeedsScope parent); [apply pushScope_opened|apply gentle_refl].
  - apply onVariableDeclarator_gentle.
  - unfold onMemberExpression.
    destruct (nodeTy <$> nodeField n Kobject) as [[]|]; try apply gentle_refl.
    destruct (nodeTy <$> nodeField n Kproperty) as [[]|]; try apply gentle_refl.
    destruct (_ && _); [by apply gentle_same|apply gentle_refl].
Qed.

Lemma exitNode_stack (parent : option node) (n : node) (st : WalkState) :
  exitNode parent n st = if opensScope parent n then popScope st else st.
Proof.
  unfold exitNode, opensScope. by destruct (nodeTy n).
Qed.

Lemma walked_refl (st : WalkState) : walked st st.
Proof. split; [done|]. split; [lia|done]. Qed.

Lemma walked_trans (a b c : WalkState) : walked a b → walked b c → walked a c.
Proof.
  intros (H1 & H2 & H3) (H4 & H5 & H6). split; [congruence|]. split; [lia|auto].
Qed.

Lemma gentle_walked (st st' : WalkState) : gentle st st' → walked st st'.
Proof.
  intros Hg. pose proof Hg as (H1 & H2 & H3). split; [done|]. split; [lia|].
  by apply gentle_chained.
Qed.

Lemma traverse_walked (n : node) :
  ∀ parent key st, walked st (traverse parent key n st).
Proof.
  induction n as [ty line children IH] using node_induction.
  intros parent key st. cbn [traverse].
  set (n := Node ty line children).
  assert (∀ st1, walked st1
            (foldl (λ st kc, let '(k, c) := kc in traverse (Some n) k c st)
               st1 children)) as Hkids.
  { generalize (Some n) as p. clear -IH.
    induction IH as [|[k c] cs Hc _ IHcs]; intros p st1; simpl.
    - apply walked_refl.
    - eapply walked_trans; [apply Hc|apply IHcs]. }
  rewrite exitNode_stack. pose proof (enterNode_stack parent key n st) as Henter.
  specialize (Hkids (enterNode parent key n st)).
  destruct (opensScope parent n).
  - destruct Henter as (E1 & E2 & E3). destruct Hkids as (K1 & K2 & K3).
    unfold walked, popScope. simpl. rewrite K1, E1. simpl. split; [done|].
    split; [lia|]. intros Hc. pose proof Hc as (Hne & Hst & Hpf).
    destruct (K3 (E3 Hc)) as (_ & Hst' & Hpf'). unfold chained. simpl.
    split; [done|]. split; [|done].
    eapply Forall_impl; [exact Hst|]. simpl. lia.
  - eapply walked_trans; [apply gentle_walked, Henter|apply Hkids].
Qed.

Lemma walkProgram_chained (ast : node) :
  scopeStack (walkProgram ast) = [0] ∧ chained (walkProgram ast).
Proof.
  destruct (traverse_walked ast None Kother initialWalk) as (H1 & _ & H3).
  split; [done|]. apply H3. unfold chained, initialWalk. simpl.
  split; [done|]. split; [by repeat constructor|].
  intros [|i] sc Hi; [|done]. by injection Hi as <-.
Qed.

(** *** The climb through the scope chain *)

Lemma resolveFrom_None (fuel : nat) (scopes : list ScopeInfo) (X : jsstring) :
  resolveFrom fuel scopes None X = NotDeclared.
Proof. by destruct fuel. Qed.

(** With parents first, the climb from scope [i] needs no more than [i + 1]
    rounds. *)
Lemma resolveFrom_fuel (scopes : list ScopeInfo) (X : jsstring) :
  parentsFirst scopes →
  ∀ i fuel, i < fuel →
    resolveFrom fuel scopes (Some i) X = resolveFrom (S i) scopes (Some i) X.
Proof.
  intros Hpf i. induction i as [i IH] using lt_wf_ind. intros fuel Hfuel.
  destruct fuel as [|fuel]; [lia|]. cbn [resolveFrom].
  destruct (scopes !! i) as [sc|] eqn:Hi; [|done].
  destruct (mapGet (declarations sc) X); [done|].
  destruct (setHas (functionParams sc) X); [done|].
  specialize (Hpf i sc Hi). destruct (parentScope sc) as [p|].
  - rewrite (IH p Hpf fuel) by lia. by rewrite (IH p Hpf i) by lia.
  - by rewrite !resolveFrom_None.
Qed.

Lemma resolveFrom_visible (fuel : nat) (scopes : list ScopeInfo) (i : nat)
    (X : jsstring) :
  unresolved (resolveFrom fuel scopes (Some i) X) = false →
  visibleFrom scopes i X.
Proof.
  revert i; induction fuel as [|fuel IH]; intros i; [done|]. cbn [resolveFrom].
  destruct (scopes !! i) as [sc|] eqn:Hi; [|done].
  destruct (mapGet (declarations sc) X) as [d|] eqn:Hd.
  { intros _. exists i, sc. split; [by econstructor|]. split; [done|].
    unfold bindsName, mapHas. rewrite Hd. rewrite bool_decide_eq_true_2; [done|].
    by eexists. }
  destruct (setHas (functionParams sc) X) eqn:Hp.
  { intros _. exists i, sc. split; [by econstructor|]. split; [done|].
    unfold bindsName. by rewrite Hp, orb_true_r. }
  destruct (parentScope sc) as [p|] eqn:Hpar; [|by rewrite resolveFrom_None].
  intros H. destruct (IH p H) as (j & scj & Hchain & Hj & Hb).
  exists j, scj. split; [|done]. by eapply chain_up.
Qed.

Lemma visible_resolveFrom (scopes : list ScopeInfo) (i j : nat) (scj : ScopeInfo)
    (X : jsstring) :
  parentsFirst scopes → inChain scopes i j → scopes !! j = Some scj →
  bindsName scj X = true →
  unresolved (resolveFrom (S i) scopes (Some i) X) = false.
Proof.
  intros Hpf Hchain Hj Hb. induction Hchain as [i sc Hi|i p j sc Hi Hpar Hchain IH].
  - cbn [resolveFrom]. rewrite Hi. assert (sc = scj) as -> by congruence.
    destruct (mapGet (declarations scj) X) as [d|] eqn:Hd; [done|].
    unfold bindsName, mapHas in Hb. rewrite Hd in Hb.
    rewrite bool_decide_eq_false_2 in Hb by (by intros [? ?]).
    simpl in Hb. by rewrite Hb.
  - cbn [resolveFrom]. rewrite Hi.
    destruct (mapGet (declarations sc) X); [done|].
    destruct (setHas (functionParams sc) X); [done|]. rewrite Hpar.
    pose proof (Hpf i sc Hi) as Hlt. rewrite Hpar in Hlt.
    rewrite (resolveFrom_fuel scopes X Hpf p i) by lia. by apply IH.
Qed.

Lemma resolve_visible (scopes : list ScopeInfo) (i : nat) (X : jsstring) :
  parentsFirst scopes →
  unresolved (resolve scopes i X) = false ↔ visibleFrom scopes i X.
Proof.
  intros Hpf. split; [apply resolveFrom_visible|].
  intros (j & scj & Hchain & Hj & Hb). unfold resolve.
  assert (i < length scopes) as Hlt.
  { destruct Hchain; by eapply lookup_lt_Some. }
  rewrite (resolveFrom_fuel scopes X Hpf i) by done.
  by eapply visible_resolveFrom.
Qed.

(** X17. When the walk of a program ends, the scope stack holds the
    root scope alone; the root is the one scope without a parent and every
    other scope was created after its parent; so the look-up of a name,
    which climbs from parent to parent, finds its answer within as many
    steps as there are scopes, and more steps change nothing. *)
Theorem scope_chains_end_at_the_root (ast : node) :
  let st := walkProgram ast in
  let scopes := allScopes st in
  scopeStack st = [0]
  ∧ parentsFirst scopes
  ∧ (∀ i X extra,
        resolveFrom (length scopes + extra) scopes (Some i) X = resolve scopes i X).
Proof.
  intros st scopes. destruct (walkProgram_chained ast) as (Hstack & _ & _ & Hpf).
  fold st scopes in Hstack, Hpf. split; [done|]. split; [done|].
  intros i X extra. unfold resolve.
  destruct (decide (i < length scopes)) as [Hlt|Hge].
  - rewrite (resolveFrom_fuel scopes X Hpf i) by lia.
    by rewrite (resolveFrom_fuel scopes X Hpf i (length scopes)) by lia.
  - assert (scopes !! i = None) as Hi by (apply lookup_ge_None; lia).
    destruct (length scopes + extra) as [|f1], (length scopes) as [|f2];
      cbn [resolveFrom]; by rewrite ?Hi.
Qed.

(** *** Which names are reported as undefined *)

Lemma usageErrors_cases (scopes : list ScopeInfo) (i : nat) (X : jsstring)
    (lines : list nat) :
  usageErrors scopes i (X, lines)
  = if isKnownGlobal X then []
    else if unresolved (resolve scopes i X)
         then [undefinedError X (default 0 (head lines))] else [].
Proof.
  unfold usageErrors, checkUsage. destruct (isKnownGlobal X); [done|].
  destruct (resolve scopes i X) as [|d ds|]; simpl; [done| |done].
  destruct (_ && _); [|done]. by destruct (List.filter _ lines).
Qed.

Lemma errorsFor_readers (scopes : list ScopeInfo) (X : jsstring)
    (iscs : list (nat * ScopeInfo)) :
  Forall (λ isc, NoDup (usages isc.2).*1) iscs →
  errorsFor X (flat_map (scopeErrors scopes) iscs)
  = if isKnownGlobal X then []
    else (λ reader : nat * list nat, undefinedError X (default 0 (head reader.2)))
           <$> List.filter (λ reader : nat * list nat,
                              unresolved (resolve scopes reader.1 X))
                 (omap (λ isc : nat * ScopeInfo,
                          (λ lines, (isc.1, lines)) <$> mapGet (usages isc.2) X)
                    iscs).
Proof.
  induction 1 as [|[i sc] iscs Hnd Hall IH].
  { simpl. by destruct (isKnownGlobal X). }
  change (flat_map (scopeErrors scopes) ((i, sc) :: iscs))
    with (flat_map (usageErrors scopes i) (usages sc)
            ++ flat_map (scopeErrors scopes) iscs).
  rewrite errorsFor_app, (errorsFor_scope _ _ _ _ Hnd), IH.
  assert (∀ f : nat * ScopeInfo → option (nat * list nat),
            omap f ((i, sc) :: iscs)
            = match f (i, sc) with Some y => y :: omap f iscs | None => omap f iscs end)
    as Homap by done.
  rewrite Homap. cbn [fst snd].
  destruct (mapGet (usages sc) X) as [lines|]; cbn [fmap option_fmap option_map].
  - rewrite usageErrors_cases. destruct (isKnownGlobal X); [done|].
    cbn [List.filter fst]. by destruct (unresolved (resolve scopes i X)).
  - done.
Qed.

(** X18. For every program that parses and that the walker walks to its
    end, and every name [X]: the errors that name [X] are none when [X] is a
    known global; otherwise there is one for each scope that reads [X] and
    from which the look-up finds no binding, in the order of the scopes, at
    the line of the first read recorded in that scope.  The look-up finds no
    binding exactly when no scope of the chain from the reading scope up to
    the root declares [X] or has it as a parameter. *)
Theorem undefined_errors_characterised (parse : jsstring → parseOutcome)
    (walkOutcome : node → traverseOutcome) (code : jsstring) (ast : node)
    (X : jsstring) :
  parse code = Parsed ast →
  walkOutcome ast = Walked →
  let scopes := allScopes (walkProgram ast) in
  errorsFor X (errors (validateSimulationCode parse walkOutcome code))
  = (if isKnownGlobal X then []
     else (λ reader : nat * list nat,
             undefinedError X (default 0 (head reader.2)))
            <$> List.filter (λ reader : nat * list nat,
                               unresolved (resolve scopes reader.1 X))
                  (readersOf scopes X))
  ∧ (∀ i, unresolved (resolve scopes i X) = true ↔ ¬ visibleFrom scopes i X).
Proof.
  intros Hp Hw scopes. split.
  - destruct (validate_parsed parse walkOutcome code ast Hp Hw) as (Herr & _).
    fold scopes in Herr. rewrite Herr.
    apply errorsFor_readers, wellFormed_imap, walkProgram_wf.
  - intros i. destruct (walkProgram_chained ast) as (_ & _ & _ & Hpf).
    fold scopes in Hpf. rewrite <- (resolve_visible scopes i X Hpf).
    by destruct (unresolved _).
Qed.

Import Examples.

Lemma undefined_errors_characterised_witness :
  errorsFor (js "f")
    (errors (validateSimulationCode parseExamples walkExamples readInTwoScopesCode))
  = []
  ∧ errorsFor (js "foo")
      (errors (validateSimulationCode parseExamples walkExamples readInTwoScopesCode))
    = [undefinedError (js "foo") 1; undefinedError (js "foo") 3].
Proof.
  split.
  - exact (proj1 (undefined_errors_characterised parseExamples walkExamples
                    readInTwoScopesCode readInTwoScopes (js "f") eq_refl eq_refl)).
  - exact (proj1 (undefined_errors_characterised parseExamples walkExamples
                    readInTwoScopesCode readInTwoScopes (js "foo") eq_refl eq_refl)).
Defined.

End ScopeProps.

(** ** The guards of a scene *)

Module SceneGuardsProps.
Import JS JSFacts ThreeSandbox ThreeSandboxProps ValidatorProps SceneGuards.

(** *** The auto-fix log *)

Lemma logAutoFixOnce_counts (type details key : jsstring) (st : AutoFixState) :
  default 0 (mapGet (autoFixCounts (logAutoFixOnce type details st)) key)
  = default 0 (mapGet (autoFixCounts st) key)
    + (if streq (autoFixKey type details) key then 1 else 0).
Proof.
  unfold logAutoFixOnce. cbv zeta.
  set (k := autoFixKey type details).
  assert (autoFixCounts
            (if default 0 (mapGet (autoFixCounts st) k) =? 0
             then mkAutoFix (mapSet (autoFixCounts st) k
                               (default 0 (mapGet (autoFixCounts st) k) + 1))
                    (autoFixLogged st ++ [(type, details)])
             else mkAutoFix (mapSet (autoFixCounts st) k
                               (default 0 (mapGet (autoFixCounts st) k) + 1))
                    (autoFixLogged st))
          = mapSet (autoFixCounts st) k
              (default 0 (mapGet (autoFixCounts st) k) + 1)) as ->
    by (by destruct (_ =? 0)).
  rewrite mapGet_mapSet. destruct (streq key k) eqn:E.
  - apply streq_true in E as ->. rewrite (proj2 (streq_true k k) eq_refl). done.
  - apply streq_false in E. rewrite (proj2 (streq_false k key)) by done. lia.
Qed.

Lemma logAutoFixes_counts (calls : list (jsstring * jsstring)) (key : jsstring)
    (st : AutoFixState) :
  default 0 (mapGet (autoFixCounts (logAutoFixes calls st)) key)
  = default 0 (mapGet (autoFixCounts st) key) + callsWithKey key calls.
Proof.
  revert st; induction calls as [|[type details] calls IH]; intros st.
  - unfold callsWithKey. simpl. lia.
  - unfold logAutoFixes in *. cbn [foldl fst snd]. rewrite IH, logAutoFixOnce_counts.
    unfold callsWithKey. cbn [List.filter fst snd].
    destruct (streq (autoFixKey type details) key); simpl; lia.
Qed.

Lemma mapSet_positive (m : list (jsstring * nat)) (k : jsstring) (v : nat) :
  Forall (λ kv : jsstring * nat, 0 < kv.2) m → 0 < v →
  Forall (λ kv : jsstring * nat, 0 < kv.2) (mapSet m k v).
Proof.
  intros Hm Hv. induction Hm as [|[k' v'] m Hx Hm IH]; cbn [mapSet].
  - by constructor.
  - destruct (streq k k'); by constructor.
Qed.

Lemma counted_iff (st : AutoFixState) (key : jsstring) :
  countsPositive st →
  (default 0 (mapGet (autoFixCounts st) key) =? 0)
  = negb (bool_decide (key ∈ (autoFixCounts st).*1)).
Proof.
  intros Hpos. destruct (mapGet (autoFixCounts st) key) as [v|] eqn:E.
  - rewrite bool_decide_eq_true_2 by (by eapply mapGet_Some_key).
    apply mapGet_Some_elem in E.
    apply (proj1 (Forall_forall _ _) Hpos) in E. simpl in *.
    apply Nat.eqb_neq. lia.
  - apply mapGet_None in E. by rewrite bool_decide_eq_false_2.
Qed.

Lemma logAutoFixOnce_positive (type details : jsstring) (st : AutoFixState) :
  countsPositive st → countsPositive (logAutoFixOnce type details st).
Proof.
  intros H. unfold countsPositive, logAutoFixOnce. cbv zeta.
  destruct (_ =? 0); simpl; apply mapSet_positive; (done || lia).
Qed.

Lemma logAutoFixOnce_keys (type details : jsstring) (st : AutoFixState) :
  (autoFixCounts (logAutoFixOnce type details st)).*1
  = if bool_decide (autoFixKey type details ∈ (autoFixCounts st).*1)
    then (autoFixCounts st).*1
    else (autoFixCounts st).*1 ++ [autoFixKey type details].
Proof.
  unfold logAutoFixOnce. cbv zeta. destruct (_ =? 0); simpl; apply mapSet_keys.
Qed.

(** [firstByKey] looks at [seen] as a set. *)
Lemma firstByKey_seen (seen seen' : list jsstring)
    (calls : list (jsstring * jsstring)) :
  (∀ k, k ∈ seen ↔ k ∈ seen') → firstByKey seen calls = firstByKey seen' calls.
Proof.
  revert seen seen'; induction calls as [|call calls IH]; intros seen seen' H; [done|].
  cbn [firstByKey]. cbv zeta.
  rewrite (bool_decide_ext _ _ (H (autoFixKey call.1 call.2))).
  destruct (bool_decide _); [by apply IH|]. f_equal. apply IH.
  intros k. rewrite !elem_of_cons, H. done.
Qed.

Lemma logAutoFixes_logged (calls : list (jsstring * jsstring)) (st : AutoFixState) :
  countsPositive st →
  autoFixLogged (logAutoFixes calls st)
  = autoFixLogged st ++ firstByKey (autoFixCounts st).*1 calls.
Proof.
  revert st; induction calls as [|[type details] calls IH]; intros st Hpos.
  - simpl. by rewrite app_nil_r.
  - unfold logAutoFixes in *. cbn [foldl fst snd].
    rewrite IH by by apply logAutoFixOnce_positive.
    rewrite logAutoFixOnce_keys. cbn [firstByKey fst snd]. cbv zeta.
    unfold logAutoFixOnce at 1. cbv zeta. rewrite (counted_iff _ _ Hpos).
    destruct (bool_decide (autoFixKey type details ∈ (autoFixCounts st).*1)); simpl.
    + done.
    + rewrite <- app_assoc. simpl. f_equal. f_equal. apply firstByKey_seen.
      intros k. rewrite elem_of_app, !elem_of_cons, elem_of_nil. tauto.
Qed.

(** X19. Between two resets of the auto-fix counts, of the calls of
    [logAutoFixOnce] exactly the first one for each pair of type and details
    is logged, in the order of the calls, while the count of a key is the
    number of calls made for it. *)
Theorem auto_fix_logged_once_per_key (calls : list (jsstring * jsstring))
    (st : AutoFixState) :
  let st' := logAutoFixes calls (resetAutoFixCounts st) in
  autoFixLogged st' = autoFixLogged st ++ firstByKey [] calls
  ∧ NoDup ((λ call, autoFixKey call.1 call.2) <$> firstByKey [] calls)
  ∧ ∀ key, default 0 (mapGet (autoFixCounts st') key) = callsWithKey key calls.
Proof.
  intros st'. split; [|split].
  - unfold st'. rewrite logAutoFixes_logged; [done|]. constructor.
  - assert (∀ seen cs,
              NoDup ((λ call, autoFixKey call.1 call.2) <$> firstByKey seen cs)
              ∧ ∀ k, k ∈ (λ call, autoFixKey call.1 call.2) <$> firstByKey seen cs
                     → k ∉ seen) as H.
    { intros seen cs. revert seen; induction cs as [|c cs IH]; intros seen.
      - split; [constructor|]. by intros k ?%elem_of_nil.
      - cbn [firstByKey]. cbv zeta. case_bool_decide as Hin; [apply IH|].
        destruct (IH (autoFixKey c.1 c.2 :: seen)) as [Hnd Hout].
        rewrite fmap_cons. split.
        + constructor; [|done]. intros Hk. apply Hout in Hk.
          apply Hk, list_elem_of_here.
        + intros k [->|Hk]%elem_of_cons; [done|]. apply Hout in Hk.
          by apply not_elem_of_cons in Hk as [_ ?]. }
    apply H.
  - intros key. unfold st'. by rewrite logAutoFixes_counts.
Qed.

(** *** Frames, renders and event handlers *)

Section SceneProps.
Context {Value Args : Type}.
Implicit Types (ev : @sceneEvent Value Args) (events : list (@sceneEvent Value Args)).

Lemma runScene_cons ev events (st : SceneState) :
runScene (ev :: events) st = runScene events (sceneStep st ev).
Proof. done. Qed.

(** Once the flag is set, a frame or a render changes at most the
  reference, and reports nothing. *)
Lemma sceneStep_flagged ev (st : SceneState) :
useFrameErrorRef st = true → isHandler ev = false →
useFrameErrorRef (sceneStep st ev) = true
∧ reported (simErrorHandlerRef (sceneStep st ev)) = reported (simErrorHandlerRef st).
Proof.
intros Hflag Hev. destruct ev as [h result|h callback args|key g args]; [| |done].
- cbn [sceneStep]. unfold renderComponent. cbv zeta. cbn [useFrameErrorRef].
  rewrite Hflag. by destruct result.
- cbn [sceneStep]. unfold safeFrame. by rewrite Hflag.
Qed.

Lemma runScene_flagged events (st : SceneState) :
useFrameErrorRef st = true → forallb (λ ev, negb (isHandler ev)) events = true →
useFrameErrorRef (runScene events st) = true
∧ reported (simErrorHandlerRef (runScene events st))
  = reported (simErrorHandlerRef st).
Proof.
revert st; induction events as [|ev events IH]; intros st Hflag Hevs; [done|].
cbn [forallb] in Hevs. apply andb_true_iff in Hevs as [Hev Hevs].
apply negb_true_iff in Hev.
destruct (sceneStep_flagged ev st Hflag Hev) as [Hf Hr].
rewrite runScene_cons. destruct (IH _ Hf Hevs) as [Hf' Hr']. by rewrite Hr', Hr.
Qed.

(** X20. Over any sequence of renders and animation frames of a
    scene, the error handler is called at most once: with the first failure
    (a frame callback that throws, or a render that returns nothing), if the
    flag [useFrameErrorRef] was not set at the start, and not at all if it
    was.  The flag is set at the end exactly when it was set at the start or
    there was a failure. *)
Theorem first_frame_or_render_failure_reported events (st : SceneState) :
forallb (λ ev, negb (isHandler ev)) events = true →
let st' := runScene events st in
reported (simErrorHandlerRef st')
= reported (simErrorHandlerRef st)
  ++ (if useFrameErrorRef st then [] else option_list (firstFailure events))
∧ useFrameErrorRef st'
  = useFrameErrorRef st || bool_decide (is_Some (firstFailure events)).
Proof.
revert st; induction events as [|ev events IH]; intros st Hevs st'.
- unfold st'. simpl. rewrite orb_false_r. split; [|done].
  destruct (useFrameErrorRef st); by rewrite app_nil_r.
- cbn [forallb] in Hevs. apply andb_true_iff in Hevs as [Hev Hevs].
  apply negb_true_iff in Hev. unfold st'. rewrite runScene_cons.
  destruct (useFrameErrorRef st) eqn:Hflag.
  { destruct (sceneStep_flagged ev st Hflag Hev) as [Hf Hr].
    destruct (runScene_flagged events _ Hf Hevs) as [Hf' Hr'].
    rewrite Hr', Hr, Hf', app_nil_r. done. }
  specialize (IH (sceneStep st ev) Hevs). cbv zeta in IH.
  destruct IH as [IHr IHf]. rewrite IHr, IHf.
  unfold firstFailure.
  assert (omap failure (ev :: events)
          = match failure ev with
            | Some y => y :: omap failure events
            | None => omap failure events
            end) as -> by done.
  destruct ev as [h result|h callback args|key g args]; [| |done].
  + cbn [sceneStep failure]. unfold renderComponent. cbv zeta.
    cbn [useFrameErrorRef]. rewrite Hflag.
    destruct result as [v| |t]; cbn [negb snd useFrameErrorRef simErrorHandlerRef
      beginRender reported report option_list head orb]; rewrite ?Hflag.
    * done.
    * by rewrite app_nil_r.
    * done.
  + cbn [sceneStep failure]. unfold safeFrame. rewrite Hflag.
    destruct (callback args) as [v|t]; [by rewrite Hflag|].
    cbn [negb report useFrameErrorRef simErrorHandlerRef reported head
      option_list orb]. by rewrite app_nil_r.
Qed.

(** With the flag and [fired] set, nothing is reported any more. *)
Lemma sceneStep_silent ev (st : SceneState) :
useFrameErrorRef st = true → fired (simErrorHandlerRef st) = true →
useFrameErrorRef (sceneStep st ev) = true
∧ fired (simErrorHandlerRef (sceneStep st ev)) = true
∧ reported (simErrorHandlerRef (sceneStep st ev)) = reported (simErrorHandlerRef st).
Proof.
intros Hflag Hfired. destruct ev as [h result|h callback args|key g args].
- cbn [sceneStep]. unfold renderComponent. cbv zeta. cbn [useFrameErrorRef].
  rewrite Hflag. by destruct result.
- cbn [sceneStep]. unfold safeFrame. by rewrite Hflag.
- cbn [sceneStep useFrameErrorRef simErrorHandlerRef]. split; [done|].
  rewrite guarded_user. destruct (g args) as [v|t]; [done|]. by rewrite Hfired.
Qed.

Lemma runScene_silent events (st : SceneState) :
useFrameErrorRef st = true → fired (simErrorHandlerRef st) = true →
reported (simErrorHandlerRef (runScene events st)) = reported (simErrorHandlerRef st).
Proof.
revert st; induction events as [|ev events IH]; intros st Hflag Hfired; [done|].
destruct (sceneStep_silent ev st Hflag Hfired) as (Hf & Hd & Hr).
rewrite runScene_cons, IH by done. done.
Qed.

(** X21. A render copies the flag [useFrameErrorRef] into the guard
    of the event-handler wrappers.  Once the flag is set, a render and
    whatever follows it (frames, renders, event handlers that throw) report
    nothing more.  After a render with the flag not set, an event handler
    that throws is reported to the error handler of that render. *)
Theorem render_sets_the_handler_guard (st : SceneState) (h : nat) :
(useFrameErrorRef st = true →
 ∀ (result : @rendered Value) events,
   reported (simErrorHandlerRef (runScene (Render h result :: events) st))
   = reported (simErrorHandlerRef st))
∧ (useFrameErrorRef st = false →
   ∀ (v : Value) key (g : Args → @callResult Value) args t,
     g args = Throws t →
     reported (simErrorHandlerRef
                 (runScene [Render h (Element v); Handler key g args] st))
     = reported (simErrorHandlerRef st) ++ [(h, toError t)]).
Proof.
split.
- intros Hflag result events. rewrite runScene_cons.
  rewrite runScene_silent.
  + cbn [sceneStep]. unfold renderComponent. cbv zeta. cbn [useFrameErrorRef].
    rewrite Hflag. by destruct result.
  + cbn [sceneStep]. unfold renderComponent. cbv zeta. cbn [useFrameErrorRef].
    rewrite Hflag. by destruct result.
  + cbn [sceneStep]. unfold renderComponent. cbv zeta. cbn [useFrameErrorRef].
    rewrite Hflag. by destruct result.
- intros Hflag v key g args t Hg. unfold runScene. cbn [foldl sceneStep].
  unfold renderComponent. cbv zeta. cbn [snd useFrameErrorRef simErrorHandlerRef].
  rewrite guarded_user, Hg, Hflag. done.
Qed.
End SceneProps.

Lemma first_frame_or_render_failure_reported_witness :
reported (simErrorHandlerRef
            (runScene
               [Frame 1 (λ _ : unit, @Returns nat None) ();
                Frame 1 (λ _ : unit, @Throws nat (ThrownValue (js "boom"))) ();
                Render 1 Nothing]
               (mkScene false (mkRef None false []))))
= [(1, mkErrorObj (js "boom"))].
Proof.
exact (proj1 (first_frame_or_render_failure_reported
                [Frame 1 (λ _ : unit, @Returns nat None) ();
                 Frame 1 (λ _ : unit, @Throws nat (ThrownValue (js "boom"))) ();
                 Render 1 Nothing]
                (mkScene false (mkRef None false [])) eq_refl)).
Defined.

End SceneGuardsProps.

(** ** The WAV container *)

Module WavProps.
Import JS Wav.

Lemma le16_roundtrip (v : N) :
  (v mod 256 + 256 * ((v / 256) mod 256) = v mod 65536)%N.
Proof.
  pose proof (N.Div0.div_mod v 256).
  pose proof (N.Div0.div_mod (v / 256) 256).
  pose proof (N.Div0.div_mod v 65536).
  assert (v / 65536 = v / 256 / 256)%N by (by rewrite N.Div0.div_div).
  pose proof (N.mod_upper_bound v 256).
  pose proof (N.mod_upper_bound (v / 256) 256).
  pose proof (N.mod_upper_bound v 65536).
  lia.
Qed.

Lemma le32_roundtrip (v : N) :
  (v mod 256 + 256 * ((v / 256) mod 256) + 65536 * ((v / 65536) mod 256)
   + 16777216 * ((v / 16777216) mod 256) = v mod 4294967296)%N.
Proof.
  pose proof (N.Div0.div_mod v 256).
  pose proof (N.Div0.div_mod (v / 256) 256).
  pose proof (N.Div0.div_mod (v / 65536) 256).
  pose proof (N.Div0.div_mod (v / 16777216) 256).
  pose proof (N.Div0.div_mod v 4294967296).
  assert (v / 65536 = v / 256 / 256)%N by (by rewrite N.Div0.div_div).
  assert (v / 16777216 = v / 65536 / 256)%N by (by rewrite N.Div0.div_div).
  assert (v / 4294967296 = v / 16777216 / 256)%N by (by rewrite N.Div0.div_div).
  pose proof (N.mod_upper_bound v 256).
  pose proof (N.mod_upper_bound (v / 256) 256).
  pose proof (N.mod_upper_bound (v / 65536) 256).
  pose proof (N.mod_upper_bound (v / 16777216) 256).
  pose proof (N.mod_upper_bound v 4294967296).
  lia.
Qed.

(** Copying into the part of a buffer that follows [header]. *)
Lemma setBytes_from (header source rest : list N) (k : nat) :
  k + length source ≤ length rest →
  foldl (λ target ic, <[length header + ic.1 := ic.2]> target) (header ++ rest)
    (imap (λ i c, (k + i, c)) source)
  = header ++ take k rest ++ source ++ drop (k + length source) rest.
Proof.
  revert rest k; induction source as [|c source IH]; intros rest k Hlen.
  - simpl. by rewrite Nat.add_0_r, take_drop.
  - cbn [imap foldl fst snd]. rewrite Nat.add_0_r.
    rewrite insert_app_r. cbn [length] in Hlen.
    rewrite (imap_ext _ (λ i c0, (S k + i, c0)))
      by (intros; unfold compose; f_equal; lia).
    rewrite IH by (rewrite length_insert; lia).
    f_equal.
    assert (take (S k) (<[k:=c]> rest) = take k rest ++ [c]) as ->.
    { rewrite (take_S_r _ _ c).
      - by rewrite take_insert_ge by lia.
      - apply list_lookup_insert_eq. lia. }
    rewrite drop_insert_lt by lia. rewrite <- app_assoc. cbn [app length].
    by replace (S k + length source) with (k + S (length source)) by lia.
Qed.

Lemma setBytes_app (header source rest : list N) (offset : nat) :
  offset = length header → length rest = length source →
  setBytes (header ++ rest) source offset = header ++ source.
Proof.
  intros -> Hlen. unfold setBytes.
  rewrite (imap_ext _ (λ i c, (0 + i, c))) by done.
  rewrite setBytes_from by (simpl; lia). simpl.
  by rewrite <- Hlen, drop_all, app_nil_r.
Qed.

Lemma wavBuffer_layout (binaryString : jsstring) :
  wavBuffer binaryString
  = wavHeader (length binaryString) ++ toBytes binaryString.
Proof.
  unfold wavBuffer. cbv zeta.
  assert (length (toBytes binaryString) = length binaryString) as Hlen
    by apply length_fmap.
  rewrite Hlen. unfold wavHeader. cbv zeta.
  generalize (N.of_nat (44 + length binaryString - 8)) as fileSize.
  generalize (N.of_nat (length binaryString)) as size. intros size fileSize.
  rewrite replicate_add.
  unfold writeString, setUint32, setUint16, setUint8.
  repeat match goal with
         | |- context [imap pair (js ?x)] =>
             let t := eval vm_compute in (imap pair (js x)) in
             change (imap pair (js x)) with t
         end.
  cbn [foldl fst snd].
  repeat (rewrite insert_app_l
            by (rewrite ?length_insert, ?length_replicate; simpl; lia)).
  rewrite (setBytes_app _ _ _ 44);
    [|by rewrite ?length_insert, ?length_replicate
     |by rewrite length_replicate, Hlen].
  f_equal.
Qed.

(** X22. The buffer [createAudioBlobUrl] builds is a well-formed WAV
    file for the decoded samples: 44 bytes of header and then the samples;
    read back little-endian, the header says [RIFF], the file size less 8,
    [WAVE], [fmt ], a format chunk of 16 bytes, PCM, one channel, 24000
    samples a second, 48000 bytes a second, blocks of 2 bytes, 16 bits a
    sample, [data], and the number of sample bytes (the two sizes modulo
    2^32). *)
Theorem wav_header_describes_the_samples (binaryString : jsstring) :
  let wav := wavBuffer binaryString in
  let dataSize := length binaryString in
  length wav = 44 + dataSize
  ∧ getString wav 0 4 = js "RIFF"
  ∧ getUint32 wav 4 = (N.of_nat (36 + dataSize) mod 4294967296)%N
  ∧ getString wav 8 4 = js "WAVE"
  ∧ getString wav 12 4 = js "fmt "
  ∧ getUint32 wav 16 = 16%N
  ∧ getUint16 wav 20 = 1%N
  ∧ getUint16 wav 22 = 1%N
  ∧ getUint32 wav 24 = 24000%N
  ∧ getUint32 wav 28 = 48000%N
  ∧ getUint16 wav 32 = 2%N
  ∧ getUint16 wav 34 = 16%N
  ∧ getString wav 36 4 = js "data"
  ∧ getUint32 wav 40 = (N.of_nat dataSize mod 4294967296)%N
  ∧ drop 44 wav = toBytes binaryString.
Proof.
  intros wav dataSize. unfold wav. rewrite wavBuffer_layout. fold dataSize.
  unfold wavHeader. cbv zeta.
  replace (44 + dataSize - 8) with (36 + dataSize) by lia.
  generalize (N.of_nat (36 + dataSize)) as fileSize.
  generalize (N.of_nat dataSize) as size. intros size fileSize.
  repeat split; try reflexivity.
  - rewrite length_app. unfold toBytes. rewrite length_fmap. done.
  - unfold getUint32, byteAt. cbn [lookup list_lookup app js Nat.add default].
    apply le32_roundtrip.
  - unfold getUint32, byteAt. cbn [lookup list_lookup app js Nat.add default].
    apply le32_roundtrip.
Qed.

End WavProps.

(** ** The chat request *)

Module GeminiChatProps.
Import JS JSFacts Editor EditorProps GeminiChat ValidatorProps.

Lemma toContent_role (msg : Message) :
  contentRole (toContent msg) = js "user" ∨ contentRole (toContent msg) = js "model".
Proof. unfold toContent. destruct (streq _ _); simpl; auto. Qed.

(** X23. The request [chatWithSlides] has [callGeminiChat] send: the
    system prompt is the system instruction; the contents are at most 21,
    each with the role [user] or [model], and the last one is the new
    message of the user; when the history holds no message of role [system],
    the contents are the last twenty messages of the history, in order,
    followed by the new message. *)
Theorem chat_request_shape (systemPrompt userMessage : jsstring)
    (chatHistory : list ChatMessage) :
  let body := requestBody (chatMessages systemPrompt userMessage chatHistory) in
  systemInstruction body = Some systemPrompt
  ∧ length (contents body) ≤ 21
  ∧ last (contents body) = Some (mkContent (js "user") userMessage)
  ∧ Forall (λ c, contentRole c = js "user" ∨ contentRole c = js "model")
      (contents body)
  ∧ (Forall (λ msg, chatRole msg ≠ js "system") chatHistory →
     contents body
     = ((λ msg, toContent (mkMessage (chatRole msg) (chatContent msg)))
          <$> lastN 20 chatHistory)
         ++ [mkContent (js "user") userMessage]).
Proof.
  intros body. unfold body, requestBody, chatMessages. cbv zeta.
  set (history := (λ msg, mkMessage (chatRole msg) (chatContent msg))
                    <$> lastN 20 chatHistory).
  assert (isSystem (mkMessage (js "system") systemPrompt) = true) as Hsys
    by (by apply streq_true).
  assert (isSystem (mkMessage (js "user") userMessage) = false) as Huser
    by (by apply streq_false).
  cbn [app List.find List.filter]. rewrite Hsys. cbn [negb].
  rewrite List.filter_app. cbn [List.filter]. rewrite Huser. cbn [negb].
  cbn [systemInstruction contents fmap option_fmap option_map content].
  rewrite fmap_app. cbn [fmap list_fmap]. unfold toContent at 2.
  cbn [role content].
  assert (streq (js "user") (js "assistant") = false) as ->
    by (by apply streq_false).
  split; [done|]. split; [|split; [|split]].
  - rewrite length_app, length_fmap. cbn [length].
    pose proof (List.filter_length_le (λ m, negb (isSystem m)) history) as Hle.
    unfold history in Hle at 2. rewrite length_fmap in Hle.
    pose proof (lastN_length 20 chatHistory). lia.
  - apply last_snoc.
  - apply Forall_app. split; [|by repeat constructor; left].
    apply Forall_fmap, Forall_forall. intros msg _. apply toContent_role.
  - intros Hno. f_equal.
    assert (List.filter (λ m, negb (isSystem m)) history = history) as ->.
    { apply List.forallb_filter_id, List.forallb_forall.
      intros msg Hin. apply List.in_map_iff in Hin as (cm & <- & Hcm).
      unfold isSystem. cbn [role]. apply negb_true_iff, streq_false.
      apply list_elem_of_In in Hcm. unfold lastN in Hcm.
      apply (subseteq_drop _ _ cm) in Hcm.
      by apply (proj1 (Forall_forall _ _) Hno). }
    unfold history. by rewrite <- list_fmap_compose.
Qed.

End GeminiChatProps.

(** ** The text of a slide *)

Module SlideTextProps.
Import JS JSFacts MoreJSFacts Regex RegexFacts RegexRuns ReplaceFacts SlideText.

(** *** What [tagFree] says *)

Lemma existsb_gt (s : jsstring) :
  existsb (N.eqb chGt) s = true ↔ chGt ∈ s.
Proof.
  rewrite List.existsb_exists. split.
  - intros (x & Hin & ->%N.eqb_eq). by apply list_elem_of_In.
  - intros Hin. exists chGt. split; [by apply list_elem_of_In|apply N.eqb_refl].
Qed.

Lemma tagFree_spec (s : jsstring) :
  tagFree s = true ↔ ∀ a b c, s ≠ a ++ chLt :: b ++ chGt :: c.
Proof.
  induction s as [|x s IH].
  - split; [|done]. intros _ a b c H. by destruct a.
  - cbn [tagFree]. rewrite andb_true_iff, IH. split.
    + intros [Hx Hs] a b c Heq. destruct a as [|y a].
      * injection Heq as -> ->. rewrite N.eqb_refl in Hx.
        apply negb_true_iff in Hx.
        assert (existsb (N.eqb chGt) (b ++ chGt :: c) = true) as Hex.
        { apply existsb_gt, elem_of_app. right. apply list_elem_of_here. }
        congruence.
      * injection Heq as -> ->. by apply (Hs a b c).
    + intros H. split.
      * destruct (N.eqb x chLt) eqn:Hx; [|done]. apply N.eqb_eq in Hx as ->.
        apply negb_true_iff. destruct (existsb (N.eqb chGt) s) eqn:Hex; [|done].
        apply existsb_gt, list_elem_of_split in Hex as (b & c & ->).
        by destruct (H [] b c).
      * intros a b c ->. by apply (H (x :: a) b c).
Qed.

Lemma tagFree_app (a b : jsstring) :
  chLt ∉ a → tagFree b = true → tagFree (a ++ b) = true.
Proof.
  intros Ha Hb. induction a as [|x a IH]; [done|].
  apply not_elem_of_cons in Ha as [Hx Ha]. cbn [app tagFree].
  rewrite (IH Ha), andb_true_r.
  destruct (N.eqb x chLt) eqn:E; [|done]. apply N.eqb_eq in E. congruence.
Qed.

Lemma tagFree_lookup (s : jsstring) :
  (∀ i j, i < j → s !! i = Some chLt → s !! j ≠ Some chGt) → tagFree s = true.
Proof.
  intros H. apply tagFree_spec. intros a b c ->.
  apply (H (length a) (length a + S (length b))); [lia| |].
  - by rewrite lookup_app_r, Nat.sub_diag by lia.
  - rewrite lookup_app_r by lia.
    replace (length a + S (length b) - length a) with (S (length b)) by lia.
    change ((chLt :: b ++ chGt :: c) !! S (length b))
      with ((b ++ chGt :: c) !! length b).
    by rewrite lookup_app_r, Nat.sub_diag by lia.
Qed.

Lemma existsb_filter_angle (s : jsstring) :
  existsb (N.eqb chGt) (List.filter isAngle s) = existsb (N.eqb chGt) s.
Proof.
  induction s as [|x s IH]; [done|]. cbn [List.filter existsb].
  unfold isAngle at 1. destruct (N.eqb x chLt) eqn:E1; cbn [orb existsb].
  - by rewrite IH.
  - destruct (N.eqb x chGt) eqn:E2; cbn [existsb]; rewrite IH; [done|].
    rewrite N.eqb_sym, E2. done.
Qed.

Lemma tagFree_filter (s : jsstring) :
  tagFree (List.filter isAngle s) = tagFree s.
Proof.
  induction s as [|x s IH]; [done|]. cbn [List.filter tagFree].
  unfold isAngle at 1. destruct (N.eqb x chLt) eqn:E1; cbn [orb tagFree].
  - by rewrite E1, existsb_filter_angle, IH.
  - destruct (N.eqb x chGt) eqn:E2; cbn [tagFree]; [|done].
    by rewrite E1, IH.
Qed.

(** *** Where a tag is found *)

(** A greedy run of characters of a class followed by something that
    succeeds right after the run. *)
Lemma starLoop_Chr_then (s : jsstring) (p : N → bool) (k : cont) (n i : nat)
    (c : caps) :
  spanLen p (drop i s) < n →
  is_Some (k (i + spanLen p (drop i s)) c) →
  starLoop (m s (Chr p)) k n i c = k (i + spanLen p (drop i s)) c.
Proof.
  revert i; induction n as [|n IH]; intros i Hn Hk; [lia|].
  cbn [starLoop]. rewrite m_Chr. destruct (s !! i) as [x|] eqn:Hx.
  - rewrite (drop_S _ _ _ Hx) in *. cbn [spanLen] in *. destruct (p x).
    + assert ((i <? S i) = true) as -> by (apply Nat.ltb_lt; lia).
      replace (i + S (spanLen p (drop (S i) s)))
        with (S i + spanLen p (drop (S i) s)) in * by lia.
      rewrite IH by (done || lia). by destruct Hk as [y ->].
    + by rewrite Nat.add_0_r in *.
  - rewrite drop_ge in * by (apply lookup_ge_None in Hx; lia).
    cbn [spanLen] in *. by rewrite Nat.add_0_r in *.
Qed.

(** The characters of the longest run are of the class, and the character
    after it, if any, is not. *)
Lemma spanLen_inside (p : N → bool) (l : jsstring) (j : nat) (x : N) :
  j < spanLen p l → l !! j = Some x → p x = true.
Proof.
  revert j; induction l as [|y l IH]; intros j; [simpl; lia|].
  cbn [spanLen]. destruct (p y) eqn:Hy; [|lia].
  destruct j as [|j]; [by intros _ [= <-]|]. intros Hj. apply IH. lia.
Qed.

Lemma spanLen_after (p : N → bool) (l : jsstring) (x : N) :
  l !! spanLen p l = Some x → p x = false.
Proof.
  induction l as [|y l IH]; [done|]. cbn [spanLen].
  destruct (p y) eqn:Hy; [done|]. by intros [= <-].
Qed.

Lemma occursAt_single (s : jsstring) (x : N) (i : nat) :
  occursAt s [x] i = true ↔ s !! i = Some x.
Proof.
  unfold occursAt. rewrite <- (Nat.add_0_r i) at 2. rewrite <- lookup_drop.
  destruct (drop i s) as [|y r]; [done|]. cbn [isPrefix lookup list_lookup].
  rewrite andb_true_r, N.eqb_eq. split; [by intros ->|by intros [= ->]].
Qed.

(** A [<] with a [>] somewhere after it starts a tag. *)
Lemma tag_found (s : jsstring) (i j : nat) :
  i < j → s !! i = Some chLt → s !! j = Some chGt →
  is_Some (m s reTag i [] accept).
Proof.
  intros Hij Hi Hj. unfold reTag. rewrite m_Seq, m_Lit.
  rewrite (proj2 (occursAt_single s chLt i) Hi). cbn [length]. rewrite m_Seq.
  replace (i + 1) with (S i) by lia.
  change (m s (Star (notChr chGt)) (S i) [] (λ i' c', m s (Lit [chGt]) i' c' accept))
    with (starLoop (m s (Chr (λ c, negb (N.eqb c chGt))))
            (λ i' c', m s (Lit [chGt]) i' c' accept) (S (length s)) (S i) []).
  set (p := λ c : N, negb (N.eqb c chGt)).
  set (k := spanLen p (drop (S i) s)).
  assert (k ≤ length s - S i) as Hk.
  { unfold k. pose proof (spanLen_le p (drop (S i) s)) as H.
    by rewrite length_drop in H. }
  assert (S i + k ≤ j) as Hkj.
  { destruct (decide (S i + k ≤ j)) as [|Hgt]; [done|].
    assert (p chGt = true) as Hp.
    { apply (spanLen_inside p (drop (S i) s) (j - S i)); [fold k; lia|].
      rewrite lookup_drop. by replace (S i + (j - S i)) with j by lia. }
    unfold p in Hp. by rewrite N.eqb_refl in Hp. }
  assert (s !! (S i + k) = Some chGt) as Hend.
  { pose proof (lookup_lt_Some _ _ _ Hj) as Hlt.
    destruct (s !! (S i + k)) as [y|] eqn:Hy;
      [|apply lookup_ge_None in Hy; lia].
    assert (p y = false) as Hp.
    { apply (spanLen_after p (drop (S i) s)). fold k. by rewrite lookup_drop. }
    unfold p in Hp. apply negb_false_iff, N.eqb_eq in Hp. by rewrite Hp. }
  assert (is_Some (m s (Lit [chGt]) (S i + k) [] accept)) as Hlit.
  { rewrite m_Lit, (proj2 (occursAt_single s chGt _) Hend). by eexists. }
  rewrite starLoop_Chr_then; fold k; [done|lia|done].
Qed.

(** A tag ends with a [>]. *)
Lemma tag_ends (s : jsstring) (p e : nat) (c : caps) :
  m s reTag p [] accept = Some (e, c) → p < e - 1 ∧ s !! (e - 1) = Some chGt.
Proof.
  unfold reTag. rewrite m_Seq, m_Lit.
  destruct (occursAt s [chLt] p); [|done]. cbn [length]. rewrite m_Seq.
  intros H. apply m_inv in H as (j & c' & Hj & _ & H). cbn [minLen] in Hj.
  rewrite m_Lit in H. destruct (occursAt s [chGt] j) eqn:E; [|done].
  injection H as <- <-. apply occursAt_single in E. cbn [length].
  replace (j + 1 - 1) with j by lia. split; [lia|done].
Qed.

(** *** What a replacement keeps *)

Lemma drop_as_substrings (s : jsstring) (a b : nat) :
  a ≤ b → b ≤ length s → drop a s = substring s a b ++ drop b s.
Proof.
  intros Hab Hb. rewrite substring_ordered by done.
  rewrite <- (take_drop (b - a) (drop a s)) at 1. f_equal.
  rewrite drop_drop. f_equal. lia.
Qed.

Section Kept.
Variable s : jsstring.
Variable q : N → bool.

(** A replacement that keeps the characters sought in every match keeps
  them in the whole text, in their order. *)
Lemma assemble_filter (r : re) (f : jsstring → caps → jsstring) (fuel from : nat) :
0 < minLen r →
(∀ p e c, m s r p [] accept = Some (e, c) →
          List.filter q (f (substring s p e) c) = List.filter q (substring s p e)) →
from ≤ length s →
List.filter q (assemble s f (matchesFrom s fuel r from) from)
= List.filter q (drop from s).
Proof.
intros Hmin Hf. revert from; induction fuel as [|fuel IH]; intros from Hle; [done|].
cbn [matchesFrom]. destruct (exec s r from) as [[[p e] c]|] eqn:E; [|done].
pose proof (exec_Some _ _ _ _ _ _ E) as (Hp & Hpe & He & Hm).
pose proof (m_end _ _ _ _ _ _ Hm) as [Hspan _].
assert ((e =? p) = false) as -> by (apply Nat.eqb_neq; lia).
cbn [assemble]. rewrite !List.filter_app, (Hf _ _ _ Hm), IH by lia.
rewrite (drop_as_substrings s from p) by lia.
rewrite (drop_as_substrings s p e) by lia. by rewrite !List.filter_app.
Qed.

Lemma replaceGlobal_filter (r : re) (f : jsstring → caps → jsstring) :
0 < minLen r →
(∀ p e c, m s r p [] accept = Some (e, c) →
          List.filter q (f (substring s p e) c) = List.filter q (substring s p e)) →
List.filter q (replaceGlobal s r f) = List.filter q s.
Proof.
intros Hmin Hf. unfold replaceGlobal. by rewrite assemble_filter by (done || lia).
Qed.
End Kept.

(** *** Trimming *)

Lemma trimStart_split (s : jsstring) :
  ∃ w, s = w ++ trimStart s ∧ Forall (λ c, isWhiteSpace c = true) w.
Proof.
  induction s as [|c s (w & Hs & Hw)]; [by exists []|]. cbn [trimStart].
  destruct (isWhiteSpace c) eqn:E.
  - exists (c :: w). split; [by rewrite Hs at 1|by constructor].
  - by exists [].
Qed.

Lemma trimStart_head (s : jsstring) (c : N) :
  head (trimStart s) = Some c → isWhiteSpace c = false.
Proof.
  induction s as [|x s IH]; [done|]. cbn [trimStart].
  destruct (isWhiteSpace x) eqn:E; [done|]. by intros [= <-].
Qed.

Lemma trim_split (s : jsstring) :
  ∃ w1 w2, s = w1 ++ trim s ++ w2
           ∧ Forall (λ c, isWhiteSpace c = true) w1
           ∧ Forall (λ c, isWhiteSpace c = true) w2.
Proof.
  unfold trim, trimEnd. destruct (trimStart_split s) as (w1 & Hs & Hw1).
  destruct (trimStart_split (rev (trimStart s))) as (w2 & Ht & Hw2).
  exists w1, (rev w2). split; [|split; [done|by apply Forall_rev]].
  rewrite Hs at 1. f_equal. rewrite <- rev_app_distr, <- Ht. by rewrite rev_involutive.
Qed.

Lemma trim_ends (s : jsstring) :
  (∀ c, head (trim s) = Some c → isWhiteSpace c = false)
  ∧ (∀ c, last (trim s) = Some c → isWhiteSpace c = false).
Proof.
  unfold trim, trimEnd. set (t := trimStart s).
  set (u := trimStart (rev t)). split.
  - intros c Hc. destruct (trimStart_split (rev t)) as (w & Ht & Hw). fold u in Ht.
    assert (t = rev u ++ rev w) as Ht'.
    { by rewrite <- rev_app_distr, <- Ht, rev_involutive. }
    apply (trimStart_head s). fold t. rewrite Ht'.
    destruct (rev u); [done|]. done.
  - intros c Hc. apply last_Some in Hc as [l Hl].
    apply (trimStart_head (rev t)). fold u.
    rewrite <- (rev_involutive u), Hl, rev_app_distr. done.
Qed.

(** *** Single spaces *)

Lemma singleSpaced_cons (x : N) (b : jsstring) :
  (∀ y, head b = Some y → isWhiteSpace y = false) →
  singleSpaced b = true → singleSpaced (x :: b) = true.
Proof.
  intros Hhead Hb. cbn [singleSpaced]. rewrite Hb, andb_true_r.
  destruct b as [|y b]; [done|]. rewrite (Hhead y) by done.
  by rewrite andb_false_r.
Qed.

Lemma singleSpaced_app_plain (a b : jsstring) :
  Forall (λ x, isWhiteSpace x = false) a →
  singleSpaced b = true → singleSpaced (a ++ b) = true.
Proof.
  intros Ha Hb. induction Ha as [|x a Hx Ha IH]; [done|].
  cbn [app singleSpaced]. rewrite IH, andb_true_r, Hx.
  by destruct (a ++ b).
Qed.

Lemma singleSpaced_app_r (a b : jsstring) :
  singleSpaced (a ++ b) = true → singleSpaced b = true.
Proof.
  induction a as [|x a IH]; [done|]. cbn [app singleSpaced].
  intros [_ H]%andb_true_iff. by apply IH.
Qed.

Lemma singleSpaced_app_l (a b : jsstring) :
  singleSpaced (a ++ b) = true → singleSpaced a = true.
Proof.
  induction a as [|x a IH]; [done|]. cbn [app singleSpaced].
  intros [Hx H]%andb_true_iff. rewrite (IH H), andb_true_r.
  destruct a as [|y a]; [done|]. done.
Qed.

Lemma singleSpaced_lookup (s : jsstring) (i : nat) (x y : N) :
  singleSpaced s = true → s !! i = Some x → s !! S i = Some y →
  isWhiteSpace x = true → isWhiteSpace y = false.
Proof.
  revert i; induction s as [|z s IH]; intros i; [done|].
  cbn [singleSpaced]. intros [Hz Hs]%andb_true_iff. destruct i as [|i].
  - intros [= ->] Hy Hx. destruct s as [|w s]; [done|]. injection Hy as ->.
    rewrite Hx in Hz. by apply negb_true_iff in Hz.
  - intros Hx Hy. by apply (IH i Hs).
Qed.

(** *** Runs of white space *)

Lemma spaces_match (s : jsstring) (p e : nat) (c : caps) :
  m s reSpaces p [] accept = Some (e, c) →
  (∀ y, s !! e = Some y → isWhiteSpace y = false)
  ∧ Forall (λ x, isWhiteSpace x = true) (substring s p e).
Proof.
  intros Hm. split; [|by apply m_PlusChr_Some in Hm]. revert Hm.
  unfold reSpaces, ws. destruct (s !! p) as [x|] eqn:Hx.
  - destruct (isWhiteSpace x) eqn:Hw.
    + rewrite (m_PlusChr_exact _ _ _ _ Hx Hw). intros [= <- <-] y Hy.
      apply (spanLen_after isWhiteSpace (drop (S p) s)). by rewrite lookup_drop.
    + intros Hm. pose proof (proj2 (m_PlusChr_None s isWhiteSpace p)) as Hn.
      rewrite Hx in Hn. by rewrite (Hn Hw) in Hm.
  - intros Hm. pose proof (proj2 (m_PlusChr_None s isWhiteSpace p)) as Hn.
    rewrite Hx in Hn. by rewrite (Hn I) in Hm.
Qed.

Lemma spaces_none (s : jsstring) (i : nat) :
  (∀ y, s !! i = Some y → isWhiteSpace y = false) →
  m s reSpaces i [] accept = None.
Proof.
  intros H. apply m_PlusChr_None. destruct (s !! i) as [y|]; [|done]. by apply H.
Qed.

(** Where nothing matches at the index from which the replacement goes on,
    the rest of the result starts with the character there. *)
Lemma assemble_head (s : jsstring) (r : re) (f : jsstring → caps → jsstring)
    (fuel from : nat) :
  m s r from [] accept = None →
  head (assemble s f (matchesFrom s fuel r from) from) = s !! from.
Proof.
  intros Hnone.
  assert (head (drop from s) = s !! from) as Hdrop.
  { by rewrite head_lookup, lookup_drop, Nat.add_0_r. }
  destruct fuel as [|fuel]; [done|]. cbn [matchesFrom].
  destruct (exec s r from) as [[[p e] c]|] eqn:E; [|done].
  pose proof (exec_Some _ _ _ _ _ _ E) as (Hp & Hpe & He & Hm).
  assert (from < p) as Hlt.
  { destruct (decide (from = p)) as [->|]; [congruence|lia]. }
  cbn [assemble]. rewrite substring_ordered by lia.
  destruct (drop from s) as [|x rest] eqn:Hd.
  { apply (f_equal length) in Hd. rewrite length_drop in Hd. simpl in Hd. lia. }
  rewrite <- Hdrop. by replace (p - from) with (S (p - from - 1)) by lia.
Qed.

Lemma assemble_singleSpaced (s : jsstring) (fuel from : nat) :
  from ≤ length s → length s - from < fuel →
  singleSpaced (assemble s (λ _ _, js " ") (matchesFrom s fuel reSpaces from) from)
  = true.
Proof.
  revert from; induction fuel as [|fuel IH]; intros from Hle Hfuel; [lia|].
  cbn [matchesFrom]. destruct (exec s reSpaces from) as [[[p e] c]|] eqn:E.
  - pose proof (exec_Some _ _ _ _ _ _ E) as (Hp & Hpe & He & Hm).
    pose proof (m_end _ _ _ _ _ _ Hm) as [Hspan _]. cbn [minLen reSpaces] in Hspan.
    pose proof (spaces_match _ _ _ _ Hm) as [Hnext _].
    assert ((e =? p) = false) as -> by (apply Nat.eqb_neq; simpl in Hspan; lia).
    cbn [assemble]. apply singleSpaced_app_plain.
    + apply Forall_substring; [lia|]. intros i x Hi Hx.
      pose proof (exec_leftmost _ _ _ _ _ _ E i Hi) as Hn.
      apply m_PlusChr_None in Hn. by rewrite Hx in Hn.
    + apply singleSpaced_cons; [|apply IH; simpl in Hspan; lia].
      intros y. rewrite assemble_head by (by apply spaces_none). apply Hnext.
  - cbn [assemble].
    replace (drop from s) with (drop from s ++ []) by apply app_nil_r.
    apply singleSpaced_app_plain; [|done].
    apply Forall_drop_from. intros i x Hi Hx.
    pose proof (exec_None_inv _ _ _ Hle E i) as Hn.
    apply lookup_lt_Some in Hx as Hlt.
    apply m_PlusChr_None in Hn; [|lia]. by rewrite Hx in Hn.
Qed.

(** *** Tags *)

Lemma assemble_tagFree (s : jsstring) (fuel from : nat) :
  from ≤ length s → length s - from < fuel →
  tagFree (assemble s (λ _ _, js " ") (matchesFrom s fuel reTag from) from) = true.
Proof.
  revert from; induction fuel as [|fuel IH]; intros from Hle Hfuel; [lia|].
  cbn [matchesFrom]. destruct (exec s reTag from) as [[[p e] c]|] eqn:E.
  - pose proof (exec_Some _ _ _ _ _ _ E) as (Hp & Hpe & He & Hm).
    pose proof (tag_ends _ _ _ _ Hm) as [Hlt Hgt].
    assert ((e =? p) = false) as -> by (apply Nat.eqb_neq; lia).
    cbn [assemble]. rewrite app_assoc. apply tagFree_app; [|apply IH; lia].
    intros [Hin|Hin]%elem_of_app; [|by apply list_elem_of_singleton in Hin].
    apply list_elem_of_lookup in Hin as [j Hj]. rewrite substring_ordered in Hj by lia.
    apply lookup_lt_Some in Hj as Hjlt. rewrite length_take in Hjlt.
    rewrite lookup_take_lt, lookup_drop in Hj by lia.
    destruct (tag_found s (from + j) (e - 1)) as [y Hy]; [lia|done|done|].
    rewrite (exec_leftmost _ _ _ _ _ _ E) in Hy by lia. done.
  - cbn [assemble]. apply tagFree_lookup. intros i j Hij Hi Hj.
    rewrite lookup_drop in Hi, Hj. apply lookup_lt_Some in Hj as Hlt.
    destruct (tag_found s (from + i) (from + j)) as [y Hy]; [lia|done|done|].
    rewrite (exec_None_inv _ _ _ Hle E) in Hy by lia. done.
Qed.

Lemma filter_angle_spaces (w : jsstring) :
  Forall (λ x, isWhiteSpace x = true) w → List.filter isAngle w = [].
Proof.
  induction 1 as [|x w Hx _ IH]; [done|]. cbn [List.filter]. rewrite IH.
  unfold isAngle, chLt, chGt.
  destruct (N.eqb x 60) eqn:E1; [apply N.eqb_eq in E1 as ->; done|].
  destruct (N.eqb x 62) eqn:E2; [apply N.eqb_eq in E2 as ->; done|]. done.
Qed.

(** X24. The text that stripping a slide of its markup gives
    ([cleanContent] in [buildRichPreviousContext], the fallback of
    [stripHtml]): no [<] in it is followed by a [>] anywhere later, so it
    holds no tag; its only white space is the space character; no two spaces
    stand side by side; it neither starts nor ends with a space. *)
Theorem cleanContent_is_plain_text (content : jsstring) :
  let text := cleanContent content in
  (∀ a b c, text ≠ a ++ chLt :: b ++ chGt :: c)
  ∧ Forall (λ x, isWhiteSpace x = true → x = 32%N) text
  ∧ (∀ i x y, text !! i = Some x → text !! S i = Some y →
              isWhiteSpace x = true → isWhiteSpace y = false)
  ∧ (∀ x, head text = Some x → isWhiteSpace x = false)
  ∧ (∀ x, last text = Some x → isWhiteSpace x = false).
Proof.
  intros text. unfold text, cleanContent.
  set (s1 := replaceGlobal content reTag (λ _ _, js " ")).
  set (s2 := replaceGlobal s1 reSpaces (λ _ _, js " ")).
  destruct (trim_split s2) as (w1 & w2 & Hs2 & Hw1 & Hw2).
  assert (tagFree s1 = true) as H1.
  { unfold s1, replaceGlobal. apply assemble_tagFree; lia. }
  assert (List.filter isAngle s2 = List.filter isAngle s1) as H2.
  { unfold s2. apply replaceGlobal_filter; [cbn; lia|]. intros p e c Hm.
    apply spaces_match in Hm as [_ Hm]. by rewrite (filter_angle_spaces _ Hm). }
  assert (Forall (λ x, isWhiteSpace x = true → x = 32%N) s2) as H3.
  { unfold s2. apply replaceGlobal_Forall; [cbn; lia| |].
    - intros i x Hx Hn Hw. apply m_PlusChr_None in Hn. rewrite Hx in Hn. congruence.
    - intros p e c _. by repeat constructor. }
  assert (singleSpaced s2 = true) as H4.
  { unfold s2, replaceGlobal. apply assemble_singleSpaced; lia. }
  split; [|split; [|split; [|apply trim_ends]]].
  - apply tagFree_spec. rewrite <- tagFree_filter.
    assert (List.filter isAngle (trim s2) = List.filter isAngle s2) as ->.
    { rewrite Hs2 at 2. rewrite !List.filter_app.
      by rewrite (filter_angle_spaces w1), (filter_angle_spaces w2), app_nil_r. }
    by rewrite H2, tagFree_filter.
  - rewrite Hs2 in H3. by apply Forall_app in H3 as [_ [H3 _]%Forall_app].
  - intros i x y. apply singleSpaced_lookup. rewrite Hs2 in H4.
    by apply singleSpaced_app_r, singleSpaced_app_l in H4.
Qed.

End SlideTextProps.

(** ** Import and export lines *)

Module ExportLineProps.
Import JS JSFacts MoreJSFacts Regex RegexFacts RegexRuns ReplaceFacts.
Import Sanitizer SanitizerProps CorrectorProps SlideTextProps LineTexts.

(** *** Lines *)

Lemma split_plain (sep : N) (l : jsstring) : sep ∉ l → split sep l = [l].
Proof.
  induction l as [|c l IH]; [done|]. intros [Hc Hl]%not_elem_of_cons.
  cbn [split]. rewrite (proj2 (N.eqb_neq c sep)) by done. by rewrite (IH Hl).
Qed.

Lemma split_app_sep (sep : N) (l r : jsstring) :
  sep ∉ l → split sep (l ++ sep :: r) = l :: split sep r.
Proof.
  induction l as [|c l IH]; intros Hl.
  - cbn [app split]. by rewrite N.eqb_refl.
  - apply not_elem_of_cons in Hl as [Hc Hl]. cbn [app split].
    rewrite (proj2 (N.eqb_neq c sep)) by done. by rewrite (IH Hl).
Qed.

Lemma split_join (sep : N) (lines : list jsstring) :
  lines ≠ [] → Forall (λ l, sep ∉ l) lines → split sep (join [sep] lines) = lines.
Proof.
  intros Hne H. induction H as [|l lines Hl Hlines IH]; [done|].
  destruct lines as [|l' lines]; [by apply split_plain|].
  change (join [sep] (l :: l' :: lines)) with (l ++ sep :: join [sep] (l' :: lines)).
  rewrite split_app_sep by done. by rewrite IH.
Qed.

(** *** Trimming a text with white space around it *)

Lemma trimStart_white (w s : jsstring) :
  allWhiteSpace w → trimStart (w ++ s) = trimStart s.
Proof. induction 1 as [|c w Hc _ IH]; [done|]. cbn [app trimStart]. by rewrite Hc. Qed.

Lemma trimStart_id (s : jsstring) :
  (∀ c, head s = Some c → isWhiteSpace c = false) → trimStart s = s.
Proof. destruct s as [|c s]; [done|]. intros H. cbn [trimStart]. by rewrite (H c). Qed.

Lemma trim_core (lead core trail : jsstring) :
  allWhiteSpace lead → allWhiteSpace trail →
  (∀ c, head core = Some c → isWhiteSpace c = false) →
  (∀ c, last core = Some c → isWhiteSpace c = false) →
  core ≠ [] →
  trim (lead ++ core ++ trail) = core.
Proof.
  intros Hlead Htrail Hhead Hlast Hne. unfold trim, trimEnd.
  rewrite trimStart_white by done.
  rewrite (trimStart_id (core ++ trail)).
  - rewrite rev_app_distr, trimStart_white by (by apply Forall_rev).
    rewrite trimStart_id; [apply rev_involutive|].
    intros c Hc. apply Hlast. rewrite <- (rev_involutive core).
    destruct (rev core) as [|x r]; [done|]. injection Hc as ->.
    change (rev (c :: r)) with (rev r ++ [c]). apply last_snoc.
  - intros c Hc. apply Hhead. by destruct core.
Qed.

Lemma isTrimmed_ends (s : jsstring) :
  isTrimmed s →
  (∀ c, head s = Some c → isWhiteSpace c = false)
  ∧ (∀ c, last s = Some c → isWhiteSpace c = false).
Proof. intros [_ H]. rewrite <- H. apply trim_ends. Qed.

(** *** A greedy run of white space and what follows it *)

Lemma starLoop_Chr_greedy (s : jsstring) (p : N → bool) (k : cont) (n i : nat)
    (c : caps) :
  spanLen p (drop i s) < n →
  is_Some (k (i + spanLen p (drop i s)) c)
  ∨ (∀ j, i ≤ j → j < i + spanLen p (drop i s) → k j c = None) →
  starLoop (m s (Chr p)) k n i c = k (i + spanLen p (drop i s)) c.
Proof.
  intros Hn [Hk|Hk]; [by apply starLoop_Chr_then|].
  revert i Hn Hk; induction n as [|n IH]; intros i Hn Hk; [lia|].
  cbn [starLoop]. rewrite m_Chr. destruct (s !! i) as [x|] eqn:Hx.
  - rewrite (drop_S _ _ _ Hx) in *. cbn [spanLen] in *. destruct (p x).
    + assert ((i <? S i) = true) as -> by (apply Nat.ltb_lt; lia).
      replace (i + S (spanLen p (drop (S i) s)))
        with (S i + spanLen p (drop (S i) s)) in * by lia.
      rewrite IH; [|lia|intros j Hj1 Hj2; apply Hk; lia].
      destruct (k (S i + spanLen p (drop (S i) s)) c) eqn:E; [done|].
      apply Hk; lia.
    + by rewrite Nat.add_0_r in *.
  - rewrite drop_ge in * by (apply lookup_ge_None in Hx; lia).
    cbn [spanLen] in *. by rewrite Nat.add_0_r in *.
Qed.

(** One or more white-space characters, in a text where the run of white
    space at [i] is [run]: the match goes on after the run, when what follows
    succeeds there or fails at every index inside the run. *)
Lemma m_Plus_ws_run (pre run post : jsstring) (k : cont) (c : caps) :
  run ≠ [] → allWhiteSpace run →
  (∀ x, head post = Some x → isWhiteSpace x = false) →
  is_Some (k (length pre + length run) c)
  ∨ (∀ j, length pre < j → j < length pre + length run → k j c = None) →
  m (pre ++ run ++ post) (Plus ws) (length pre) c k
  = k (length pre + length run) c.
Proof.
  intros Hne Hrun Hpost Hk. set (s := pre ++ run ++ post).
  destruct run as [|x run]; [done|]. apply Forall_cons in Hrun as [Hx Hrun].
  unfold Plus, ws. rewrite m_Seq, m_Chr.
  assert (s !! length pre = Some x) as ->
    by (unfold s; by rewrite lookup_app_r, Nat.sub_diag by lia).
  rewrite Hx.
  change (m s (Star (Chr isWhiteSpace)) (S (length pre)) c k)
    with (starLoop (m s (Chr isWhiteSpace)) k (S (length s)) (S (length pre)) c).
  assert (drop (S (length pre)) s = run ++ post) as Hdrop.
  { unfold s. rewrite drop_app_ge by lia.
    by replace (S (length pre) - length pre) with 1 by lia. }
  assert (spanLen isWhiteSpace (drop (S (length pre)) s) = length run) as Hspan.
  { rewrite Hdrop. apply spanLen_run; [done|].
    destruct post as [|y post]; [done|]. by apply Hpost. }
  rewrite starLoop_Chr_greedy; rewrite Hspan.
  - cbn [length]. f_equal. lia.
  - unfold s. rewrite !length_app. cbn [length]. lia.
  - cbn [length] in Hk.
    replace (S (length pre) + length run) with (length pre + S (length run)) by lia.
    destruct Hk as [Hk|Hk]; [by left|right]. intros j Hj1 Hj2. apply Hk; lia.
Qed.

Lemma occursAt_mismatch (s p : jsstring) (i : nat) (x y : N) :
  s !! i = Some x → head p = Some y → x ≠ y → occursAt s p i = false.
Proof.
  intros Hx Hy Hne. unfold occursAt. rewrite (drop_S _ _ _ Hx).
  destruct p as [|y' p]; [done|]. injection Hy as ->. cbn [isPrefix].
  by rewrite (proj2 (N.eqb_neq y x)).
Qed.

(** A keyword and the white space after it, and then [R]. *)
Lemma m_keyword_spaces (pre kw run post : jsstring) (R : re) (k : cont) (c : caps) :
  run ≠ [] → allWhiteSpace run →
  (∀ x, head post = Some x → isWhiteSpace x = false) →
  is_Some (m (pre ++ kw ++ run ++ post) R
             (length pre + length kw + length run) c k)
  ∨ (∀ j, length pre + length kw < j → j < length pre + length kw + length run →
          m (pre ++ kw ++ run ++ post) R j c k = None) →
  m (pre ++ kw ++ run ++ post) (Seq (Lit kw) (Seq (Plus ws) R)) (length pre) c k
  = m (pre ++ kw ++ run ++ post) R (length pre + length kw + length run) c k.
Proof.
  intros Hne Hrun Hpost Hk. set (s := pre ++ kw ++ run ++ post) in *.
  rewrite m_Seq, m_Lit.
  assert (occursAt s kw (length pre) = true) as ->.
  { unfold occursAt, s. rewrite drop_app_length. apply isPrefix_self_app. }
  rewrite m_Seq.
  assert (s = (pre ++ kw) ++ run ++ post) as Hs by (unfold s; by rewrite <- app_assoc).
  assert (length pre + length kw = length (pre ++ kw)) as Hlen
    by (by rewrite length_app).
  rewrite Hlen in *. rewrite Hs in *.
  by apply (m_Plus_ws_run (pre ++ kw) run post (λ i' c', m _ R i' c' k) c).
Qed.

(** Where the keyword with a white space after it is not what comes next,
    there is no match. *)
Lemma m_keyword_absent (pre rest kw : jsstring) (R : re) (k : cont) (c : caps) :
  keywordThenSpace kw rest = false →
  m (pre ++ rest) (Seq (Lit kw) (Seq (Plus ws) R)) (length pre) c k = None.
Proof.
  intros H. rewrite m_Seq, m_Lit. unfold occursAt. rewrite drop_app_length.
  unfold keywordThenSpace, startsWith in H.
  destruct (isPrefix kw rest) eqn:E; [|done]. cbn [andb] in H.
  rewrite m_Seq. unfold Plus, ws. rewrite m_Seq, m_Chr.
  rewrite lookup_app_r by lia.
  replace (length pre + length kw - length pre) with (length kw) by lia.
  destruct (rest !! length kw) as [x|]; [|done]. by rewrite H.
Qed.

(** A keyword does not start at a white-space character. *)
Lemma m_keyword_at_space (s kw : jsstring) (R : re) (k : cont) (c : caps)
    (j : nat) (x y : N) :
  s !! j = Some x → isWhiteSpace x = true →
  head kw = Some y → isWhiteSpace y = false →
  m s (Seq (Lit kw) R) j c k = None.
Proof.
  intros Hx Hwx Hy Hwy. rewrite m_Seq, m_Lit.
  rewrite (occursAt_mismatch s kw j x y); [done..|]. congruence.
Qed.

Lemma lookup_run (pre run post : jsstring) (j : nat) :
  allWhiteSpace run → length pre ≤ j → j < length pre + length run →
  ∃ x, (pre ++ run ++ post) !! j = Some x ∧ isWhiteSpace x = true.
Proof.
  intros Hrun Hj1 Hj2. rewrite lookup_app_r by done.
  rewrite lookup_app_l by lia.
  destruct (run !! (j - length pre)) as [x|] eqn:E.
  - exists x. split; [done|]. apply (proj1 (Forall_forall _ _) Hrun).
    by eapply list_elem_of_lookup_2.
  - apply lookup_ge_None in E. lia.
Qed.

(** *** What is left of an export line *)

Section ExportKeyword.
Variables spaces rest : jsstring.
Hypothesis spaces_white : allWhiteSpace spaces.
Hypothesis rest_head : ∀ x, head rest = Some x → isWhiteSpace x = false.

Local Abbreviation run := (32%N :: spaces).

Lemma run_white : allWhiteSpace run.
Proof. by constructor. Qed.

(** [export], a space and more white space in a text that starts with
  them. *)
Lemma export_keyword (post : jsstring) (R : re) :
(∀ x, head post = Some x → isWhiteSpace x = false) →
let t := js "export" ++ run ++ post in
is_Some (m t R (7 + length spaces) [] accept)
∨ (∀ j, 6 < j → j < 7 + length spaces → m t R j [] accept = None) →
m t (Seq (Lit (js "export")) (Seq (Plus ws) R)) 0 [] accept
= m t R (7 + length spaces) [] accept.
Proof.
intros Hpost.
exact (m_keyword_spaces [] (js "export") run post R accept [] ltac:(done)
         run_white Hpost).
Qed.

(** [export] and white space in front of a text that does not go on with
  [default]: the two replacements leave the text. *)
Lemma export_deleted :
keywordThenSpace (js "default") rest = false →
deleteFirst (deleteFirst (js "export" ++ run ++ rest) reExportDefault) reExport
= rest.
Proof.
intros Hdefault. set (t := js "export" ++ run ++ rest).
pose proof (deleteFirst_anchored t
              (Seq (Lit (js "export"))
                 (Seq (Plus ws) (Seq (Lit (js "default")) (Seq (Plus ws) Eps)))))
  as Hfirst.
change (Seq Bol _) with reExportDefault in Hfirst.
assert (m t (Seq (Lit (js "default")) (Seq (Plus ws) Eps))
          (7 + length spaces) [] accept = None) as Hend.
{ exact (m_keyword_absent (js "export" ++ run) rest (js "default") Eps
           accept [] Hdefault). }
rewrite (export_keyword rest _ rest_head) in Hfirst.
2:{ right. intros j Hj1 Hj2.
    destruct (lookup_run (js "export") run rest j run_white) as (x & Hx & Hw);
      [simpl; lia|simpl in *; lia|].
    by apply (m_keyword_at_space _ (js "default") _ accept [] j x 100%N). }
fold t in Hfirst. rewrite Hend in Hfirst. rewrite Hfirst.
pose proof (deleteFirst_anchored t (Seq (Lit (js "export")) (Seq (Plus ws) Eps)))
  as Hsecond.
change (Seq Bol _) with reExport in Hsecond.
rewrite (export_keyword rest _ rest_head) in Hsecond by (by left; eexists).
fold t in Hsecond. cbn [m accept] in Hsecond. destruct Hsecond as (_ & _ & ->).
change t with ((js "export" ++ run) ++ rest).
change (7 + length spaces) with (length (js "export" ++ run)).
apply drop_app_length.
Qed.

(** [export default] and white space in front of a text that does not go
  on with [export]: the two replacements leave the text. *)
Lemma export_default_deleted (spaces2 : jsstring) :
spaces2 ≠ [] → allWhiteSpace spaces2 →
keywordThenSpace (js "export") rest = false →
deleteFirst
  (deleteFirst (js "export" ++ run ++ js "default" ++ spaces2 ++ rest)
     reExportDefault) reExport
= rest.
Proof.
intros Hne2 Hwhite2 Hexport.
set (t := js "export" ++ run ++ js "default" ++ spaces2 ++ rest).
pose proof (deleteFirst_anchored t
              (Seq (Lit (js "export"))
                 (Seq (Plus ws) (Seq (Lit (js "default")) (Seq (Plus ws) Eps)))))
  as Hfirst.
change (Seq Bol _) with reExportDefault in Hfirst.
assert (m t (Seq (Lit (js "default")) (Seq (Plus ws) Eps))
          (7 + length spaces) [] accept
        = Some (7 + length spaces + 7 + length spaces2, [])) as Hend.
{ pose proof (m_keyword_spaces (js "export" ++ run) (js "default") spaces2 rest
                Eps accept [] Hne2 Hwhite2 rest_head) as H.
  rewrite <- app_assoc in H. fold t in H.
  change (length (js "export" ++ run)) with (7 + length spaces) in H.
  change (length (js "default")) with 7 in H.
  apply H. left. by eexists. }
rewrite (export_keyword (js "default" ++ spaces2 ++ rest)) in Hfirst;
  [|by intros x [= <-]|left; fold t; rewrite Hend; by eexists].
fold t in Hfirst. rewrite Hend in Hfirst. destruct Hfirst as (_ & _ & ->).
assert (drop (7 + length spaces + 7 + length spaces2) t = rest) as ->.
{ unfold t. rewrite !app_assoc.
  replace (7 + length spaces + 7 + length spaces2)
    with (length (((js "export" ++ run) ++ js "default") ++ spaces2))
    by (rewrite !length_app; simpl; lia).
  apply drop_app_length. }
pose proof (deleteFirst_anchored rest (Seq (Lit (js "export")) (Seq (Plus ws) Eps)))
  as Hsecond.
change (Seq Bol _) with reExport in Hsecond.
pose proof (m_keyword_absent [] rest (js "export") Eps accept [] Hexport) as H.
cbn [app length] in H. by rewrite H in Hsecond.
Qed.
End ExportKeyword.

(** An export line: white space, a text that starts with [export ] and from
    which the two replacements leave [stripped], white space. *)
Lemma stripShadowLine_export (lead text trail stripped : jsstring) :
  allWhiteSpace lead → allWhiteSpace trail →
  (∀ c, last (js "export " ++ text) = Some c → isWhiteSpace c = false) →
  deleteFirst (deleteFirst (js "export " ++ text) reExportDefault) reExport
  = stripped →
  chDollar ∉ stripped →
  stripShadowLine (lead ++ (js "export " ++ text) ++ trail)
  = lead ++ stripped ++ trail.
Proof.
  intros Hlead Htrail Hlast Hstripped Hplain.
  set (core := js "export " ++ text) in *.
  set (line := lead ++ core ++ trail).
  assert (trim line = core) as Htrim.
  { apply trim_core; [done|done| |done|done]. by intros c [= <-]. }
  unfold stripShadowLine. rewrite Htrim.
  assert (startsWith core (js "import ") = false) as -> by done.
  assert (startsWith core (js "export ") = true) as ->
    by apply isPrefix_self_app.
  rewrite orb_true_r, Hstripped. unfold replaceStr.
  rewrite (indexOf_first line core 0 (length lead)); [|lia|lia| |].
  - rewrite (getSubstitution_plain _ _ _ _ Hplain). unfold line.
    rewrite take_app_length. do 2 f_equal. rewrite drop_app_ge by lia.
    replace (length lead + length core - length lead) with (length core) by lia.
    apply drop_app_length.
  - unfold occursAt, line. rewrite drop_app_length. apply isPrefix_self_app.
  - intros q _ Hq.
    destruct (lead !! q) as [x|] eqn:Hx; [|apply lookup_ge_None in Hx; lia].
    apply (occursAt_mismatch line core q x 101%N); [|done|].
    + unfold line. by rewrite lookup_app_l.
    + intros ->. apply list_elem_of_lookup_2 in Hx.
      by apply (proj1 (Forall_forall _ _) Hlead) in Hx.
Qed.

Lemma last_of_trimmed (pre rest : jsstring) (c : N) :
  isTrimmed rest → last (pre ++ rest) = Some c → isWhiteSpace c = false.
Proof.
  intros Hrest. destruct (isTrimmed_ends rest Hrest) as [_ Hlast].
  destruct Hrest as [Hne _]. rewrite last_app.
  destruct (last rest) as [y|] eqn:E; [intros [= <-]; by apply Hlast|].
  by apply last_None in E.
Qed.

(** C9 (amended). The shadow-stripping step works line by line: the lines of
    its result are what [stripShadowLine] makes of the lines of the text.  A
    line whose trimmed text starts with [import ] becomes the empty line.  A
    line that holds [export ], more white space or none, and a statement is
    not removed: what is left of it is the statement, with the white space
    the line had around it, when the statement holds no [$]; and the same is
    left of a line that holds [export ], [default], white space and the
    statement. *)
Theorem imports_blanked_exports_unwrapped :
  (∀ lines, lines ≠ [] → Forall (λ l, chNewline ∉ l) lines →
     stripShadows (join [chNewline] lines)
     = join [chNewline] (stripShadowLine <$> lines))
  ∧ (∀ line, startsWith (trim line) (js "import ") = true →
       stripShadowLine line = [])
  ∧ (∀ lead spaces statement trail,
       allWhiteSpace lead → allWhiteSpace spaces → allWhiteSpace trail →
       isTrimmed statement → chDollar ∉ statement →
       (keywordThenSpace (js "default") statement = false →
        stripShadowLine (lead ++ (js "export " ++ spaces ++ statement) ++ trail)
        = lead ++ statement ++ trail)
       ∧ (keywordThenSpace (js "export") statement = false →
          ∀ spaces2, spaces2 ≠ [] → allWhiteSpace spaces2 →
            stripShadowLine
              (lead ++ (js "export " ++ spaces ++ js "default" ++ spaces2
                          ++ statement) ++ trail)
            = lead ++ statement ++ trail)).
Proof.
  split; [|split].
  - intros lines Hne Hlines. unfold stripShadows. by rewrite split_join.
  - intros line H. unfold stripShadowLine. by rewrite H.
  - intros lead spaces statement trail Hlead Hspaces Htrail Hst Hplain.
    destruct (isTrimmed_ends statement Hst) as [Hhead _]. split.
    + intros Hdefault. apply stripShadowLine_export; [done|done| |  |done].
      * intros c. rewrite app_assoc. by apply last_of_trimmed.
      * by apply (export_deleted spaces statement).
    + intros Hexport spaces2 Hne2 Hwhite2.
      apply stripShadowLine_export; [done|done| | |done].
      * intros c. rewrite !app_assoc. by apply last_of_trimmed.
      * by apply (export_default_deleted spaces statement Hspaces Hhead spaces2).
Qed.

Lemma imports_blanked_exports_unwrapped_witness :
  stripShadows (js "import x from 'y';" ++ [chNewline] ++ js "const a = 1;")
  = [chNewline] ++ js "const a = 1;"
  ∧ stripShadowLine (js "  export   function f() {}  ") = js "  function f() {}  "
  ∧ stripShadowLine (js "export default class A {}") = js "class A {}".
Proof.
  destruct imports_blanked_exports_unwrapped as (Hlines & Himport & Hexport).
  split; [|split].
  - change (js "import x from 'y';" ++ [chNewline] ++ js "const a = 1;")
      with (join [chNewline] [js "import x from 'y';"; js "const a = 1;"]).
    rewrite Hlines; [|done|repeat constructor; by apply (bool_decide_unpack _)].
    cbn [fmap list_fmap join]. by rewrite (Himport (js "import x from 'y';")).
  - refine (proj1 (Hexport (js "  ") (js "  ") (js "function f() {}") (js "  ")
                     _ _ _ _ _) _);
      try (by repeat constructor); try done.
    by apply (bool_decide_unpack _).
  - refine (proj2 (Hexport [] [] (js "class A {}") [] _ _ _ _ _) _ (js " ") _ _);
      try (by repeat constructor); try done.
    by apply (bool_decide_unpack _).
Defined.

End ExportLineProps.
